(** * A shallow embedding of the apollo-client cache core

    The development follows the sources file by file:

    - [FragmentMatcher]: [IntrospectionFragmentMatcher.match] and
      [HeuristicFragmentMatcher.match];
    - [QueryManager]: the orchestration layer ([fetchQueryOverInterface],
      [resetStore], [query], the id counter, the fetch-promise table);
    - [Writer]: [StoreWriter.processSelectionSet] / [processFieldValue].

    JavaScript objects used as dictionaries are [gmap]s of their own
    properties, read through [js_get] where the source reads a plain
    object, whose prototype chain answers too; exceptions are an explicit
    completion type, and mutable fields of [this] are threaded as a
    record.  Results handed to the writer are object graphs: objects held
    by reference live in a heap, so that they can be shared or cyclic. *)

From Stdlib Require Import ZArith Lia.
From stdpp Require Import base option list gmap strings.

Set Warnings "-register-all".
From stdpp Require Import pretty.
Local Open Scope string_scope.
Local Open Scope list_scope.

(** ** JavaScript preliminaries *)

(** The outcome of running a piece of JavaScript: it returns normally or
    throws. *)
Inductive Completion (E A : Type) : Type :=
| Normal (a : A)
| Throw (e : E).
Arguments Normal {E A} a.
Arguments Throw {E A} e.

(** [new Error(message)] *)
Inductive JsError : Type :=
| Error (message : string)
| InvariantError (message : string)
| TypeError (message : string).

#[global] Instance JsError_eq_dec : EqDecision JsError.
Proof. solve_decision. Defined.

(** The properties every ordinary object inherits from [Object.prototype]
    (ECMAScript 2015, Annex B included).  All of them are functions, except
    [__proto__], which reads as the prototype itself. *)
Definition Object_prototype : list string :=
  ["constructor"; "hasOwnProperty"; "isPrototypeOf"; "propertyIsEnumerable";
   "toLocaleString"; "toString"; "valueOf"; "__proto__";
   "__defineGetter__"; "__defineSetter__"; "__lookupGetter__"; "__lookupSetter__"].

(** What [obj[key]] finds on an ordinary object: an own property, a member
    of [Object.prototype], or nothing ([undefined]). *)
Inductive Property (V : Type) : Type :=
| Own (v : V)
| Inherited
| Undefined.
Arguments Own {V} v.
Arguments Inherited {V}.
Arguments Undefined {V}.

Definition js_get {V} (obj : gmap string V) (key : string) : Property V :=
  match obj !! key with
  | Some v => Own v
  | None => if bool_decide (key ∈ Object_prototype) then Inherited else Undefined
  end.

(** [JSON.stringify] of an inherited member inside a template literal: a
    function gives [undefined], the prototype has no enumerable property of
    its own. *)
Definition inherited_json (key : string) : string :=
  if String.eqb key "__proto__" then "{}" else "undefined".

(** ** Fragment matchers (fragmentMatcher.ts) *)
Module FragmentMatcher.

(** Values held in a store object of the normalized cache. *)
Inductive StoreValue : Type :=
| VUndefined
| VNull
| VBool (b : bool)
| VNumber (n : Z)
| VString (s : string)
| VId (id : string)
| VList (items : list StoreValue).

(** JavaScript truthiness, as used by [! obj.__typename]. *)
Definition truthy (v : StoreValue) : bool :=
  match v with
  | VUndefined | VNull => false
  | VBool b => b
  | VNumber n => negb (n =? 0)%Z
  | VString s => negb (String.eqb s "")
  | VId _ | VList _ => true
  end.

(** [v === s] for a string [s]. *)
Definition strict_eq_string (v : StoreValue) (s : string) : bool :=
  match v with
  | VString s' => String.eqb s' s
  | _ => false
  end.

(** [StoreObject]: storage field name to value. *)
Abbreviation StoreObject := (gmap string StoreValue).

(** [obj.__typename]: no object inherits a property of this name, so a
    store object without it reads as [undefined]. *)
Definition __typename (obj : StoreObject) : StoreValue :=
  default VUndefined (obj !! "__typename").

Record IdValue : Type := { id : string }.

(** The part of [ReadStoreContext] the matchers touch: the normalized
    store, an ordinary object given by its own entries, and the mutable
    [returnPartialData] flag. *)
Record ReadStoreContext : Type := {
  store : gmap string StoreObject;
  returnPartialData : bool;
}.

Definition set_returnPartialData (context : ReadStoreContext) : ReadStoreContext :=
  {| store := store context; returnPartialData := true |}.

(** *** IntrospectionFragmentMatcher *)

(** [possibleTypesMap] is built from [{}]: the map holds its own entries. *)
Abbreviation PossibleTypesMap := (gmap string (list string)).

Record IntrospectionFragmentMatcher : Type := {
  isReady : bool;
  possibleTypesMap : PossibleTypesMap;
}.

(** [implementingTypes.indexOf(v) > -1] on an array of strings. *)
Definition indexOf_found (implementingTypes : list string) (v : StoreValue) : bool :=
  existsb (strict_eq_string v) implementingTypes.

(** The argument is [JSON.stringify(obj)]. *)
Definition missing_typename_error (json : string) : JsError :=
  Error ("Cannot match fragment because __typename property is missing: " ++ json).

Definition not_initialised_error : JsError :=
  Error "FragmentMatcher.match() was called before FragmentMatcher.init()".

(** What calling [implementingTypes.indexOf] raises when
    [implementingTypes] is a member of [Object.prototype], which has no
    such method (the wording is that of V8). *)
Definition not_a_function_error : JsError :=
  TypeError "implementingTypes.indexOf is not a function".

Section Introspection.
(** [JSON.stringify] on store objects. *)
Variable JSON_stringify : StoreObject -> string.

Definition introspection_match (this : IntrospectionFragmentMatcher)
    (idValue : IdValue) (typeCondition : string) (context : ReadStoreContext)
  : Completion JsError bool :=
  if negb (isReady this) then Throw not_initialised_error
  else
    match js_get (store context) (id idValue) with
    | Undefined => Normal false
    | Inherited =>
        (* a member of [Object.prototype] is truthy and has no [__typename] *)
        Throw (missing_typename_error (inherited_json (id idValue)))
    | Own obj =>
        if negb (truthy (__typename obj)) then
          Throw (missing_typename_error (JSON_stringify obj))
        else if strict_eq_string (__typename obj) typeCondition then Normal true
        else
          match js_get (possibleTypesMap this) typeCondition with
          | Own implementingTypes =>
              if indexOf_found implementingTypes (__typename obj)
              then Normal true else Normal false
          | Inherited => Throw not_a_function_error
          | Undefined => Normal false
          end
    end.
End Introspection.

(** *** HeuristicFragmentMatcher *)

(** The module-level [haveWarned] flag and the number of [console.warn]
    calls made so far. *)
Record WarnState : Type := {
  haveWarned : bool;
  warnings : nat;
}.

Section Heuristic.
(** [isTest()] of util/environment. *)
Variable isTest : bool.

Definition warn_once (w : WarnState) : WarnState :=
  if negb (haveWarned w) then
    {| haveWarned := if negb isTest then true else haveWarned w;
       warnings := S (warnings w) |}
  else w.

(** The result, together with the context and the warning state it
    leaves behind. *)
Definition heuristic_match (idValue : IdValue) (typeCondition : string)
    (context : ReadStoreContext) (w : WarnState)
  : bool * ReadStoreContext * WarnState :=
  match js_get (store context) (id idValue) with
  | Undefined => (false, context, w)
  | Inherited =>
      (* a member of [Object.prototype] is truthy and has no [__typename] *)
      (true, set_returnPartialData context, warn_once w)
  | Own obj =>
      if negb (truthy (__typename obj)) then
        (true, set_returnPartialData context, warn_once w)
      else if strict_eq_string (__typename obj) typeCondition then
        (true, context, w)
      else
        (true, set_returnPartialData context, w)
  end.
End Heuristic.

(** Example stores. *)
Definition dog : StoreObject := {[ "__typename" := VString "Dog"; "name" := VString "Rex" ]}.
Definition one_dog : ReadStoreContext :=
  {| store := {[ "Dog:1" := dog ]}; returnPartialData := false |}.
Definition unready : IntrospectionFragmentMatcher :=
  {| isReady := false; possibleTypesMap := ∅ |}.
Definition ready_animals : IntrospectionFragmentMatcher :=
  {| isReady := true; possibleTypesMap := {[ "Animal" := ["Dog"; "Cat"] ]} |}.
Definition quiet : WarnState := {| haveWarned := false; warnings := 0 |}.
(** A stand-in for [JSON.stringify] that lists the property names. *)
Definition keys_json (obj : StoreObject) : string :=
  "{" ++ String.concat "," (map_to_list obj).*1 ++ "}".

(** *** Building the possible-types map *)

(** One entry of [__schema.types] in the result of the introspection
    query. *)
Record IntrospectionType : Type := {
  it_kind : string;
  it_name : string;
  it_possibleTypes : list string;   (* the names of [possibleTypes] *)
}.

Record IntrospectionResultData : Type := {
  schema_types : list IntrospectionType;
}.

(** [type.kind === 'UNION' || type.kind === 'INTERFACE'] *)
Definition is_abstract (type : IntrospectionType) : bool :=
  String.eqb (it_kind type) "UNION" || String.eqb (it_kind type) "INTERFACE".

Definition parseIntrospectionResult (introspectionResultData : IntrospectionResultData)
  : PossibleTypesMap :=
  foldl (fun typeMap type =>
           if is_abstract type then <[it_name type := it_possibleTypes type]> typeMap
           else typeMap)
        ∅ (schema_types introspectionResultData).

(** The constructor: ready at once when it is given the result of the
    introspection query. *)
Definition new_IntrospectionFragmentMatcher
    (introspectionQueryResultData : option IntrospectionResultData)
  : IntrospectionFragmentMatcher :=
  match introspectionQueryResultData with
  | Some data => {| isReady := true; possibleTypesMap := parseIntrospectionResult data |}
  | None => {| isReady := false; possibleTypesMap := ∅ |}
  end.

(** A series of calls of the heuristic matcher on one read context. *)
Definition heuristic_matches (isTest : bool) (calls : list (IdValue * string))
    (context : ReadStoreContext) (w : WarnState) : ReadStoreContext * WarnState :=
  foldl (fun state call =>
           let '(_, context', w') :=
             heuristic_match isTest call.1 call.2 state.1 state.2 in
           (context', w'))
        (context, w) calls.

Definition animal_schema : IntrospectionResultData :=
  {| schema_types :=
       [ {| it_kind := "OBJECT"; it_name := "Dog"; it_possibleTypes := [] |};
         {| it_kind := "INTERFACE"; it_name := "Animal"; it_possibleTypes := ["Dog"; "Cat"] |} ] |}.

End FragmentMatcher.

(** ** Query manager (QueryManager.ts) *)
Module QueryManager.

(** *** External collaborators *)

(** The query-language AST, the raw results and the normalized cache are
    only handled through imported helpers; their types are the carrier of
    an interface.  Values that end up in the Redux state are compared by
    lodash's [isEqual], hence the decidable equalities. *)
Class GraphQL : Type := {
  Document : Type;
  OperationDefinition : Type;
  SelectionSet : Type;
  Variables : Type;
  FragmentMap : Type;
  QueryTransformer : Type;
  ResultData : Type;
  GraphQLError : Type;
  NormalizedCache : Type;
  SelectionSet_eq_dec :: EqDecision SelectionSet;
  Variables_eq_dec :: EqDecision Variables;
  FragmentMap_eq_dec :: EqDecision FragmentMap;
  GraphQLError_eq_dec :: EqDecision GraphQLError;
  NormalizedCache_eq_dec :: EqDecision NormalizedCache;
}.

Abbreviation QueryId := string.
Abbreviation PromiseHandle := nat.
Abbreviation TimerHandle := nat.

Section Types.
Context {G : GraphQL}.

(** [SelectionSetWithRoot] of queries/store.ts. *)
Record SelectionSetWithRoot : Type := {
  id : string;
  typeName : string;
  selectionSet : SelectionSet;
}.

#[global] Instance SelectionSetWithRoot_eq_dec : EqDecision SelectionSetWithRoot.
Proof. solve_decision. Defined.

Record WatchQueryOptions : Type := {
  opt_query : Document;
  opt_variables : option Variables;
  opt_forceFetch : bool;          (* absent reads as false *)
  opt_returnPartialData : bool;   (* absent reads as false *)
  opt_pollInterval : option N;
}.

(** [GraphQLResult]: [{ data?, errors? }]. *)
Record GraphQLResult : Type := {
  data : option ResultData;
  errors : option (list GraphQLError);
}.

(** What [diffSelectionSetAgainstStore] returns. *)
Record DiffResult : Type := {
  missingSelectionSets : option (list SelectionSetWithRoot);
  result : ResultData;
}.

(** [Request] of the network interface and [QueryFetchRequest] of the
    batcher. *)
Record QueryFetchRequest : Type := {
  fr_query : Document;
  fr_variables : option Variables;
  fr_queryId : QueryId;
  fr_operationName : option string;
}.

(** The actions the query manager dispatches to the Redux store. *)
Inductive Action : Type :=
| APOLLO_QUERY_INIT
    (queryString : string) (query : SelectionSetWithRoot)
    (minimizedQueryString : option string)
    (minimizedQuery : option SelectionSetWithRoot)
    (variables : option Variables) (forceFetch returnPartialData : bool)
    (queryId : QueryId) (requestId : N) (fragmentMap : FragmentMap)
| APOLLO_QUERY_RESULT_CLIENT
    (result : GraphQLResult) (variables : option Variables)
    (query : SelectionSetWithRoot) (complete : bool) (queryId : QueryId)
| APOLLO_QUERY_RESULT (result : GraphQLResult) (queryId : QueryId) (requestId : N)
| APOLLO_QUERY_ERROR (error : JsError) (queryId : QueryId) (requestId : N)
| APOLLO_QUERY_STOP (queryId : QueryId)
| APOLLO_STORE_RESET
| APOLLO_MUTATION_INIT
    (mutationString : string) (mutation : SelectionSetWithRoot)
    (variables : option Variables) (mutationId : QueryId) (fragmentMap : FragmentMap)
| APOLLO_MUTATION_RESULT (result : GraphQLResult) (mutationId : QueryId).

(** The bookkeeping record of one query in the Redux state
    ([QueryStoreValue]); the query manager reads [loading],
    [returnPartialData], the two error fields, [query], [variables] and
    [fragmentMap]. *)
Record QueryStoreValue : Type := {
  qsv_query : SelectionSetWithRoot;
  qsv_minimizedQuery : option SelectionSetWithRoot;
  qsv_variables : option Variables;
  qsv_loading : bool;
  qsv_networkError : option JsError;
  qsv_graphQLErrors : option (list GraphQLError);
  qsv_returnPartialData : bool;
  qsv_lastRequestId : N;
  qsv_fragmentMap : FragmentMap;
}.

#[global] Instance QueryStoreValue_eq_dec : EqDecision QueryStoreValue.
Proof. solve_decision. Defined.

(** The bookkeeping record of one mutation in the Redux state. *)
Record MutationStoreValue : Type := {
  msv_mutationString : string;
  msv_mutation : SelectionSetWithRoot;
  msv_variables : option Variables;
  msv_fragmentMap : FragmentMap;
  msv_loading : bool;
}.

#[global] Instance MutationStoreValue_eq_dec : EqDecision MutationStoreValue.
Proof. solve_decision. Defined.

(** The slice of the Redux state owned by the client
    ([store.getState()[reduxRootKey]]). *)
Record ApolloState : Type := {
  queries : gmap QueryId QueryStoreValue;
  mutations : gmap QueryId MutationStoreValue;
  cache : NormalizedCache;   (* the [data] key *)
}.

#[global] Instance ApolloState_eq_dec : EqDecision ApolloState.
Proof. solve_decision. Defined.

(** A promise is pending or settled; settling twice has no effect. *)
Inductive PromiseState : Type :=
| Pending
| Resolved (value : GraphQLResult)
| Rejected (reason : JsError).

(** The observers the listeners of this file forward to: an observer
    passed to [subscribe] by the caller (its callbacks are optional, a
    call is recorded in the trace), or the observer that
    [ObservableQuery.result] builds around its promise. *)
Inductive Observer : Type :=
| Subscriber (has_next has_error : bool)
| ResultPromise (p : PromiseHandle).

(** The listener closure built by [watchQuery]: it captures the options
    and the observer. *)
Record QueryListener : Type := {
  l_returnPartialData : bool;
  l_observer : Observer;
}.

(** The closure environment of the [then]/[catch] chain attached to
    [batcher.enqueueRequest(fetchRequest)]. *)
Record InFlight : Type := {
  if_request : QueryFetchRequest;
  if_requestId : N;
  if_querySS : SelectionSetWithRoot;
  if_variables : option Variables;
  if_returnPartialData : bool;
  if_fragmentMap : FragmentMap;
  if_promise : PromiseHandle;
}.

(** [Request] of the network interface. *)
Record Request : Type := {
  rq_query : Document;
  rq_variables : option Variables;
  rq_operationName : option string;
}.

(** The closure environment of the [then] attached to
    [networkInterface.query(request)] by [mutate]; [mf_promise] is the
    promise that [then] returns. *)
Record MutationInFlight : Type := {
  mf_request : Request;
  mf_mutationId : QueryId;
  mf_promise : PromiseHandle;
}.

(** A [setInterval] armed by [startQuery]. *)
Record Interval : Type := {
  iv_queryId : QueryId;
  iv_options : WatchQueryOptions;
}.

(** Everything observable from outside, in order of occurrence. *)
Inductive Event : Type :=
| Dispatch (a : Action)
| Enqueue (r : QueryFetchRequest)
| NetworkQuery (r : Request)
| Resolve (p : PromiseHandle) (value : GraphQLResult)
| Reject (p : PromiseHandle) (reason : JsError)
| ObserverNext (queryId : QueryId) (value : GraphQLResult)
| ObserverError (queryId : QueryId) (e : JsError)
| ConsoleError (e : JsError)
| ConsoleLog (key : string)
| ClearInterval (t : TimerHandle).

(** The query manager: the fields of [this], the Redux store it owns a
    handle to, and the pieces of the environment its callbacks live in
    (promises, timers, the batcher queue). *)
Record QueryManager : Type := {
  queryTransformer : option QueryTransformer;
  pollingTimers : gmap QueryId TimerHandle;
  queryListeners : gmap QueryId QueryListener;
  idCounter : N;
  fetchQueryPromises : gmap QueryId PromiseHandle;
  (* the Redux store, and [currentStoreData] of the subscriber installed
     by the constructor *)
  storeState : ApolloState;
  currentStoreData : option ApolloState;
  (* environment *)
  promises : list PromiseState;
  intervals : gmap TimerHandle Interval;
  nextTimer : TimerHandle;
  timeouts : list QueryId;     (* pending [setTimeout(unsubscribe, 0)] *)
  inflight : list InFlight;    (* requests handed to the batcher *)
  mutationsInFlight : list MutationInFlight;  (* sent to the network interface *)
  trace : list Event;
}.
End Types.

(** The helpers imported by QueryManager.ts. *)
Class Helpers {G : GraphQL} : Type := {
  getQueryDefinition : Document -> Completion JsError OperationDefinition;
  getMutationDefinition : Document -> Completion JsError OperationDefinition;
  op_selectionSet : OperationDefinition -> SelectionSet;
  applyTransformerToOperation : OperationDefinition -> QueryTransformer -> OperationDefinition;
  replaceOperationDefinition : Document -> OperationDefinition -> Document;
  print : Document -> string;
  (** [createFragmentMap(getFragmentDefinitions(doc))] *)
  createFragmentMap : Document -> FragmentMap;
  getOperationName : Document -> option string;
  (** [queryDocument({missingSelectionSets, variableDefinitions, name,
      fragmentMap})]; the variable definitions and the name are those of
      the operation definition passed. *)
  queryDocument : list SelectionSetWithRoot -> OperationDefinition -> FragmentMap -> Document;
  (** with [throwOnMissingField: false] *)
  diffSelectionSetAgainstStore :
    SelectionSet -> NormalizedCache -> string -> option Variables -> FragmentMap -> DiffResult;
  readSelectionSetFromStore :
    NormalizedCache -> string -> SelectionSet -> option Variables -> bool -> FragmentMap ->
    Completion JsError ResultData;
}.

(** The Redux store: [dispatch] runs this reducer on the client's slice of
    the state. *)
Class Store {G : GraphQL} : Type := {
  reducer : ApolloState -> Action -> ApolloState;
}.

(** *** The state-and-exception monad of the methods *)

Section Methods.
Context {G : GraphQL} {H : Helpers} {R : Store}.

(** A method runs on the manager and returns normally or throws; the
    manager reached is kept in both cases, since a [throw] does not undo
    the mutations made before it. *)
Definition M (A : Type) : Type :=
  QueryManager -> Completion (JsError * QueryManager) (A * QueryManager).

Definition ret {A} (a : A) : M A := fun qm => Normal (a, qm).
Definition throw {A} (e : JsError) : M A := fun qm => Throw (e, qm).
Definition bind {A B} (m : M A) (k : A -> M B) : M B :=
  fun qm => match m qm with
            | Normal (a, qm') => k a qm'
            | Throw e => Throw e
            end.
Definition get : M QueryManager := fun qm => Normal (qm, qm).
Definition modify (f : QueryManager -> QueryManager) : M unit :=
  fun qm => Normal (tt, f qm).
(** A helper that may throw, called from a method. *)
Definition call {A} (c : Completion JsError A) : M A :=
  fun qm => match c with
            | Normal a => Normal (a, qm)
            | Throw e => Throw (e, qm)
            end.
(** [try { m } catch (e) { handler(e) }] *)
Definition try_catch {A} (m : M A) (handler : JsError -> M A) : M A :=
  fun qm => match m qm with
            | Normal r => Normal r
            | Throw (e, qm') => handler e qm'
            end.

Notation "'let*' x ':=' m 'in' k" := (bind m (fun x => k))
  (at level 10, x name, m at level 100, k at level 200).
Notation "'let*' ' p ':=' m 'in' k" := (bind m (fun p => k))
  (at level 10, p strict pattern, m at level 100, k at level 200).
Notation "m ';;;' k" := (bind m (fun _ => k))
  (at level 100, k at level 200, right associativity).

(** [xs.forEach(f)] *)
Fixpoint forEach {A} (f : A -> M unit) (xs : list A) : M unit :=
  match xs with
  | [] => ret tt
  | x :: xs' => f x ;;; forEach f xs'
  end.

(** *** Field updates *)

Definition set_pollingTimers (f : gmap QueryId TimerHandle -> gmap QueryId TimerHandle)
    (qm : QueryManager) : QueryManager :=
  {| queryTransformer := queryTransformer qm; pollingTimers := f (pollingTimers qm);
     queryListeners := queryListeners qm; idCounter := idCounter qm;
     fetchQueryPromises := fetchQueryPromises qm; storeState := storeState qm;
     currentStoreData := currentStoreData qm; promises := promises qm;
     intervals := intervals qm; nextTimer := nextTimer qm; timeouts := timeouts qm;
     inflight := inflight qm;
     mutationsInFlight := mutationsInFlight qm; trace := trace qm |}.

Definition set_queryListeners (f : gmap QueryId QueryListener -> gmap QueryId QueryListener)
    (qm : QueryManager) : QueryManager :=
  {| queryTransformer := queryTransformer qm; pollingTimers := pollingTimers qm;
     queryListeners := f (queryListeners qm); idCounter := idCounter qm;
     fetchQueryPromises := fetchQueryPromises qm; storeState := storeState qm;
     currentStoreData := currentStoreData qm; promises := promises qm;
     intervals := intervals qm; nextTimer := nextTimer qm; timeouts := timeouts qm;
     inflight := inflight qm;
     mutationsInFlight := mutationsInFlight qm; trace := trace qm |}.

Definition set_idCounter (n : N) (qm : QueryManager) : QueryManager :=
  {| queryTransformer := queryTransformer qm; pollingTimers := pollingTimers qm;
     queryListeners := queryListeners qm; idCounter := n;
     fetchQueryPromises := fetchQueryPromises qm; storeState := storeState qm;
     currentStoreData := currentStoreData qm; promises := promises qm;
     intervals := intervals qm; nextTimer := nextTimer qm; timeouts := timeouts qm;
     inflight := inflight qm;
     mutationsInFlight := mutationsInFlight qm; trace := trace qm |}.

Definition set_fetchQueryPromises
    (f : gmap QueryId PromiseHandle -> gmap QueryId PromiseHandle)
    (qm : QueryManager) : QueryManager :=
  {| queryTransformer := queryTransformer qm; pollingTimers := pollingTimers qm;
     queryListeners := queryListeners qm; idCounter := idCounter qm;
     fetchQueryPromises := f (fetchQueryPromises qm); storeState := storeState qm;
     currentStoreData := currentStoreData qm; promises := promises qm;
     intervals := intervals qm; nextTimer := nextTimer qm; timeouts := timeouts qm;
     inflight := inflight qm;
     mutationsInFlight := mutationsInFlight qm; trace := trace qm |}.

Definition set_store (st : ApolloState) (seen : option ApolloState)
    (qm : QueryManager) : QueryManager :=
  {| queryTransformer := queryTransformer qm; pollingTimers := pollingTimers qm;
     queryListeners := queryListeners qm; idCounter := idCounter qm;
     fetchQueryPromises := fetchQueryPromises qm; storeState := st;
     currentStoreData := seen; promises := promises qm;
     intervals := intervals qm; nextTimer := nextTimer qm; timeouts := timeouts qm;
     inflight := inflight qm;
     mutationsInFlight := mutationsInFlight qm; trace := trace qm |}.

Definition set_promises (f : list PromiseState -> list PromiseState)
    (qm : QueryManager) : QueryManager :=
  {| queryTransformer := queryTransformer qm; pollingTimers := pollingTimers qm;
     queryListeners := queryListeners qm; idCounter := idCounter qm;
     fetchQueryPromises := fetchQueryPromises qm; storeState := storeState qm;
     currentStoreData := currentStoreData qm; promises := f (promises qm);
     intervals := intervals qm; nextTimer := nextTimer qm; timeouts := timeouts qm;
     inflight := inflight qm;
     mutationsInFlight := mutationsInFlight qm; trace := trace qm |}.

Definition set_intervals (f : gmap TimerHandle Interval -> gmap TimerHandle Interval)
    (next : TimerHandle) (qm : QueryManager) : QueryManager :=
  {| queryTransformer := queryTransformer qm; pollingTimers := pollingTimers qm;
     queryListeners := queryListeners qm; idCounter := idCounter qm;
     fetchQueryPromises := fetchQueryPromises qm; storeState := storeState qm;
     currentStoreData := currentStoreData qm; promises := promises qm;
     intervals := f (intervals qm); nextTimer := next; timeouts := timeouts qm;
     inflight := inflight qm;
     mutationsInFlight := mutationsInFlight qm; trace := trace qm |}.

Definition set_timeouts (f : list QueryId -> list QueryId)
    (qm : QueryManager) : QueryManager :=
  {| queryTransformer := queryTransformer qm; pollingTimers := pollingTimers qm;
     queryListeners := queryListeners qm; idCounter := idCounter qm;
     fetchQueryPromises := fetchQueryPromises qm; storeState := storeState qm;
     currentStoreData := currentStoreData qm; promises := promises qm;
     intervals := intervals qm; nextTimer := nextTimer qm; timeouts := f (timeouts qm);
     inflight := inflight qm;
     mutationsInFlight := mutationsInFlight qm; trace := trace qm |}.

Definition set_inflight (f : list InFlight -> list InFlight)
    (qm : QueryManager) : QueryManager :=
  {| queryTransformer := queryTransformer qm; pollingTimers := pollingTimers qm;
     queryListeners := queryListeners qm; idCounter := idCounter qm;
     fetchQueryPromises := fetchQueryPromises qm; storeState := storeState qm;
     currentStoreData := currentStoreData qm; promises := promises qm;
     intervals := intervals qm; nextTimer := nextTimer qm; timeouts := timeouts qm;
     inflight := f (inflight qm);
     mutationsInFlight := mutationsInFlight qm; trace := trace qm |}.

Definition set_mutationsInFlight
    (f : list MutationInFlight -> list MutationInFlight)
    (qm : QueryManager) : QueryManager :=
  {| queryTransformer := queryTransformer qm; pollingTimers := pollingTimers qm;
     queryListeners := queryListeners qm; idCounter := idCounter qm;
     fetchQueryPromises := fetchQueryPromises qm; storeState := storeState qm;
     currentStoreData := currentStoreData qm; promises := promises qm;
     intervals := intervals qm; nextTimer := nextTimer qm; timeouts := timeouts qm;
     inflight := inflight qm; mutationsInFlight := f (mutationsInFlight qm);
     trace := trace qm |}.

Definition log (e : Event) (qm : QueryManager) : QueryManager :=
  {| queryTransformer := queryTransformer qm; pollingTimers := pollingTimers qm;
     queryListeners := queryListeners qm; idCounter := idCounter qm;
     fetchQueryPromises := fetchQueryPromises qm; storeState := storeState qm;
     currentStoreData := currentStoreData qm; promises := promises qm;
     intervals := intervals qm; nextTimer := nextTimer qm; timeouts := timeouts qm;
     inflight := inflight qm;
     mutationsInFlight := mutationsInFlight qm; trace := trace qm ++ [e] |}.

(** *** Promises *)

(** [new Promise(...)], not yet settled. *)
Definition newPromise : M PromiseHandle :=
  let* qm := get in
  modify (set_promises (fun ps => ps ++ [Pending])) ;;;
  ret (length (promises qm)).

Definition settle (p : PromiseHandle) (s : PromiseState) (ps : list PromiseState)
  : list PromiseState :=
  match ps !! p with
  | Some Pending => <[p := s]> ps
  | _ => ps
  end.

Definition resolve (p : PromiseHandle) (value : GraphQLResult) : M unit :=
  modify (fun qm => log (Resolve p value) (set_promises (settle p (Resolved value)) qm)).

Definition reject (p : PromiseHandle) (reason : JsError) : M unit :=
  modify (fun qm => log (Reject p reason) (set_promises (settle p (Rejected reason)) qm)).

(** *** Listeners and the Redux store *)

Definition observer_next (queryId : QueryId) (l : QueryListener)
    (value : GraphQLResult) : M unit :=
  match l_observer l with
  | Subscriber has_next _ =>
      if has_next then modify (log (ObserverNext queryId value)) else ret tt
  | ResultPromise p =>
      (* next(result) { resolve(result); setTimeout(unsubscribe, 0) } *)
      resolve p value ;;;
      modify (set_timeouts (fun ts => ts ++ [queryId]))
  end.

Definition observer_error (queryId : QueryId) (l : QueryListener)
    (e : JsError) : M unit :=
  match l_observer l with
  | Subscriber _ has_error =>
      if has_error then modify (log (ObserverError queryId e))
      else modify (log (ConsoleError e))
  | ResultPromise p => reject p e
  end.

(** The listener installed by [watchQuery], applied to
    [queries[queryId]]; reading a property of [undefined] throws. *)
Definition listener_call (queryId : QueryId) (l : QueryListener)
    (queryStoreValue : option QueryStoreValue) : M unit :=
  match queryStoreValue with
  | None => throw (TypeError "Cannot read property 'loading' of undefined")
  | Some v =>
      if negb (qsv_loading v) || qsv_returnPartialData v then
        match qsv_graphQLErrors v with
        | Some errs => observer_next queryId l {| data := None; errors := Some errs |}
        | None =>
            match qsv_networkError v with
            | Some e => observer_error queryId l e
            | None =>
                let* qm := get in
                let* resultFromStore :=
                  call (readSelectionSetFromStore
                          (cache (storeState qm)) (id (qsv_query v))
                          (selectionSet (qsv_query v)) (qsv_variables v)
                          (l_returnPartialData l) (qsv_fragmentMap v)) in
                observer_next queryId l {| data := Some resultFromStore; errors := None |}
            end
        end
      else ret tt
  end.

Definition broadcastQueries : M unit :=
  let* qm := get in
  forEach (fun '(queryId, listener) =>
             let* qm' := get in
             listener_call queryId listener (queries (storeState qm') !! queryId))
          (map_to_list (queryListeners qm)).

(** [store.dispatch(action)] on a Redux store: the reducer runs, then the
    subscriber installed by the constructor, which broadcasts unless the
    state it saw last is deep-equal to the new one. *)
Definition dispatch (a : Action) : M unit :=
  let* qm := get in
  let previousStoreData := currentStoreData qm in
  let st := reducer (storeState qm) a in
  modify (fun qm => set_store st (Some st) (log (Dispatch a) qm)) ;;;
  match previousStoreData with
  | Some previous => if bool_decide (previous = st) then ret tt else broadcastQueries
  | None => broadcastQueries
  end.

(** *** Ids *)

(** [n++] on a JavaScript number that holds a natural number: exact
    below 2^53, where the counter stops (2^53 + 1 is not a double and
    rounds back to 2^53).  A counter that starts at 0 never gets
    further. *)
Definition js_increment (n : N) : N :=
  if (n <? 2 ^ 53)%N then (n + 1)%N else n.

Definition generateQueryId : M QueryId :=
  let* qm := get in
  let queryId := pretty (idCounter qm) in
  modify (set_idCounter (js_increment (idCounter qm))) ;;;
  ret queryId.

Definition generateRequestId : M N :=
  let* qm := get in
  let requestId := idCounter qm in
  modify (set_idCounter (js_increment (idCounter qm))) ;;;
  ret requestId.

(** *** The fetch-promise table *)

Definition addFetchQueryPromise (p : PromiseHandle) (queryId : QueryId) : M unit :=
  modify (set_fetchQueryPromises (fun t => <[queryId := p]> t)).

Definition removeFetchQueryPromise (queryId : QueryId) : M unit :=
  modify (set_fetchQueryPromises (fun t => delete queryId t)).

(** *** fetchQuery *)

Definition root_query (ss : SelectionSet) : SelectionSetWithRoot :=
  {| id := "ROOT_QUERY"; typeName := "Query"; selectionSet := ss |}.

(** [minimizedQueryString], [minimizedQuery] and [minimizedQueryDoc] are
    assigned together: all three are set, or all three are [null]. *)
Record Minimized : Type := {
  minimizedQueryString : string;
  minimizedQuery : SelectionSetWithRoot;
  minimizedQueryDoc : Document;
}.

(** [batcher.enqueueRequest(fetchRequest)]: the request is handed to the
    batcher together with the continuation waiting for its outcome. *)
Definition enqueueRequest (f : InFlight) : M unit :=
  modify (fun qm => log (Enqueue (if_request f)) (set_inflight (fun q => q ++ [f]) qm)).

Definition fetchQueryOverInterface (queryId : QueryId) (options : WatchQueryOptions)
  : M PromiseHandle :=
  let query := opt_query options in
  let variables := opt_variables options in
  let forceFetch := opt_forceFetch options in
  let returnPartialData := opt_returnPartialData options in
  let* queryDef0 := call (getQueryDefinition query) in
  let* this := get in
  let queryDef :=
    match queryTransformer this with
    | Some transformer => applyTransformerToOperation queryDef0 transformer
    | None => queryDef0
    end in
  let transformedQuery := replaceOperationDefinition query queryDef in
  let queryString := print transformedQuery in
  let queryFragmentMap := createFragmentMap transformedQuery in
  let querySS := root_query (op_selectionSet queryDef) in
  let* '(minimized, initialResult) :=
    if negb forceFetch then
      let diff := diffSelectionSetAgainstStore (selectionSet querySS)
                    (cache (storeState this)) (id querySS) variables queryFragmentMap in
      match missingSelectionSets diff with
      | Some (m :: ms) =>
          let diffedQuery := queryDocument (m :: ms) queryDef queryFragmentMap in
          let* diffedQueryDef := call (getQueryDefinition diffedQuery) in
          ret (Some {| minimizedQueryString := print diffedQuery;
                       minimizedQuery := root_query (op_selectionSet diffedQueryDef);
                       minimizedQueryDoc := diffedQuery |},
               Some (result diff))
      | _ => ret (None, Some (result diff))
      end
    else
      ret (Some {| minimizedQueryString := queryString;
                   minimizedQuery := querySS;
                   minimizedQueryDoc := transformedQuery |},
           None) in
  let* requestId := generateRequestId in
  dispatch (APOLLO_QUERY_INIT queryString querySS
              (minimizedQueryString <$> minimized) (minimizedQuery <$> minimized)
              variables forceFetch returnPartialData queryId requestId
              queryFragmentMap) ;;;
  (if negb (bool_decide (is_Some minimized)) || returnPartialData then
     dispatch (APOLLO_QUERY_RESULT_CLIENT
                 {| data := initialResult; errors := None |}
                 variables querySS (bool_decide (is_Some minimized)) queryId)
   else ret tt) ;;;
  match minimized with
  | Some m =>
      let fetchRequest :=
        {| fr_query := minimizedQueryDoc m; fr_variables := variables;
           fr_queryId := queryId;
           fr_operationName := getOperationName (minimizedQueryDoc m) |} in
      let* retPromise := newPromise in
      addFetchQueryPromise retPromise queryId ;;;
      enqueueRequest {| if_request := fetchRequest; if_requestId := requestId;
                        if_querySS := querySS; if_variables := variables;
                        if_returnPartialData := returnPartialData;
                        if_fragmentMap := queryFragmentMap;
                        if_promise := retPromise |} ;;;
      ret retPromise
  | None =>
      (* return a chainable promise *)
      let* p := newPromise in
      resolve p {| data := initialResult; errors := None |} ;;;
      ret p
  end.

Definition fetchQuery (queryId : QueryId) (options : WatchQueryOptions)
  : M PromiseHandle :=
  fetchQueryOverInterface queryId options.

(** *** The continuation of a network request *)

(** [.catch((error) => { dispatch(APOLLO_QUERY_ERROR); removeFetchQueryPromise;
    return error; })]: the value returned only settles the promise of the
    chain, which nobody holds; [reject] is not called. *)
Definition on_error (f : InFlight) (error : JsError) : M unit :=
  dispatch (APOLLO_QUERY_ERROR error (fr_queryId (if_request f)) (if_requestId f)) ;;;
  removeFetchQueryPromise (fr_queryId (if_request f)).

(** The two [.then] callbacks, run when the batcher's promise resolves
    with [result]; an exception in them is passed to the [.catch]. *)
Definition on_result (f : InFlight) (result : GraphQLResult) : M unit :=
  let queryId := fr_queryId (if_request f) in
  try_catch
    (dispatch (APOLLO_QUERY_RESULT result queryId (if_requestId f)) ;;;
     removeFetchQueryPromise queryId ;;;
     let* this := get in
     (* try { resultFromStore = readSelectionSetFromStore(...) } catch (e) {} *)
     let resultFromStore :=
       match readSelectionSetFromStore
               (cache (storeState this)) (id (if_querySS f))
               (selectionSet (if_querySS f)) (if_variables f)
               (if_returnPartialData f) (if_fragmentMap f) with
       | Normal r => Some r
       | Throw _ => None
       end in
     removeFetchQueryPromise queryId ;;;
     resolve (if_promise f) {| data := resultFromStore; errors := None |})
    (on_error f).

(** The batcher settles the [i]-th request it holds: with a response, or
    with a network error. *)
Definition batcher_settles (i : nat) (outcome : Completion JsError GraphQLResult)
  : M unit :=
  let* this := get in
  match inflight this !! i with
  | None => ret tt
  | Some f =>
      modify (set_inflight (fun q => take i q ++ drop (S i) q)) ;;;
      match outcome with
      | Normal result => on_result f result
      | Throw error => on_error f error
      end
  end.

(** *** startQuery, stopQuery, resetStore *)

Definition clearInterval (t : TimerHandle) : M unit :=
  modify (fun qm => log (ClearInterval t)
                      (set_intervals (fun ts => delete t ts) (nextTimer qm) qm)).

Definition setInterval (iv : Interval) : M TimerHandle :=
  let* qm := get in
  let t := nextTimer qm in
  modify (set_intervals (fun ts => <[t := iv]> ts) (S t)) ;;;
  ret t.

Definition stopQuery (queryId : QueryId) : M unit :=
  modify (set_queryListeners (fun ls => delete queryId ls)) ;;;
  let* this := get in
  match pollingTimers this !! queryId with
  | Some t => clearInterval t
  | None => ret tt
  end ;;;
  dispatch (APOLLO_QUERY_STOP queryId).

(** [if (options.pollInterval)] *)
Definition truthy_interval (pollInterval : option N) : bool :=
  match pollInterval with
  | Some n => negb (n =? 0)%N
  | None => false
  end.

Definition startQuery (options : WatchQueryOptions) (listener : QueryListener)
  : M QueryId :=
  let* queryId := generateQueryId in
  modify (set_queryListeners (fun ls => <[queryId := listener]> ls)) ;;;
  let* _ := fetchQuery queryId options in
  (if truthy_interval (opt_pollInterval options) then
     let* t := setInterval {| iv_queryId := queryId; iv_options := options |} in
     modify (set_pollingTimers (fun ts => <[queryId := t]> ts))
   else ret tt) ;;;
  ret queryId.

Definition with_forceFetch (options : WatchQueryOptions) : WatchQueryOptions :=
  {| opt_query := opt_query options; opt_variables := opt_variables options;
     opt_forceFetch := true; opt_returnPartialData := opt_returnPartialData options;
     opt_pollInterval := opt_pollInterval options |}.

(** The callback of a polling timer. *)
Definition interval_fires (t : TimerHandle) : M unit :=
  let* this := get in
  match intervals this !! t with
  | Some iv =>
      let* _ := fetchQuery (iv_queryId iv) (with_forceFetch (iv_options iv)) in ret tt
  | None => ret tt
  end.

Definition store_reset_error : JsError :=
  Error "Store reset while query was in flight.".

Definition resetStore : M unit :=
  let* this := get in
  forEach (fun '(key, p) =>
             modify (log (ConsoleLog key)) ;;;
             reject p store_reset_error)
          (map_to_list (fetchQueryPromises this)) ;;;
  (* We also stop every query that is currently being listened to. *)
  let* this := get in
  forEach stopQuery (map_to_list (queryListeners this)).*1 ;;;
  dispatch APOLLO_STORE_RESET.

(** *** watchQuery and query *)

Record ObservableQuery : Type := { oq_options : WatchQueryOptions }.

Definition watchQuery (options : WatchQueryOptions) : M ObservableQuery :=
  (* Call just to get errors synchronously *)
  let* _ := call (getQueryDefinition (opt_query options)) in
  ret {| oq_options := options |}.

(** [observable.subscribe(observer)] runs the subscriber function given to
    the [ObservableQuery] constructor; the subscription is identified by
    its query id. *)
Definition subscribe (oq : ObservableQuery) (observer : Observer) : M QueryId :=
  startQuery (oq_options oq)
    {| l_returnPartialData := opt_returnPartialData (oq_options oq);
       l_observer := observer |}.

Definition unsubscribe (queryId : QueryId) : M unit := stopQuery queryId.

(** [ObservableQuery.result()]; an exception thrown by the executor of a
    promise rejects it. *)
Definition result_of (oq : ObservableQuery) : M PromiseHandle :=
  let* p := newPromise in
  try_catch (let* _ := subscribe oq (ResultPromise p) in ret tt)
            (fun e => reject p e) ;;;
  ret p.

Definition query (options : WatchQueryOptions) : M PromiseHandle :=
  if opt_returnPartialData options then
    throw (Error "returnPartialData option only supported on watchQuery.")
  else
    let* oq := watchQuery options in
    result_of oq.

(** A pending [setTimeout(() => subscription.unsubscribe(), 0)] fires. *)
Definition timeout_fires : M unit :=
  let* this := get in
  match timeouts this with
  | [] => ret tt
  | queryId :: rest => modify (set_timeouts (fun _ => rest)) ;;; unsubscribe queryId
  end.

(** The manager built by the constructor around a store in state [st]. *)
Definition new_QueryManager (st : ApolloState) (transformer : option QueryTransformer)
  : QueryManager :=
  {| queryTransformer := transformer; pollingTimers := ∅; queryListeners := ∅;
     idCounter := 0; fetchQueryPromises := ∅; storeState := st;
     currentStoreData := None; promises := []; intervals := ∅; nextTimer := 1;
     timeouts := []; inflight := []; mutationsInFlight := []; trace := [] |}.

(** The manager a method leaves behind, however it completes. *)
Definition final {A} (c : Completion (JsError * QueryManager) (A * QueryManager))
  : QueryManager :=
  match c with
  | Normal (_, qm) => qm
  | Throw (_, qm) => qm
  end.

(** What has been observed between two states of a manager. *)
Definition events_since (qm qm' : QueryManager) : list Event :=
  drop (length (trace qm)) (trace qm').

(** The network requests issued so far. *)
Definition requests (qm : QueryManager) : list QueryFetchRequest :=
  omap (fun e => match e with Enqueue r => Some r | _ => None end) (trace qm).

(** The operation definition [fetchQuery] works with, and the diff of
    its selection set against the data of the store. *)
Definition transformed (qm : QueryManager) (queryDef0 : OperationDefinition)
  : OperationDefinition :=
  match queryTransformer qm with
  | Some transformer => applyTransformerToOperation queryDef0 transformer
  | None => queryDef0
  end.

Definition store_diff (qm : QueryManager) (options : WatchQueryOptions)
    (queryDef0 : OperationDefinition) : DiffResult :=
  let queryDef := transformed qm queryDef0 in
  diffSelectionSetAgainstStore (op_selectionSet queryDef) (cache (storeState qm))
    "ROOT_QUERY" (opt_variables options)
    (createFragmentMap (replaceOperationDefinition (opt_query options) queryDef)).

(** [!(missingSelectionSets && missingSelectionSets.length)] *)
Definition nothing_missing (d : DiffResult) : Prop :=
  missingSelectionSets d = None \/ missingSelectionSets d = Some [].

(** *** The subscription

    What the subscriber function of [watchQuery] hands back, apart
    from [refetch]: the query id of the subscription, the options, and
    the polling timer registered for the query at the time of the
    subscription ([const pollingTimer = this.pollingTimers[queryId]]). *)
Record QuerySubscription : Type := {
  sub_queryId : QueryId;
  sub_options : WatchQueryOptions;
  sub_pollingTimer : option TimerHandle;
}.

Definition subscription (oq : ObservableQuery) (observer : Observer)
  : M QuerySubscription :=
  let* queryId := subscribe oq observer in
  let* this := get in
  ret {| sub_queryId := queryId; sub_options := oq_options oq;
         sub_pollingTimer := pollingTimers this !! queryId |}.

Definition stopPolling (s : QuerySubscription) : M unit :=
  match sub_pollingTimer s with
  | Some pollingTimer => clearInterval pollingTimer
  | None => ret tt
  end.

(** The period only matters to the clock, which is not modelled. *)
Definition startPolling (s : QuerySubscription) (pollInterval : N) : M unit :=
  let* t := setInterval {| iv_queryId := sub_queryId s; iv_options := sub_options s |} in
  modify (set_pollingTimers (fun ts => <[sub_queryId s := t]> ts)).

(** *** mutate *)

Definition root_mutation (ss : SelectionSet) : SelectionSetWithRoot :=
  {| id := "ROOT_MUTATION"; typeName := "Mutation"; selectionSet := ss |}.

(** The promise returned is the one [then] builds on the promise of the
    network interface. *)
Definition mutate (mutation : Document) (variables : option Variables)
  : M PromiseHandle :=
  let* mutationId := generateQueryId in
  let* mutationDef0 := call (getMutationDefinition mutation) in
  let* this := get in
  let '(mutationDef, mutation) :=
    match queryTransformer this with
    | Some transformer =>
        let mutationDef := applyTransformerToOperation mutationDef0 transformer in
        (mutationDef, replaceOperationDefinition mutation mutationDef)
    | None => (mutationDef0, mutation)
    end in
  let mutation := replaceOperationDefinition mutation mutationDef in
  let mutationString := print mutation in
  let queryFragmentMap := createFragmentMap mutation in
  let request := {| rq_query := mutation; rq_variables := variables;
                    rq_operationName := getOperationName mutation |} in
  dispatch (APOLLO_MUTATION_INIT mutationString
              (root_mutation (op_selectionSet mutationDef))
              variables mutationId queryFragmentMap) ;;;
  let* p := newPromise in
  modify (fun qm =>
            log (NetworkQuery request)
              (set_mutationsInFlight
                 (fun q => q ++ [ {| mf_request := request; mf_mutationId := mutationId;
                                     mf_promise := p |} ])
                 qm)) ;;;
  ret p.

(** The network interface settles the [i]-th mutation it holds.  An
    exception in the [then] callback rejects the promise [then]
    returned; so does a network error, which nothing catches. *)
Definition network_settles (i : nat) (outcome : Completion JsError GraphQLResult)
  : M unit :=
  let* this := get in
  match mutationsInFlight this !! i with
  | None => ret tt
  | Some f =>
      modify (set_mutationsInFlight (fun q => take i q ++ drop (S i) q)) ;;;
      match outcome with
      | Normal result =>
          try_catch
            (dispatch (APOLLO_MUTATION_RESULT result (mf_mutationId f)) ;;;
             resolve (mf_promise f) result)
            (fun e => reject (mf_promise f) e)
      | Throw error => reject (mf_promise f) error
      end
  end.

(** *** The other public methods *)

(** Called from middleware *)
Definition broadcastNewStore : M unit := broadcastQueries.

(** The listener [watchQuery] installs is the one this method builds. *)
Definition queryListenerForObserver (options : WatchQueryOptions) (observer : Observer)
  : QueryListener :=
  {| l_returnPartialData := opt_returnPartialData options; l_observer := observer |}.

Definition stopQueryInStore (queryId : QueryId) : M unit :=
  dispatch (APOLLO_QUERY_STOP queryId).

Definition getApolloState : M ApolloState :=
  let* this := get in ret (storeState this).

Definition addQueryListener (queryId : QueryId) (listener : QueryListener) : M unit :=
  modify (set_queryListeners (fun ls => <[queryId := listener]> ls)).

Definition removeQueryListener (queryId : QueryId) : M unit :=
  modify (set_queryListeners (fun ls => delete queryId ls)).

(** *** The manager as a state machine

    What can happen to a manager: a call of a public method or of a
    method of a subscription, or one of the callbacks it has handed to
    the environment (the batcher or the network interface settling a
    request, a polling timer or a timeout firing).  Listeners are those
    [queryListenerForObserver] builds. *)
Inductive api : forall {A}, M A -> Prop :=
| api_generateQueryId : api generateQueryId
| api_fetchQuery queryId options : api (fetchQuery queryId options)
| api_watchQuery options : api (watchQuery options)
| api_subscribe oq observer : api (subscribe oq observer)
| api_unsubscribe queryId : api (unsubscribe queryId)
| api_query options : api (query options)
| api_resetStore : api resetStore
| api_batcher_settles i outcome : api (batcher_settles i outcome)
| api_interval_fires t : api (interval_fires t)
| api_timeout_fires : api timeout_fires
| api_mutate mutation variables : api (mutate mutation variables)
| api_network_settles i outcome : api (network_settles i outcome)
| api_broadcastNewStore : api broadcastNewStore
| api_stopQueryInStore queryId : api (stopQueryInStore queryId)
| api_getApolloState : api getApolloState
| api_addQueryListener queryId options observer :
    api (addQueryListener queryId (queryListenerForObserver options observer))
| api_removeQueryListener queryId : api (removeQueryListener queryId)
| api_addFetchQueryPromise p queryId : api (addFetchQueryPromise p queryId)
| api_removeFetchQueryPromise queryId : api (removeFetchQueryPromise queryId)
| api_subscription oq observer : api (subscription oq observer)
| api_stopPolling s : api (stopPolling s)
| api_startPolling s pollInterval : api (startPolling s pollInterval).

Inductive step : QueryManager -> QueryManager -> Prop :=
| step_api {A} (m : M A) (qm : QueryManager) : api m -> step qm (final (m qm)).
End Methods.

(** *** The reducer behind [dispatch] *)

(** The writer the data reducer calls on a successful result, and the
    empty cache a reset leaves. *)
Class CacheWriter {G : GraphQL} : Type := {
  writeSelectionSetToStore :
    NormalizedCache -> SelectionSetWithRoot -> option Variables -> FragmentMap ->
    option ResultData -> NormalizedCache;
  emptyCache : NormalizedCache;
}.

Section Reducer.
Context {G : GraphQL} {W : CacheWriter}.

Definition set_query (queryId : QueryId) (v : QueryStoreValue) (st : ApolloState)
  : ApolloState :=
  {| queries := <[queryId := v]> (queries st); mutations := mutations st;
     cache := cache st |}.

(** [loading], [networkError] and [graphQLErrors] after an update. *)
Definition settled (v : QueryStoreValue) (loading : bool)
    (networkError : option JsError) (graphQLErrors : option (list GraphQLError))
  : QueryStoreValue :=
  {| qsv_query := qsv_query v; qsv_minimizedQuery := qsv_minimizedQuery v;
     qsv_variables := qsv_variables v; qsv_loading := loading;
     qsv_networkError := networkError; qsv_graphQLErrors := graphQLErrors;
     qsv_returnPartialData := qsv_returnPartialData v;
     qsv_lastRequestId := qsv_lastRequestId v;
     qsv_fragmentMap := qsv_fragmentMap v |}.

(** A response carries protocol-level errors. *)
Definition graphQLResultHasError (result : GraphQLResult) : bool :=
  match errors result with
  | Some (_ :: _) => true
  | _ => false
  end.

(** Modelled from the spec: the reducer of the Redux store (store.ts and
    the reducers of the query bookkeeping and of the data are not among
    the sources).  Per query the bookkeeping record holds the latest
    request id, the variables, the loading flag, the last network error
    and the last GraphQL errors; it is created by the init action with
    [loading = true], updated by result and error actions, and destroyed
    on stop.  A result or an error whose request id is not the latest
    issued for its query id is discarded.  A successful result is written
    through the store writer; on failure the bookkeeping is updated with
    the error and the existing data is left untouched.  A reset clears
    the data to the empty state.  (A client result ends loading unless a
    network request is still to come, which is what [complete] says.)  A
    mutation follows the same cycle: its record is created by its init
    action and its result, unless it carries errors, is written through
    the store writer. *)
Definition apolloReducer (st : ApolloState) (a : Action) : ApolloState :=
  match a with
  | APOLLO_QUERY_INIT _ query _ minimizedQuery variables _ returnPartialData
                      queryId requestId fragmentMap =>
      set_query queryId
        {| qsv_query := query; qsv_minimizedQuery := minimizedQuery;
           qsv_variables := variables; qsv_loading := true;
           qsv_networkError := None; qsv_graphQLErrors := None;
           qsv_returnPartialData := returnPartialData;
           qsv_lastRequestId := requestId; qsv_fragmentMap := fragmentMap |} st
  | APOLLO_QUERY_RESULT_CLIENT _ _ _ complete queryId =>
      match queries st !! queryId with
      | None => st
      | Some v => set_query queryId (settled v complete None (qsv_graphQLErrors v)) st
      end
  | APOLLO_QUERY_RESULT result queryId requestId =>
      match queries st !! queryId with
      | None => st
      | Some v =>
          if negb (requestId =? qsv_lastRequestId v)%N then st
          else if graphQLResultHasError result then
            set_query queryId (settled v false None (errors result)) st
          else
            {| queries := <[queryId := settled v false None None]> (queries st);
               mutations := mutations st;
               cache := writeSelectionSetToStore (cache st)
                          (default (qsv_query v) (qsv_minimizedQuery v))
                          (qsv_variables v) (qsv_fragmentMap v) (data result) |}
      end
  | APOLLO_QUERY_ERROR error queryId requestId =>
      match queries st !! queryId with
      | None => st
      | Some v =>
          if negb (requestId =? qsv_lastRequestId v)%N then st
          else set_query queryId (settled v false (Some error) (qsv_graphQLErrors v)) st
      end
  | APOLLO_QUERY_STOP queryId =>
      {| queries := delete queryId (queries st); mutations := mutations st;
         cache := cache st |}
  | APOLLO_STORE_RESET =>
      {| queries := queries st; mutations := mutations st; cache := emptyCache |}
  | APOLLO_MUTATION_INIT mutationString mutation variables mutationId fragmentMap =>
      {| queries := queries st;
         mutations :=
           <[mutationId := {| msv_mutationString := mutationString;
                              msv_mutation := mutation; msv_variables := variables;
                              msv_fragmentMap := fragmentMap; msv_loading := true |}]>
             (mutations st);
         cache := cache st |}
  | APOLLO_MUTATION_RESULT result mutationId =>
      match mutations st !! mutationId with
      | None => st
      | Some m =>
          {| queries := queries st;
             mutations :=
               <[mutationId := {| msv_mutationString := msv_mutationString m;
                                  msv_mutation := msv_mutation m;
                                  msv_variables := msv_variables m;
                                  msv_fragmentMap := msv_fragmentMap m;
                                  msv_loading := false |}]>
                 (mutations st);
             cache :=
               if graphQLResultHasError result then cache st
               else writeSelectionSetToStore (cache st) (msv_mutation m)
                      (msv_variables m) (msv_fragmentMap m) (data result) |}
      end
  end.

Definition apolloStore : Store := {| reducer := apolloReducer |}.
End Reducer.

(** *** A small instance

    Documents are lists of root field names, the cache maps a root field
    to its value, a result lists the fields it carries. *)
Module Toy.

#[local] Instance graphql : GraphQL := {|
  Document := list string;
  OperationDefinition := list string;
  SelectionSet := list string;
  Variables := unit;
  FragmentMap := unit;
  QueryTransformer := unit;
  ResultData := list (string * string);
  GraphQLError := string;
  NormalizedCache := gmap string string;
|}.

Definition found (fields : list string) (c : gmap string string)
  : list (string * string) :=
  omap (fun f => (fun v => (f, v)) <$> c !! f) fields.

Definition absent (fields : list string) (c : gmap string string) : list string :=
  filter (fun f => c !! f = None) fields.

#[local] Instance helpers : Helpers := {|
  getQueryDefinition doc :=
    match doc with
    | [] => Throw (Error "Must contain a query definition.")
    | _ => Normal doc
    end;
  getMutationDefinition doc :=
    match doc with
    | [] => Throw (Error "Must contain a mutation definition.")
    | _ => Normal doc
    end;
  op_selectionSet def := def;
  applyTransformerToOperation def _ := def;
  replaceOperationDefinition _ def := def;
  print doc := String.concat " " doc;
  createFragmentMap _ := tt;
  getOperationName _ := None;
  queryDocument missing _ _ := concat (selectionSet <$> missing);
  diffSelectionSetAgainstStore ss c rootId _ _ :=
    {| missingSelectionSets :=
         Some match absent ss c with
              | [] => []
              | fs => [ {| id := rootId; typeName := "Query"; selectionSet := fs |} ]
              end;
       result := found ss c |};
  readSelectionSetFromStore c _ ss _ returnPartialData _ :=
    match absent ss c with
    | [] => Normal (found ss c)
    | f :: _ =>
        if returnPartialData then Normal (found ss c)
        else Throw (Error ("Can't find field " ++ f))
    end;
|}.

#[local] Instance writer : CacheWriter := {|
  writeSelectionSetToStore c _ _ _ data :=
    foldr (fun '(f, v) c => <[f := v]> c) c (default [] data);
  emptyCache := ∅;
|}.

#[local] Instance store : Store := apolloStore.

Definition luke : gmap string string := {[ "name" := "Luke Skywalker" ]}.

Definition options (fields : list string) (forceFetch : bool) : WatchQueryOptions :=
  {| opt_query := fields; opt_variables := None; opt_forceFetch := forceFetch;
     opt_returnPartialData := false; opt_pollInterval := None |}.

(** A manager over an empty store, and one over a store primed with
    Luke's name. *)
Definition empty_manager : QueryManager :=
  new_QueryManager {| queries := ∅; mutations := ∅; cache := ∅ |} None.
Definition primed_manager : QueryManager :=
  new_QueryManager {| queries := ∅; mutations := ∅; cache := luke |} None.

Definition leia : GraphQLResult :=
  {| data := Some [("name", "Leia")]; errors := None |}.
Definition network_error : JsError := Error "Network error ocurred".

(** One query watched by a subscriber, its first fetch answered: the
    query is active and idle. *)
Definition watched : ObservableQuery := {| oq_options := options ["name"] false |}.
Definition active_manager : QueryManager :=
  Eval vm_compute in
    final (bind (subscribe watched (Subscriber true true))
                (fun _ => batcher_settles 0 (Normal leia)) empty_manager).

(** A forced refetch of a query whose data is in the store, in flight. *)
Definition refetching_manager : QueryManager :=
  Eval vm_compute in final (fetchQuery "q" (options ["name"] true) primed_manager).

(** Two forced fetches for the same query id, both in flight. *)
Definition after_first_fetch : QueryManager :=
  Eval vm_compute in final (fetchQuery "q" (options ["name"] true) empty_manager).
Definition after_second_fetch : QueryManager :=
  Eval vm_compute in final (fetchQuery "q" (options ["name"] true) after_first_fetch).
Definition in_flight (requestId : N) (p : PromiseHandle) : InFlight :=
  {| if_request := {| fr_query := ["name"]; fr_variables := None; fr_queryId := "q";
                      fr_operationName := None |};
     if_requestId := requestId; if_querySS := root_query ["name"];
     if_variables := None; if_returnPartialData := false; if_fragmentMap := tt;
     if_promise := p |}.


(** Ids handed out around a fetch. *)
Definition first_id_taken : QueryManager :=
  Eval vm_compute in final (generateQueryId empty_manager).
Definition fetched_once : QueryManager :=
  Eval vm_compute in final (fetchQuery "0" (options ["name"] true) first_id_taken).
Definition third_id_taken : QueryManager :=
  Eval vm_compute in final (generateQueryId fetched_once).

(** Luke's name is cached, his age is not. *)
Definition partly_cached : QueryManager :=
  Eval vm_compute in
    final (fetchQuery "q" (options ["name"; "age"] false) primed_manager).

(** The refetch of [refetching_manager] has failed. *)
Definition after_failure : QueryManager :=
  Eval vm_compute in
    final (on_error (in_flight 0 0) network_error refetching_manager).

Definition after_reset : QueryManager :=
  Eval vm_compute in final (resetStore active_manager).

(** A query polled every 100 ms, after its subscription and after the
    first tick of its timer. *)
Definition polling : WatchQueryOptions :=
  {| opt_query := ["name"]; opt_variables := None; opt_forceFetch := false;
     opt_returnPartialData := false; opt_pollInterval := Some 100%N |}.
Definition subscriber : QueryListener :=
  {| l_returnPartialData := false; l_observer := Subscriber true true |}.
Definition polling_manager : QueryManager :=
  Eval vm_compute in final (startQuery polling subscriber empty_manager).
Definition polled_once : QueryManager :=
  Eval vm_compute in final (interval_fires 1 polling_manager).


(** The subscriptions behind [polling_manager] and [active_manager]. *)
Definition polling_subscription : QuerySubscription :=
  {| sub_queryId := "0"; sub_options := polling; sub_pollingTimer := Some 1 |}.
Definition idle_subscription : QuerySubscription :=
  {| sub_queryId := "0"; sub_options := options ["name"] false;
     sub_pollingTimer := None |}.


(** A query with a subscriber and two forced fetches in flight. *)
Definition listening_manager : QueryManager :=
  Eval vm_compute in
    final (addQueryListener "q"
             (queryListenerForObserver (options ["name"] true) (Subscriber true true))
             empty_manager).
Definition first_in_flight : QueryManager :=
  Eval vm_compute in final (fetchQuery "q" (options ["name"] true) listening_manager).
Definition both_in_flight : QueryManager :=
  Eval vm_compute in final (fetchQuery "q" (options ["name"] true) first_in_flight).
(** The bookkeeping record of the query with both fetches in flight. *)
Definition record_q : QueryStoreValue :=
  {| qsv_query := root_query ["name"]; qsv_minimizedQuery := Some (root_query ["name"]);
     qsv_variables := None; qsv_loading := true; qsv_networkError := None;
     qsv_graphQLErrors := None; qsv_returnPartialData := false;
     qsv_lastRequestId := 1; qsv_fragmentMap := tt |}.
Definition luke_skywalker : GraphQLResult :=
  {| data := Some [("name", "Luke Skywalker")]; errors := None |}.

End Toy.

End QueryManager.

(** ** Store writer (writeToStore.ts) *)
Module Writer.

(** *** Results and the query AST *)

(** A result.  Besides what JSON text denotes, a caller can pass objects
    of its own: [JRef] is an object held by reference, which may be
    shared or lie on a cycle and whose properties are in the heap of the
    [Runtime] below; [JBare] is the empty object without prototype,
    [Object.create(null)]; [JNative] is a value of the runtime that is
    not data, such as the function a member of [Object.prototype] is. *)
Inductive JsonValue : Type :=
| JNull
| JBool (b : bool)
| JNumber (n : Z)
| JString (s : string)
| JArray (items : list JsonValue)
| JObject (fields : list (string * JsonValue))
| JRef (address : nat)
| JBare
| JNative (name : string).

(** [obj[key]] on an object given by its entries. *)
Fixpoint assoc {V} (key : string) (entries : list (string * V)) : option V :=
  match entries with
  | [] => None
  | (k, v) :: rest => if String.eqb k key then Some v else assoc key rest
  end.

(** The objects held by reference, and property access beyond own
    properties. *)
Class Runtime : Type := {
  (** the own properties of the object at each address *)
  heap : list (list (string * JsonValue));
  (** what [value[key]] finds when [key] is not an own property of
      [value]: a member of its prototype chain (for an ordinary object
      those of [Object.prototype]), a property of a primitive *)
  inherited : JsonValue -> string -> option JsonValue;
}.

(** The own property [key] of an object.  An address outside the heap
    stands for an object without own properties. *)
Definition own_get `{Runtime} (value : JsonValue) (key : string) : option JsonValue :=
  match value with
  | JObject fields => assoc key fields
  | JRef address => fields ← heap !! address; assoc key fields
  | _ => None
  end.

(** [result[key]]; [None] is [undefined].  An own property comes first,
    then the prototype chain, which [Object.create(null)] does not have;
    reading a property of [null] throws. *)
Definition result_get `{Runtime} (result : JsonValue) (key : string)
  : Completion JsError (option JsonValue) :=
  match result with
  | JNull => Throw (TypeError ("Cannot read property '" ++ key ++ "' of null"))
  | JBare => Normal None
  | _ =>
      Normal match own_get result key with
             | Some value => Some value
             | None => inherited result key
             end
  end.

(** [!result] *)
Definition js_not (result : JsonValue) : bool :=
  match result with
  | JNull | JBool false => true
  | JNumber n => Z.eqb n 0
  | JString s => String.eqb s ""
  | _ => false
  end.

Abbreviation Variables := (gmap string JsonValue).

Inductive ValueNode : Type :=
| Literal (v : JsonValue)
| VariableNode (name : string).

Record DirectiveNode : Type := {
  d_name : string;
  d_arguments : list (string * ValueNode);
}.

(** Selections and selection sets.  AST nodes are JavaScript objects and
    the writer compares them by identity ([indexOf], [Set]); [node] is
    the identity of the object. *)
Inductive SelectionNode : Type :=
| Field (node : nat) (alias : option string) (name : string)
    (arguments : list (string * ValueNode)) (directives : list DirectiveNode)
    (selectionSet : option SelectionSetNode)
| FragmentSpread (node : nat) (name : string) (directives : list DirectiveNode)
| InlineFragment (node : nat) (typeCondition : option string)
    (directives : list DirectiveNode) (selectionSet : SelectionSetNode)
with SelectionSetNode : Type :=
| SelectionSet (node : nat) (selections : list SelectionNode).

Definition selection_id (selection : SelectionNode) : nat :=
  match selection with
  | Field node _ _ _ _ _ | FragmentSpread node _ _ | InlineFragment node _ _ _ => node
  end.

Definition selectionSet_id (selectionSet : SelectionSetNode) : nat :=
  match selectionSet with SelectionSet node _ => node end.

Definition selections (selectionSet : SelectionSetNode) : list SelectionNode :=
  match selectionSet with SelectionSet _ ss => ss end.

Record FragmentDefinitionNode : Type := {
  fd_name : string;
  fd_typeCondition : string;
  fd_selectionSet : SelectionSetNode;
}.

Abbreviation FragmentMap := (gmap string FragmentDefinitionNode).

(** What [getFragmentFromSelection] hands to [policies.fragmentMatches]:
    an inline fragment or a fragment definition. *)
Record FragmentNode : Type := {
  fragment_typeCondition : option string;
  fragment_selectionSet : SelectionSetNode;
}.

(** [isField(selection)] *)
Definition isField (selection : SelectionNode) : bool :=
  match selection with Field _ _ _ _ _ _ => true | _ => false end.

(** [resultKeyNameFromField(field)]: the alias if there is one. *)
Definition resultKeyNameFromField (selection : SelectionNode) : string :=
  match selection with
  | Field _ (Some alias) _ _ _ _ => alias
  | Field _ None name _ _ _ => name
  | _ => ""
  end.

(** Modelled from the spec: [getFragmentFromSelection] of
    utilities/graphql/fragments is not among the sources.  Inline fragments
    and named fragment spreads are expanded in place: an inline fragment is
    its own fragment, a spread stands for the definition of that name in
    the fragment map (there is none for an unknown name). *)
Definition getFragmentFromSelection (selection : SelectionNode) (fragmentMap : FragmentMap)
  : option FragmentNode :=
  match selection with
  | InlineFragment _ typeCondition _ selectionSet =>
      Some {| fragment_typeCondition := typeCondition;
              fragment_selectionSet := selectionSet |}
  | FragmentSpread _ name _ =>
      (fun fd => {| fragment_typeCondition := Some (fd_typeCondition fd);
                    fragment_selectionSet := fd_selectionSet fd |})
        <$> fragmentMap !! name
  | Field _ _ _ _ _ _ => None
  end.

(** Every selection of a selection set, at any depth. *)
Fixpoint all_selections (selection : SelectionNode) : list SelectionNode :=
  selection ::
    match selection with
    | Field _ _ _ _ _ (Some selectionSet) | InlineFragment _ _ _ selectionSet =>
        all_of_set selectionSet
    | _ => []
    end
with all_of_set (selectionSet : SelectionSetNode) : list SelectionNode :=
  match selectionSet with
  | SelectionSet _ ss =>
      (fix all_of_list (l : list SelectionNode) : list SelectionNode :=
         match l with
         | [] => []
         | s :: l' => all_selections s ++ all_of_list l'
         end) ss
  end.

(** The selections a write of [selectionSet] can ever put in a work set:
    its own and those of the fragment definitions. *)
Definition universe (fragmentMap : FragmentMap) (selectionSet : SelectionSetNode)
  : list SelectionNode :=
  all_of_set selectionSet ++
  flat_map (fun entry => all_of_set (fd_selectionSet entry.2)) (map_to_list fragmentMap).

(** The selections directly under a field or an inline fragment. *)
Definition children (selection : SelectionNode) : list SelectionNode :=
  match selection with
  | Field _ _ _ _ _ (Some selectionSet) | InlineFragment _ _ _ selectionSet =>
      selections selectionSet
  | _ => []
  end.

(** *** The store *)

(** [StoreValue]: a cloned result value, a [Reference], a nested
    [StoreObject], an array, or a [FieldValueToBeMerged]. *)
Inductive StoreValue : Type :=
| SVJson (v : JsonValue)
| SVReference (dataId : string)
| SVObject (fields : list (string * StoreValue))
| SVArray (items : list StoreValue)
| SVToBeMerged (__field : SelectionNode) (__typename : option string) (__value : StoreValue).

Abbreviation StoreObject := (list (string * StoreValue)).

(** [makeReference(dataId)] *)
Definition makeReference (dataId : string) : StoreValue := SVReference dataId.

(** The [NormalizedCache] the writer writes to ([EntityStore] is not among
    the sources). *)
Class NormalizedCache : Type := {
  Cache : Type;
  retain : string -> Cache -> Cache;
  merge : string -> StoreObject -> Cache -> Cache;
  (** [store.get(dataId, "__typename") as string] *)
  get_typename : Cache -> option string -> option string;
}.

(** [Policies], as far as the writer uses them. *)
Class Policies {C : NormalizedCache} : Type := {
  identify : JsonValue -> SelectionSetNode -> FragmentMap -> option string;
  getStoreFieldName : option string -> SelectionNode -> Variables -> string;
  hasMergeFunction : option string -> string -> bool;
  fragmentMatches : FragmentNode -> option string -> bool;
  applyMerges : StoreValue -> StoreObject -> Cache -> Variables -> StoreObject;
  usingPossibleTypes : bool;
  rootTypenamesById : string -> option string;
}.

(** The utilities imported by writeToStore.ts. *)
Class Utilities : Type := {
  shouldInclude : SelectionNode -> Variables -> bool;
  hasDirectives : list string -> SelectionNode -> bool;
  getTypenameFromResult : JsonValue -> SelectionSetNode -> FragmentMap -> option string;
  (** [makeProcessedFieldsMerger().merge] *)
  merge_fields : StoreObject -> StoreObject -> StoreObject;
  (** [JSON.stringify(value, null, 2)]: a string, or [undefined] (for a
      function), or an exception (for a cyclic object). *)
  JSON_stringify : JsonValue -> Completion JsError (option string);
}.

(** *** The write pass *)
Section Write.
Context {R : Runtime} {C : NormalizedCache} {P : Policies} {U : Utilities}.

(** The immutable part of [WriteContext]. *)
Record WriteContext : Type := {
  variables : Variables;
  fragmentMap : FragmentMap;
}.

(** What a write pass mutates: the store, [context.written], and the
    [out] object, which the top-level call creates and every nested call
    receives by reference. *)
Record WriteState : Type := {
  store : Cache;
  written : gmap string (list SelectionSetNode);
  shouldApplyMerges : bool;
}.

(** A call returns, throws, or exhausts the fuel of the model. *)
Inductive Outcome (A : Type) : Type :=
| Done (a : A) (st : WriteState)
| Thrown (e : JsError) (st : WriteState)
| OutOfFuel.
Arguments Done {A} a st.
Arguments Thrown {A} e st.
Arguments OutOfFuel {A}.

Definition W (A : Type) : Type := WriteState -> Outcome A.

Definition ret {A} (a : A) : W A := fun st => Done a st.
Definition throw {A} (e : JsError) : W A := fun st => Thrown e st.
Definition bind {A B} (m : W A) (k : A -> W B) : W B :=
  fun st => match m st with
            | Done a st' => k a st'
            | Thrown e st' => Thrown e st'
            | OutOfFuel => OutOfFuel
            end.

Notation "'let*' x ':=' m 'in' k" := (bind m (fun x => k))
  (at level 10, x name, m at level 100, k at level 200).
Notation "'let*' ' p ':=' m 'in' k" := (bind m (fun p => k))
  (at level 10, p strict pattern, m at level 100, k at level 200).

(** [xs.map(f)], left to right. *)
Fixpoint mapM {A B} (f : A -> W B) (xs : list A) : W (list B) :=
  match xs with
  | [] => ret []
  | x :: xs' => let* y := f x in let* ys := mapM f xs' in ret (y :: ys)
  end.

(** [a || b] on strings that may be [undefined]. *)
Definition js_or (a b : option string) : option string :=
  match a with
  | Some s => if String.eqb s "" then b else a
  | None => b
  end.

(** [!dataId] *)
Definition falsy (dataId : option string) : bool :=
  match dataId with
  | Some s => String.eqb s ""
  | None => true
  end.

(** [sets.indexOf(selectionSet) >= 0] *)
Definition indexOf_found (sets : list SelectionSetNode) (selectionSet : SelectionSetNode)
  : bool :=
  existsb (fun s => Nat.eqb (selectionSet_id s) (selectionSet_id selectionSet)) sets.

(** A [Set] of selections: its elements in insertion order. *)
Definition workSet_has (workSet : list SelectionNode) (selection : SelectionNode) : bool :=
  existsb (fun s => Nat.eqb (selection_id s) (selection_id selection)) workSet.

Definition workSet_add (workSet : list SelectionNode) (selection : SelectionNode)
  : list SelectionNode :=
  if workSet_has workSet selection then workSet else workSet ++ [selection].

Definition new_Set (ss : list SelectionNode) : list SelectionNode :=
  foldl workSet_add [] ss.

Definition field_name (selection : SelectionNode) : string :=
  match selection with
  | Field _ _ name _ _ _ => name
  | FragmentSpread _ name _ => name
  | InlineFragment _ _ _ _ => ""
  end.

Definition field_selectionSet (selection : SelectionNode) : option SelectionSetNode :=
  match selection with
  | Field _ _ _ _ _ selectionSet => selectionSet
  | _ => None
  end.

(** What [throw new InvariantError(`Missing field ...`)] throws: building
    the message can fail before the error exists. *)
Definition missing_field_error (resultFieldKey : string) (result : JsonValue) : JsError :=
  match JSON_stringify result with
  | Normal (Some json) =>
      InvariantError ("Missing field '" ++ resultFieldKey ++ "' in "
                        ++ String.substring 0 100 json)
  | Normal None => TypeError "Cannot read property 'substring' of undefined"
  | Throw e => e
  end.

Definition set_written (dataId : string) (sets : list SelectionSetNode)
    (st : WriteState) : WriteState :=
  {| store := store st; written := <[dataId := sets]> (written st);
     shouldApplyMerges := shouldApplyMerges st |}.

Definition set_shouldApplyMerges (st : WriteState) : WriteState :=
  {| store := store st; written := written st; shouldApplyMerges := true |}.

Definition store_merge (dataId : string) (fields : StoreObject) (st : WriteState)
  : WriteState :=
  {| store := merge dataId fields (store st); written := written st;
     shouldApplyMerges := shouldApplyMerges st |}.

(** The body of [workSet.forEach], given [processFieldValue]: it updates
    [mergedFields] and may add selections to the work set. *)
Definition processSelection
    (processFieldValue : JsonValue -> SelectionNode -> W StoreValue)
    (context : WriteContext) (result : JsonValue) (typename : option string)
    (selection : SelectionNode)
    (mergedFields : StoreObject) (workSet : list SelectionNode)
  : W (StoreObject * list SelectionNode) :=
  if negb (shouldInclude selection (variables context)) then ret (mergedFields, workSet)
  else if isField selection then
    let resultFieldKey := resultKeyNameFromField selection in
    match result_get result resultFieldKey with
    | Throw e => throw e
    | Normal (Some value) =>
        let storeFieldName := getStoreFieldName typename selection (variables context) in
        let* incomingValue := processFieldValue value selection in
        let* incomingValue :=
          if hasMergeFunction typename (field_name selection) then
            fun st => Done (SVToBeMerged selection typename incomingValue)
                           (set_shouldApplyMerges st)
          else ret incomingValue in
        ret (merge_fields mergedFields [(storeFieldName, incomingValue)], workSet)
    | Normal None =>
        if usingPossibleTypes && negb (hasDirectives ["defer"; "client"] selection) then
          throw (missing_field_error resultFieldKey result)
        else ret (mergedFields, workSet)
    end
  else
    (* This is not a field, so it must be a fragment, either inline or named *)
    match getFragmentFromSelection selection (fragmentMap context) with
    | Some fragment =>
        if fragmentMatches fragment typename then
          ret (mergedFields,
               foldl workSet_add workSet (selections (fragment_selectionSet fragment)))
        else ret (mergedFields, workSet)
    | None => throw (InvariantError ("No fragment named " ++ field_name selection))
    end.

(** [workSet.forEach(...)]: the elements are visited in insertion order,
    those added during the iteration included; [visited] counts the
    elements already visited. *)
Fixpoint workSet_forEach (fuel : nat)
    (body : SelectionNode -> StoreObject -> list SelectionNode ->
            W (StoreObject * list SelectionNode))
    (visited : nat) (mergedFields : StoreObject) (workSet : list SelectionNode)
  : W StoreObject :=
  match fuel with
  | 0 => fun _ => OutOfFuel
  | S fuel' =>
      match workSet !! visited with
      | None => ret mergedFields
      | Some selection =>
          let* '(mergedFields', workSet') := body selection mergedFields workSet in
          workSet_forEach fuel' body (S visited) mergedFields' workSet'
      end
  end.

(** The [dataId] a call works with: the one passed in, or else the one
    [policies.identify] computes for the result object. *)
Definition effective_dataId (context : WriteContext) (dataId : option string)
    (result : JsonValue) (selectionSet : SelectionSetNode) : option string :=
  if falsy dataId then
    match identify result selectionSet (fragmentMap context) with
    | Some id => Some id
    | None => dataId
    end
  else dataId.

(** [context.written[dataId] || (context.written[dataId] = [])] *)
Definition written_sets (st : WriteState) (dataId : string) : list SelectionSetNode :=
  default [] (written st !! dataId).

Fixpoint processSelectionSet (fuel : nat) (context : WriteContext)
    (dataId : option string) (result : JsonValue) (selectionSet : SelectionSetNode)
    (typename : option string) {struct fuel} : W StoreValue :=
  match fuel with
  | 0 => fun _ => OutOfFuel
  | S fuel' =>
      fun st =>
        let dataId := effective_dataId context dataId result selectionSet in
        let already :=
          match dataId with
          | Some dataId => indexOf_found (written_sets st dataId) selectionSet
          | None => false
          end in
        if already then Done (makeReference (default "" dataId)) st
        else
          let st :=
            match dataId with
            | Some dataId =>
                set_written dataId (written_sets st dataId ++ [selectionSet]) st
            | None => st
            end in
          let typename :=
            js_or typename
              (js_or (getTypenameFromResult result selectionSet (fragmentMap context))
                     (get_typename (store st) dataId)) in
          let mergedFields : StoreObject :=
            match typename with
            | Some typename => [("__typename", SVJson (JString typename))]
            | None => []
            end in
          bind
            (workSet_forEach fuel'
               (processSelection (processFieldValue fuel' context)
                  context result typename)
               0 mergedFields (new_Set (selections selectionSet)))
            (fun mergedFields st =>
               match dataId with
               | Some dataId =>
                   let entityRef := makeReference dataId in
                   let mergedFields :=
                     if shouldApplyMerges st then
                       applyMerges entityRef mergedFields (store st) (variables context)
                     else mergedFields in
                   Done entityRef (store_merge dataId mergedFields st)
               | None => Done (SVObject mergedFields) st
               end)
            st
  end
with processFieldValue (fuel : nat) (context : WriteContext)
    (value : JsonValue) (field : SelectionNode) {struct fuel} : W StoreValue :=
  match fuel with
  | 0 => fun _ => OutOfFuel
  | S fuel' =>
      match field_selectionSet field, value with
      | None, _ | _, JNull => ret (SVJson value)
      | Some selectionSet, JArray items =>
          let* items' := mapM (fun item => processFieldValue fuel' context item field)
                              items in
          ret (SVArray items')
      | Some selectionSet, _ =>
          processSelectionSet fuel' context None value selectionSet None
      end
  end.

(** An operation as [getDefaultValues] presents it. *)
Record OperationDefinitionNode : Type := {
  operation_selectionSet : SelectionSetNode;
  defaultValues : Variables;
}.

(** The document as [getOperationDefinition] (there may be no operation
    in it) and [createFragmentMap(getFragmentDefinitions(query))]
    present it. *)
Record DocumentNode : Type := {
  operationDefinition : option OperationDefinitionNode;
  fragmentDefinitions : FragmentMap;
}.

Definition writeQueryToStore (fuel : nat) (query : DocumentNode) (result : JsonValue)
    (dataId : string) (store0 : Cache) (variables0 : Variables) : Outcome Cache :=
  (* Any IDs written explicitly to the cache will be retained *)
  let store1 := retain dataId store0 in
  let st := {| store := store1; written := ∅; shouldApplyMerges := false |} in
  match operationDefinition query with
  | None => Thrown (TypeError "Cannot read property 'selectionSet' of undefined") st
  | Some operationDefinition =>
      let context := {| variables := variables0 ∪ defaultValues operationDefinition;
                        fragmentMap := fragmentDefinitions query |} in
      match processSelectionSet fuel context (Some dataId)
              (if js_not result then JBare else result)
              (operation_selectionSet operationDefinition) (rootTypenamesById dataId)
              st with
      | Done _ st => Done (store st) st
      | Thrown e st => Thrown e st
      | OutOfFuel => OutOfFuel
      end
  end.

(** Within one write pass [context.written] only grows. *)
Definition written_grows (st st' : WriteState) : Prop :=
  forall dataId selectionSet,
    indexOf_found (written_sets st dataId) selectionSet = true ->
    indexOf_found (written_sets st' dataId) selectionSet = true.

(** How deeply objects and arrays nest in a value, up to the objects
    held by reference. *)
Fixpoint depth (v : JsonValue) : nat :=
  match v with
  | JArray items => S (foldr (fun item d => Nat.max (depth item) d) 0 items)
  | JObject fields => S (foldr (fun field d => Nat.max (depth field.2) d) 0 fields)
  | _ => 0
  end.

(** The same for the objects of the heap, and for a result that may be
    one of them. *)
Definition heap_depth : nat := max_list ((fun fields => depth (JObject fields)) <$> heap).

Definition height (result : JsonValue) : nat :=
  match result with
  | JRef _ => heap_depth
  | _ => depth result
  end.

(** No field among [known] reads an inherited property. *)
Definition reads_own_properties (known : list SelectionNode) : Prop :=
  forall value selection,
    selection ∈ known -> isField selection = true ->
    inherited value (resultKeyNameFromField selection) = None.

(** [policies.identify] gives every object of the heap an id, whichever
    selection set of a field among [known] it is written with. *)
Definition heap_identified (fragmentMap : FragmentMap) (known : list SelectionNode)
  : Prop :=
  forall address selectionSet,
    address < length heap -> selectionSet ∈ omap field_selectionSet known ->
    is_Some (identify (JRef address) selectionSet fragmentMap).

(** Fuel that lets a write of a result with the selections [known] end:
    a loop visits at most [known] selections, an object nested in the
    result costs two calls, and each object of the heap is entered at
    most once with each selection set. *)
Definition write_fuel (known : list SelectionNode) (result : JsonValue) : nat :=
  length known + 2 * height result
  + (2 * heap_depth + 2) * (length heap * length known) + 2.

End Write.

Arguments Done {C A} a st.
Arguments Thrown {C A} e st.
Arguments OutOfFuel {C A}.

(** *** A small instance: entities are identified by "__typename:id" *)
Module Toy.

#[local] Instance cache : NormalizedCache := {|
  Cache := gmap string StoreObject;
  retain _ c := c;
  merge dataId fields c := <[dataId := fields ++ default [] (c !! dataId)]> c;
  get_typename c dataId :=
    obj ← (dataId ≫= (c !!.));
    match assoc "__typename" obj with
    | Some (SVJson (JString t)) => Some t
    | _ => None
    end;
|}.

(** Every value that has properties inherits the members of
    [Object.prototype]. *)
Definition Object_inherited (value : JsonValue) (key : string) : option JsonValue :=
  if bool_decide (key ∈ Object_prototype) then Some (JNative key) else None.

Section Instances.
Context {R : Runtime}.

Definition typename_of (result : JsonValue) : option string :=
  match result_get result "__typename" with
  | Normal (Some (JString t)) => Some t
  | _ => None
  end.

Definition policies (strict : bool) : Policies := {|
  identify result _ _ :=
    match typename_of result, result_get result "id" with
    | Some t, Normal (Some (JString i)) => Some (t ++ ":" ++ i)%string
    | _, _ => None
    end;
  getStoreFieldName _ selection _ := field_name selection;
  hasMergeFunction _ _ := false;
  fragmentMatches fragment typename :=
    match fragment_typeCondition fragment, typename with
    | Some condition, Some t => String.eqb condition t
    | _, _ => true
    end;
  applyMerges _ fields _ _ := fields;
  usingPossibleTypes := strict;
  rootTypenamesById dataId :=
    if String.eqb dataId "ROOT_QUERY" then Some "Query" else None;
|}.

Definition has_directive (names : list string) (directives : list DirectiveNode)
  : bool :=
  existsb (fun d => existsb (String.eqb (d_name d)) names) directives.

(** The objects of the heaps below all lie on a cycle. *)
Definition utilities : Utilities := {|
  shouldInclude _ _ := true;
  hasDirectives names selection :=
    match selection with
    | Field _ _ _ _ directives _ | FragmentSpread _ _ directives
    | InlineFragment _ _ directives _ => has_directive names directives
    end;
  getTypenameFromResult result _ _ := typename_of result;
  merge_fields existing incoming := existing ++ incoming;
  JSON_stringify value :=
    match value with
    | JRef _ => Throw (TypeError "Converting circular structure to JSON")
    | JNative _ => Normal None
    | _ => Normal (Some "{...}")
    end;
|}.
End Instances.

Definition scalar (node : nat) (name : string) : SelectionNode :=
  Field node None name [] [] None.
Definition deferred (node : nat) (name : string) : SelectionNode :=
  Field node None name [] [ {| d_name := "defer"; d_arguments := [] |} ] None.

(** [{ author { __typename id name } coauthor { ...same selection set } }]:
    the two fields share one selection set node, as the fields of a
    fragment spread twice do. *)
Definition person : SelectionSetNode :=
  SelectionSet 10 [scalar 11 "__typename"; scalar 12 "id"; scalar 13 "name"].
Definition authors : SelectionSetNode :=
  SelectionSet 1 [Field 2 None "author" [] [] (Some person);
                  Field 3 None "coauthor" [] [] (Some person)].
Definition ada : JsonValue :=
  JObject [("__typename", JString "Author"); ("id", JString "5");
           ("name", JString "Ada")].
Definition ada_twice : JsonValue := JObject [("author", ada); ("coauthor", ada)].
Definition nameless : JsonValue :=
  JObject [("__typename", JString "Author"); ("id", JString "5")].

(** [{ author { ...Friends } }] with
    [fragment Friends on Author { __typename id name friend { ...Friends } }]:
    the fragment refers to itself. *)
Definition friends : SelectionSetNode :=
  SelectionSet 30 [scalar 31 "__typename"; scalar 32 "id"; scalar 33 "name";
                   Field 34 None "friend" [] []
                     (Some (SelectionSet 35 [FragmentSpread 36 "Friends" []]))].
Definition author_and_friends : SelectionSetNode :=
  SelectionSet 20 [Field 21 None "author" [] []
                     (Some (SelectionSet 22 [FragmentSpread 23 "Friends" []]))].
Definition Friends : FragmentMap :=
  {[ "Friends" := {| fd_name := "Friends"; fd_typeCondition := "Author";
                     fd_selectionSet := friends |} ]}.

(** Ada and Grace are each other's friend: two objects on a cycle, each
    with an id. *)
#[local] Instance runtime : Runtime := {|
  heap := [ [("__typename", JString "Author"); ("id", JString "5");
             ("name", JString "Ada"); ("friend", JRef 1)];
            [("__typename", JString "Author"); ("id", JString "7");
             ("name", JString "Grace"); ("friend", JRef 0)] ];
  inherited := Object_inherited;
|}.

(** [{ node { ...Chain } }] with [fragment Chain on Node { next { ...Chain } }],
    and an object without id that is its own [next]. *)
Definition chain : SelectionSetNode :=
  SelectionSet 40 [Field 41 None "next" [] []
                     (Some (SelectionSet 42 [FragmentSpread 43 "Chain" []]))].
Definition node_and_chain : SelectionSetNode :=
  SelectionSet 44 [Field 45 None "node" [] []
                     (Some (SelectionSet 46 [FragmentSpread 47 "Chain" []]))].
Definition Chain : FragmentMap :=
  {[ "Chain" := {| fd_name := "Chain"; fd_typeCondition := "Node";
                   fd_selectionSet := chain |} ]}.
Definition anonymous_loop : Runtime := {|
  heap := [ [("__typename", JString "Node"); ("next", JRef 0)] ];
  inherited := Object_inherited;
|}.
Definition anonymous_strict : Policies := @policies anonymous_loop true.
Definition anonymous_utilities : Utilities := @utilities anonymous_loop.

(** Strict typing: possible types are in use. *)
#[local] Instance strict : Policies := policies true.
#[local] Existing Instance utilities.

Definition context0 : WriteContext := {| variables := ∅; fragmentMap := ∅ |}.
Definition context_Friends : WriteContext := {| variables := ∅; fragmentMap := Friends |}.
Definition context_Chain : WriteContext := {| variables := ∅; fragmentMap := Chain |}.
Definition start : WriteState :=
  {| store := (∅ : gmap string StoreObject); written := ∅; shouldApplyMerges := false |}.

(** The state of the pass once Ada has been written as an entity. *)
Definition after_ada : WriteState :=
  Eval vm_compute in
    match processSelectionSet 10 context0 None ada person None start with
    | Done _ st => st
    | _ => start
    end.

End Toy.

End Writer.
(** ** Theorems: fragment matchers *)
Module FragmentMatcherFacts.
Import FragmentMatcher.

Lemma strict_eq_string_spec v s : strict_eq_string v s = true <-> v = VString s.
Proof.
  destruct v; simpl; try (split; [discriminate | intros [=]]).
  rewrite String.eqb_eq. split; [intros ->; reflexivity | intros [= ->]; reflexivity].
Qed.

Example introspection_member :
  introspection_match keys_json ready_animals {| id := "Dog:1" |} "Animal" one_dog
    = Normal true.
Proof. reflexivity. Qed.

Lemma js_get_own {V} (obj : gmap string V) key v :
  obj !! key = Some v -> js_get obj key = Own v.
Proof. unfold js_get. by intros ->. Qed.

Lemma js_get_undefined {V} (obj : gmap string V) key :
  obj !! key = None -> key ∉ Object_prototype -> js_get obj key = Undefined.
Proof. unfold js_get. intros -> Hplain. by rewrite bool_decide_eq_false_2. Qed.

Lemma js_get_inherited {V} (obj : gmap string V) key :
  obj !! key = None -> key ∈ Object_prototype -> js_get obj key = Inherited.
Proof. unfold js_get. intros -> Hproto. by rewrite bool_decide_eq_true_2. Qed.

(** C7, as stated, fails: a stored object whose [__typename] is "Dog"
    matches the type condition "Animal" in the heuristic matcher, although
    the two names differ. *)
Lemma heuristic_match_other_type_counterexample :
  truthy (__typename dog) = true /\
  strict_eq_string (__typename dog) "Animal" = false /\
  (heuristic_match true {| id := "Dog:1" |} "Animal" one_dog quiet).1.1 = true.
Proof. repeat split; reflexivity. Qed.

(** C7 (amended): when the stored object carries a type discriminator
    (a truthy [__typename]), the heuristic matcher returns [true] for every
    type condition.  Exact equality of [__typename] with the type condition
    only decides whether the read stays exact: on equality the context is
    left as it was, on any other type condition [returnPartialData] is
    switched on.  No warning is emitted in either case. *)
Theorem heuristic_match_with_typename isTest idValue typeCondition context w obj :
  store context !! id idValue = Some obj ->
  truthy (__typename obj) = true ->
  heuristic_match isTest idValue typeCondition context w =
    (true,
     if strict_eq_string (__typename obj) typeCondition
     then context else set_returnPartialData context,
     w).
Proof.
  intros Hobj Htn. unfold heuristic_match. rewrite (js_get_own _ _ _ Hobj), Htn. simpl.
  destruct (strict_eq_string _ _); reflexivity.
Qed.

Lemma heuristic_match_with_typename_witness :
  heuristic_match false {| id := "Dog:1" |} "Animal" one_dog quiet =
    (true, set_returnPartialData one_dog, quiet).
Proof.
  apply (heuristic_match_with_typename false {| id := "Dog:1" |} "Animal" one_dog quiet dog);
    reflexivity.
Defined.


(** It also fails, for both matchers, when the id is the name of a member
    of [Object.prototype]: the store has no entry of its own for it, yet
    [context.store[id]] finds the inherited member. *)
Example match_inherited_id_run :
  store one_dog !! "constructor" = None /\
  heuristic_match false {| id := "constructor" |} "Animal" one_dog quiet =
    (true, set_returnPartialData one_dog, {| haveWarned := true; warnings := 1 |}) /\
  introspection_match keys_json ready_animals {| id := "constructor" |} "Animal" one_dog =
    Throw (Error "Cannot match fragment because __typename property is missing: undefined").
Proof. repeat split; reflexivity. Qed.



(** *** Further properties of the matchers *)

Lemma indexOf_found_string types t :
  indexOf_found types (VString t) = true <-> t ∈ types.
Proof.
  unfold indexOf_found. rewrite existsb_exists. split.
  - intros (s & Hin & Heq). simpl in Heq. apply String.eqb_eq in Heq as ->.
    by apply list_elem_of_In.
  - intros Hin. exists t. split; [by apply list_elem_of_In|]. simpl. apply String.eqb_refl.
Qed.

(** X1: Once ready, the schema-driven matcher decides a stored object with a
    type name by the schema alone.  When the type condition is the type
    name, has an entry in the possible-types map, or is not the name of a
    member of [Object.prototype], the fragment matches exactly when the
    type name is the type condition or one of the possible types recorded
    for it, and nothing is thrown.  For another type condition that is
    such a name, the map inherits a member that has no [indexOf]: the call
    throws a [TypeError]. *)
Theorem introspection_match_decides JSON_stringify this idValue typeCondition context obj t :
  isReady this = true ->
  store context !! id idValue = Some obj ->
  __typename obj = VString t ->
  t <> "" ->
  (t = typeCondition \/ is_Some (possibleTypesMap this !! typeCondition) \/
   typeCondition ∉ Object_prototype ->
   exists b,
     introspection_match JSON_stringify this idValue typeCondition context = Normal b /\
     (b = true <->
      t = typeCondition \/
      exists types, possibleTypesMap this !! typeCondition = Some types /\ t ∈ types)) /\
  (t <> typeCondition -> possibleTypesMap this !! typeCondition = None ->
   typeCondition ∈ Object_prototype ->
   introspection_match JSON_stringify this idValue typeCondition context
     = Throw not_a_function_error).
Proof.
  intros Hready Hobj Htn Hne. unfold introspection_match.
  rewrite Hready, (js_get_own _ _ _ Hobj), Htn. simpl.
  destruct (String.eqb_spec t "") as [|_]; [done|]. simpl.
  destruct (String.eqb_spec t typeCondition) as [->|Hdiff].
  - split; [|done]. intros _.
    exists true. split; [reflexivity|]. split; [by left | reflexivity].
  - unfold js_get.
    destruct (possibleTypesMap this !! typeCondition) as [types|] eqn:Hmap.
    + split; [|discriminate]. intros _.
      destruct (indexOf_found types (VString t)) eqn:Hfound.
      * exists true. split; [reflexivity|]. split; [|reflexivity].
        intros _. right. exists types. split; [reflexivity|].
        by apply indexOf_found_string.
      * exists false. split; [reflexivity|]. split; [discriminate|].
        intros [? | (types' & [= <-] & Hin)]; [done|].
        apply indexOf_found_string in Hin. congruence.
    + case_bool_decide as Hproto.
      * split; [|reflexivity].
        intros [? | [[? ?] | ?]]; [done | discriminate | done].
      * split; [|done]. intros _.
        exists false. split; [reflexivity|]. split; [discriminate|].
        intros [? | (types' & ? & _)]; done.
Qed.

Lemma introspection_match_decides_witness :
  (exists b,
      introspection_match keys_json ready_animals {| id := "Dog:1" |} "Animal" one_dog
        = Normal b /\
      (b = true <->
       "Dog" = "Animal" \/
       exists types, possibleTypesMap ready_animals !! "Animal" = Some types /\
                     "Dog" ∈ types)) /\
  introspection_match keys_json ready_animals {| id := "Dog:1" |} "toString" one_dog
    = Throw not_a_function_error.
Proof.
  split.
  - apply (introspection_match_decides keys_json ready_animals {| id := "Dog:1" |}
             "Animal" one_dog dog "Dog");
      [reflexivity | reflexivity | reflexivity | discriminate |].
    right. left. by eexists.
  - apply (introspection_match_decides keys_json ready_animals {| id := "Dog:1" |}
             "toString" one_dog dog "Dog");
      [reflexivity | reflexivity | reflexivity | discriminate | discriminate
      | reflexivity |].
    apply (proj1 (bool_decide_eq_true _)). reflexivity.
Defined.

(** X2: The three ways the schema-driven matcher throws, and no other: it is
    used before it is ready; what [context.store[id]] finds has no usable
    [__typename], be it a stored object or a member of [Object.prototype];
    or the stored object is of another type than the type condition and
    the type condition, absent from the possible-types map, names a member
    of [Object.prototype]. *)
Theorem introspection_match_throws JSON_stringify this idValue typeCondition context e :
  introspection_match JSON_stringify this idValue typeCondition context = Throw e <->
  (isReady this = false /\ e = not_initialised_error) \/
  (isReady this = true /\
   exists obj, store context !! id idValue = Some obj /\
               truthy (__typename obj) = false /\
               e = missing_typename_error (JSON_stringify obj)) \/
  (isReady this = true /\
   store context !! id idValue = None /\ id idValue ∈ Object_prototype /\
   e = missing_typename_error (inherited_json (id idValue))) \/
  (isReady this = true /\
   (exists obj, store context !! id idValue = Some obj /\
                truthy (__typename obj) = true /\
                strict_eq_string (__typename obj) typeCondition = false) /\
   possibleTypesMap this !! typeCondition = None /\
   typeCondition ∈ Object_prototype /\
   e = not_a_function_error).
Proof.
  unfold introspection_match, js_get. destruct (isReady this); simpl.
  - destruct (store context !! id idValue) as [obj|] eqn:Hobj.
    + destruct (truthy (__typename obj)) eqn:Htruthy; simpl.
      * destruct (strict_eq_string (__typename obj) typeCondition) eqn:Heq.
        { split; [discriminate|].
          intros [[? _] | [(_ & obj' & [= <-] & ? & _) | [(_ & ? & _)
                 | (_ & (obj' & [= <-] & _ & ?) & _)]]]; congruence. }
        destruct (possibleTypesMap this !! typeCondition) as [types|] eqn:Hmap.
        { split; [destruct (indexOf_found _ _); discriminate|].
          intros [[? _] | [(_ & obj' & [= <-] & ? & _) | [(_ & ? & _)
                 | (_ & _ & ? & _)]]]; congruence. }
        case_bool_decide as Hproto.
        { split.
          - intros [= <-]. right. right. right. eauto 10.
          - intros [[? _] | [(_ & obj' & [= <-] & ? & _) | [(_ & ? & _)
                   | (_ & _ & _ & _ & ->)]]]; congruence. }
        split; [discriminate|].
        intros [[? _] | [(_ & obj' & [= <-] & ? & _) | [(_ & ? & _)
               | (_ & _ & _ & ? & _)]]]; congruence.
      * split.
        -- intros [= <-]. right. left. eauto.
        -- intros [[? _] | [(_ & obj' & [= <-] & _ & ->) | [(_ & ? & _)
                  | (_ & (obj' & [= <-] & ? & _) & _)]]]; congruence.
    + case_bool_decide as Hproto.
      * split.
        -- intros [= <-]. right. right. left. done.
        -- intros [[? _] | [(_ & obj' & ? & _) | [(_ & _ & _ & ->)
                  | (_ & (obj' & ? & _) & _)]]]; congruence.
      * split; [discriminate|].
        intros [[? _] | [(_ & obj' & ? & _) | [(_ & _ & ? & _)
               | (_ & (obj' & ? & _) & _)]]]; congruence.
  - split.
    + intros [= <-]. by left.
    + intros [[_ ->] | [[? _] | [[? _] | [? _]]]]; [reflexivity | discriminate..].
Qed.

Lemma parse_step_lookup (typeMap : PossibleTypesMap) type n :
  (if is_abstract type then <[it_name type := it_possibleTypes type]> typeMap
   else typeMap) !! n =
  if bool_decide (is_abstract type = true /\ it_name type = n)
  then Some (it_possibleTypes type) else typeMap !! n.
Proof.
  destruct (is_abstract type) eqn:Habs.
  - destruct (decide (it_name type = n)) as [<-|Hne].
    + rewrite lookup_insert_eq, bool_decide_eq_true_2; done.
    + rewrite lookup_insert_ne by done. rewrite bool_decide_eq_false_2; [done|].
      intros [_ ?]. done.
  - rewrite bool_decide_eq_false_2; [done|]. intros [? _]. done.
Qed.

(** X3: The possible-types map holds an entry for exactly the UNION and
    INTERFACE types of the schema, under their names; when a name is
    declared more than once the last declaration stands. *)
Theorem parseIntrospectionResult_lookup data n :
  parseIntrospectionResult data !! n =
    it_possibleTypes <$>
      last (filter (fun type => is_abstract type = true /\ it_name type = n)
                   (schema_types data)).
Proof.
  unfold parseIntrospectionResult.
  induction (schema_types data) as [|type types IH] using rev_ind; [reflexivity|].
  rewrite foldl_app. simpl. rewrite parse_step_lookup, filter_app.
  case_bool_decide as Hthis.
  - rewrite filter_cons_True by done. rewrite filter_nil, last_snoc. reflexivity.
  - rewrite filter_cons_False by done. rewrite filter_nil, app_nil_r. exact IH.
Qed.

(** A matcher built with the introspection result is ready; one built
    without it throws on every call. *)
Lemma new_IntrospectionFragmentMatcher_ready JSON_stringify data idValue typeCondition
    context :
  isReady (new_IntrospectionFragmentMatcher (Some data)) = true /\
  possibleTypesMap (new_IntrospectionFragmentMatcher (Some data))
    = parseIntrospectionResult data /\
  introspection_match JSON_stringify (new_IntrospectionFragmentMatcher None)
    idValue typeCondition context
    = Throw not_initialised_error.
Proof. repeat split. Qed.

Lemma heuristic_match_context isTest idValue typeCondition context w :
  let '(b, context', w') := heuristic_match isTest idValue typeCondition context w in
  (b = false <-> store context !! id idValue = None /\ id idValue ∉ Object_prototype) /\
  store context' = store context /\
  (returnPartialData context = true -> returnPartialData context' = true).
Proof.
  unfold heuristic_match, js_get. destruct (store context !! id idValue) as [obj|].
  - destruct (negb _); [|destruct (strict_eq_string _ _)]; simpl;
      repeat split; try done; intros [? _]; done.
  - case_bool_decide as Hproto; simpl; repeat split; try done.
    intros [_ ?]. done.
Qed.

(** X4: The heuristic matcher never throws and only says no when
    [context.store[id]] finds nothing: the id has no entry of its own in
    the store and is not the name of a member of [Object.prototype].  It
    never touches the store, and it only ever switches [returnPartialData]
    on. *)
Theorem heuristic_match_total isTest idValue typeCondition context w :
  ((heuristic_match isTest idValue typeCondition context w).1.1 = false <->
   store context !! id idValue = None /\ id idValue ∉ Object_prototype) /\
  store (heuristic_match isTest idValue typeCondition context w).1.2 = store context /\
  (returnPartialData context = true ->
   returnPartialData (heuristic_match isTest idValue typeCondition context w).1.2 = true).
Proof.
  pose proof (heuristic_match_context isTest idValue typeCondition context w) as Hm.
  destruct (heuristic_match isTest idValue typeCondition context w) as [[b context'] w'].
  exact Hm.
Qed.

Lemma heuristic_match_warns_once idValue typeCondition context w :
  let w' := (heuristic_match false idValue typeCondition context w).2 in
  (haveWarned w = true -> w' = w) /\
  (haveWarned w = false -> w' = w \/ (haveWarned w' = true /\ warnings w' = S (warnings w))).
Proof.
  assert (Hwarn : (haveWarned w = true -> warn_once false w = w) /\
                  (haveWarned w = false ->
                   warn_once false w = w \/
                   (haveWarned (warn_once false w) = true /\
                    warnings (warn_once false w) = S (warnings w)))).
  { unfold warn_once. destruct (haveWarned w) eqn:Hw; simpl.
    - split; [done | discriminate].
    - split; [discriminate|]. intros _. right. by split. }
  unfold heuristic_match, js_get. destruct (store context !! id idValue) as [obj|]; simpl.
  - destruct (negb (truthy _)); [exact Hwarn|].
    destruct (strict_eq_string _ _); simpl; (split; [done | by left]).
  - case_bool_decide; simpl; [exact Hwarn|]. split; [done | by left].
Qed.

(** X5: Outside the test environment the warning about missing type names is
    printed at most once, however many fragments are matched: once it has
    been printed, no call prints it again. *)
Theorem heuristic_warns_at_most_once calls context w :
  let w' := (heuristic_matches false calls context w).2 in
  warnings w' <= S (warnings w) /\
  (haveWarned w = true -> w' = w).
Proof.
  unfold heuristic_matches. revert context w.
  induction calls as [|call calls IH]; intros context w; simpl.
  - split; [lia | done].
  - pose proof (heuristic_match_warns_once call.1 call.2 context w) as [Hwarned Hfresh].
    destruct (heuristic_match false call.1 call.2 context w) as [[b context1] w1].
    simpl in *. specialize (IH context1 w1) as [IHle IHsame].
    destruct (haveWarned w) eqn:Hw.
    + rewrite Hwarned in * by done. split; [exact IHle|]. intros _. apply IHsame, Hw.
    + split; [|discriminate].
      destruct (Hfresh eq_refl) as [-> | [Hnow Hcount]]; [exact IHle|].
      rewrite (IHsame Hnow). lia.
Qed.

Example parse_animal_schema :
  map_to_list (parseIntrospectionResult animal_schema) = [("Animal", ["Dog"; "Cat"])].
Proof. reflexivity. Qed.

End FragmentMatcherFacts.

(** ** Theorems: query manager *)
Module QueryManagerFacts.
Import QueryManager.

(** *** Frame reasoning

    [preserves P m]: whatever [m] does to the manager, and however it
    completes, the manager it leaves is [P]-related to the one it found. *)
Section Preserves.
Context {G : GraphQL} {H : Helpers} {R : Store}.
Variable P : relation QueryManager.
Context {P_pre : PreOrder P}.

Definition preserves {A} (m : M A) : Prop := forall qm, P qm (final (m qm)).

Lemma preserves_ret {A} (a : A) : preserves (ret a).
Proof. intros qm. reflexivity. Qed.

Lemma preserves_throw {A} e : preserves (@throw _ A e).
Proof. intros qm. reflexivity. Qed.

Lemma preserves_get : preserves get.
Proof. intros qm. reflexivity. Qed.

Lemma preserves_call {A} (c : Completion JsError A) : preserves (call c).
Proof. intros qm. unfold call. destruct c; reflexivity. Qed.

Lemma preserves_modify f : (forall qm, P qm (f qm)) -> preserves (modify f).
Proof. intros Hf qm. apply Hf. Qed.

Lemma preserves_bind {A B} (m : M A) (k : A -> M B) :
  preserves m -> (forall a, preserves (k a)) -> preserves (bind m k).
Proof.
  intros Hm Hk qm. unfold bind. specialize (Hm qm).
  destruct (m qm) as [[a qm']|[e qm']]; simpl in *; [|exact Hm].
  etransitivity; [exact Hm | apply Hk].
Qed.

Lemma preserves_try_catch {A} (m : M A) handler :
  preserves m -> (forall e, preserves (handler e)) -> preserves (try_catch m handler).
Proof.
  intros Hm Hh qm. unfold try_catch. specialize (Hm qm).
  destruct (m qm) as [[a qm']|[e qm']]; simpl in *; [exact Hm|].
  etransitivity; [exact Hm | apply Hh].
Qed.

Lemma preserves_forEach {A} (f : A -> M unit) xs :
  (forall x, preserves (f x)) -> preserves (forEach f xs).
Proof.
  intros Hf. induction xs as [|x xs IH]; simpl.
  - apply preserves_ret.
  - apply preserves_bind; [apply Hf | intros _; exact IH].
Qed.
End Preserves.

(** One step of a frame proof; [tac] closes the goals [P qm (f qm)] left
    by the field updates. *)
Ltac unfold_methods :=
  unfold fetchQuery, fetchQueryOverInterface, query, result_of, watchQuery, subscribe,
    unsubscribe, startQuery, stopQuery, resetStore, batcher_settles, interval_fires,
    timeout_fires, on_result, on_error, dispatch, broadcastQueries, listener_call,
    observer_next, observer_error, enqueueRequest, addFetchQueryPromise,
    removeFetchQueryPromise, setInterval, clearInterval, resolve, reject, newPromise,
    mutate, network_settles, broadcastNewStore, stopQueryInStore, getApolloState,
    addQueryListener, removeQueryListener, subscription, stopPolling, startPolling.

Ltac preserves_step tac :=
  lazymatch goal with
  | |- PreOrder _ => typeclasses eauto
  | |- preserves _ (bind _ _) => apply preserves_bind; [| | intros ?]
  | |- preserves _ (ret _) => apply preserves_ret
  | |- preserves _ (throw _) => apply preserves_throw
  | |- preserves _ get => apply preserves_get
  | |- preserves _ (call _) => apply preserves_call
  | |- preserves _ (modify _) => apply preserves_modify; intros ?; tac
  | |- preserves _ (try_catch _ _) => apply preserves_try_catch; [| | intros ?]
  | |- preserves _ (forEach _ _) => apply preserves_forEach; [| intros ?]
  | |- preserves _ (match ?x with _ => _ end) => destruct x
  | |- preserves _ (let _ := _ in _) => cbv zeta
  | |- preserves _ ((fun _ => _) _) => cbv beta
  | |- preserves _ generateRequestId =>
      intros ?; cbv [generateRequestId bind get modify ret final]; tac
  | |- preserves _ generateQueryId =>
      intros ?; cbv [generateQueryId bind get modify ret final]; tac
  | |- preserves _ _ => progress unfold_methods
  end.

Ltac preserves_tac tac := repeat preserves_step tac.

Section Facts.
Context {G : GraphQL} {H : Helpers} {R : Store}.

(** **** Frames *)

(** The id counter never decreases. *)
Definition counter_le : relation QueryManager :=
  fun qm qm' => (idCounter qm <= idCounter qm')%N.

#[local] Instance counter_le_pre : PreOrder counter_le.
Proof. split; [intros qm; unfold counter_le; lia | intros a b c; unfold counter_le; lia]. Qed.

Lemma api_counter_le {A} (m : M A) : api m -> preserves counter_le m.
Proof.
  intros Hm.
  destruct Hm;
    preserves_tac ltac:(unfold counter_le, js_increment; simpl;
                        try destruct (_ <? _)%N; lia).
Qed.

(** Nothing is handed to the batcher and the fetch-promise table is
    left alone. *)
Definition quiet_network : relation QueryManager :=
  fun qm qm' =>
    requests qm' = requests qm /\ inflight qm' = inflight qm /\
    fetchQueryPromises qm' = fetchQueryPromises qm.

#[local] Instance quiet_network_pre : PreOrder quiet_network.
Proof.
  split.
  - intros qm. repeat split.
  - intros a b c (?&?&?) (?&?&?). repeat split; congruence.
Qed.

Lemma requests_log e qm :
  requests (log e qm) =
    requests qm ++ match e with Enqueue r => [r] | _ => [] end.
Proof. unfold requests. simpl. rewrite omap_app. destruct e; reflexivity. Qed.

Ltac quiet_network_tac :=
  unfold quiet_network, requests; simpl; rewrite ?omap_app; simpl;
  rewrite ?app_nil_r; repeat split; reflexivity.

Lemma dispatch_quiet_network a : preserves quiet_network (dispatch a).
Proof. preserves_tac quiet_network_tac. Qed.

(** The store is only changed by the reducer. *)
Definition same_store : relation QueryManager :=
  fun qm qm' =>
    storeState qm' = storeState qm /\ currentStoreData qm' = currentStoreData qm /\
    queryListeners qm' = queryListeners qm /\ idCounter qm' = idCounter qm /\
    inflight qm' = inflight qm /\ fetchQueryPromises qm' = fetchQueryPromises qm.

#[local] Instance same_store_pre : PreOrder same_store.
Proof.
  split.
  - intros qm. repeat split.
  - intros a b c (?&?&?&?&?&?) (?&?&?&?&?&?). repeat split; congruence.
Qed.

Lemma broadcastQueries_same_store : preserves same_store broadcastQueries.
Proof. preserves_tac ltac:(repeat split). Qed.

(** A settled promise stays as it is. *)
Definition settled_stable : relation QueryManager :=
  fun qm qm' =>
    forall p s, promises qm !! p = Some s -> s <> Pending -> promises qm' !! p = Some s.

#[local] Instance settled_stable_pre : PreOrder settled_stable.
Proof.
  split.
  - intros qm p s Hp _. exact Hp.
  - intros a b c Hab Hbc p s Hp Hs. apply Hbc; [apply Hab|]; assumption.
Qed.

Lemma settle_stable p s ps q s' :
  ps !! q = Some s' -> s' <> Pending -> settle p s ps !! q = Some s'.
Proof.
  intros Hq Hs'. unfold settle.
  destruct (ps !! p) as [[]|] eqn:Hp; try exact Hq.
  destruct (decide (p = q)) as [->|Hne]; [congruence|].
  rewrite list_lookup_insert_ne; assumption.
Qed.

Ltac settled_stable_tac :=
  unfold settled_stable; intros ? ? ? ?; simpl;
  first [ assumption
        | apply settle_stable; assumption
        | apply lookup_app_l_Some; assumption ].

Lemma stopQuery_settled_stable queryId : preserves settled_stable (stopQuery queryId).
Proof. preserves_tac settled_stable_tac. Qed.

Lemma dispatch_settled_stable a : preserves settled_stable (dispatch a).
Proof. preserves_tac settled_stable_tac. Qed.

(** The trace only grows. *)
Definition trace_ext : relation QueryManager :=
  fun qm qm' => exists t, trace qm' = trace qm ++ t.

#[local] Instance trace_ext_pre : PreOrder trace_ext.
Proof.
  split.
  - intros qm. exists []. by rewrite app_nil_r.
  - intros a b c [t Hab] [t' Hbc]. exists (t ++ t'). by rewrite Hbc, Hab, app_assoc.
Qed.

Ltac trace_ext_tac :=
  unfold trace_ext; simpl;
  first [ by eexists [_] | exists []; by rewrite app_nil_r ].

Lemma api_trace_ext {A} (m : M A) : api m -> preserves trace_ext m.
Proof. intros Hm. destruct Hm; preserves_tac trace_ext_tac. Qed.

Lemma stopQuery_trace_ext queryId : preserves trace_ext (stopQuery queryId).
Proof. preserves_tac trace_ext_tac. Qed.

Lemma broadcastQueries_trace_ext : preserves trace_ext broadcastQueries.
Proof. preserves_tac trace_ext_tac. Qed.

(** **** Small computations *)

Lemma final_bind {A B} (m : M A) (k : A -> M B) qm :
  final (bind m k qm) =
    match m qm with
    | Normal (a, qm') => final (k a qm')
    | Throw (_, qm') => qm'
    end.
Proof. unfold bind. destruct (m qm) as [[a qm']|[e qm']]; reflexivity. Qed.

Lemma settle_fresh ps s : settle (length ps) s (ps ++ [Pending]) = ps ++ [s].
Proof.
  unfold settle. rewrite list_lookup_middle by reflexivity.
  rewrite insert_app_r_alt by lia. by rewrite Nat.sub_diag.
Qed.

Lemma dispatch_no_listeners a qm :
  queryListeners qm = ∅ ->
  dispatch a qm =
    Normal (tt, set_store (reducer (storeState qm) a) (Some (reducer (storeState qm) a))
                  (log (Dispatch a) qm)).
Proof.
  intros Hl. unfold dispatch, broadcastQueries. cbv [bind get modify]. simpl.
  destruct (currentStoreData qm); [case_bool_decide|]; try reflexivity;
    simpl; rewrite Hl, map_to_list_empty; reflexivity.
Qed.

Lemma dispatch_trace a qm :
  exists t, trace (final (dispatch a qm)) = trace qm ++ Dispatch a :: t.
Proof.
  unfold dispatch. cbv [bind get modify].
  set (qm1 := set_store _ _ _).
  assert (Hqm1 : trace qm1 = trace qm ++ [Dispatch a]) by reflexivity.
  assert (Hb : exists t, trace (final (broadcastQueries qm1)) = trace qm ++ Dispatch a :: t).
  { destruct (broadcastQueries_trace_ext qm1) as [t Ht].
    exists t. rewrite Ht, Hqm1, <- app_assoc. reflexivity. }
  destruct (currentStoreData qm); [case_bool_decide|]; try exact Hb.
  exists []. exact Hqm1.
Qed.

(** **** C9 *)

(** C9: [query(options)] throws its usage error synchronously whenever
    [options.returnPartialData] is set, whatever the query document, and
    before anything else happens: the manager is left as it was.
    [watchQuery] accepts the same options for every document that holds
    a query definition. *)
Theorem query_returnPartialData_throws (qm : QueryManager) (options : WatchQueryOptions) :
  opt_returnPartialData options = true ->
  query options qm =
    Throw (Error "returnPartialData option only supported on watchQuery.", qm) /\
  (forall queryDef, getQueryDefinition (opt_query options) = Normal queryDef ->
     watchQuery options qm = Normal ({| oq_options := options |}, qm)).
Proof.
  intros Hrpd. split.
  - unfold query. rewrite Hrpd. reflexivity.
  - intros queryDef Hdef. unfold watchQuery, bind, call. rewrite Hdef. reflexivity.
Qed.

(** **** C1 *)

(** What [fetchQuery] comes down to when the diff finds nothing missing. *)
Definition fetch_cached (queryId : QueryId) (options : WatchQueryOptions)
    (queryDef : OperationDefinition) (cached : GraphQLResult) : M PromiseHandle :=
  let transformedQuery := replaceOperationDefinition (opt_query options) queryDef in
  let querySS := root_query (op_selectionSet queryDef) in
  bind generateRequestId (fun requestId =>
  bind (dispatch (APOLLO_QUERY_INIT (print transformedQuery) querySS None None
                    (opt_variables options) false (opt_returnPartialData options)
                    queryId requestId (createFragmentMap transformedQuery))) (fun _ =>
  bind (dispatch (APOLLO_QUERY_RESULT_CLIENT cached (opt_variables options) querySS
                    false queryId)) (fun _ =>
  bind newPromise (fun p =>
  bind (resolve p cached) (fun _ => ret p))))).

Lemma fetchQuery_cached_eq qm queryId options queryDef0 :
  opt_forceFetch options = false ->
  getQueryDefinition (opt_query options) = Normal queryDef0 ->
  nothing_missing (store_diff qm options queryDef0) ->
  fetchQuery queryId options qm =
    fetch_cached queryId options (transformed qm queryDef0)
      {| data := Some (result (store_diff qm options queryDef0)); errors := None |} qm.
Proof.
  intros Hforce Hdef Hmissing.
  unfold fetchQuery, fetchQueryOverInterface, fetch_cached, store_diff, transformed in *.
  cbv [bind call get ret]. rewrite Hdef, Hforce. simpl.
  destruct Hmissing as [-> | ->]; reflexivity.
Qed.

Lemma fetch_cached_quiet queryId options queryDef cached :
  preserves quiet_network (fetch_cached queryId options queryDef cached).
Proof. unfold fetch_cached. preserves_tac quiet_network_tac. Qed.

(** C1: a [fetchQuery] without [forceFetch] whose diff against the store
    finds no missing selection set issues no network request at all: no
    request reaches the batcher and no pending promise is recorded,
    however the call completes.  The promise it returns is already
    resolved with the result the diff assembled from the store.  The
    call does return unless a listener throws while the two bookkeeping
    actions are broadcast; with no listener registered it always
    returns. *)
Theorem fetchQuery_cached_no_network qm queryId options queryDef0 :
  opt_forceFetch options = false ->
  getQueryDefinition (opt_query options) = Normal queryDef0 ->
  nothing_missing (store_diff qm options queryDef0) ->
  let cached := {| data := Some (result (store_diff qm options queryDef0));
                   errors := None |} in
  let outcome := fetchQuery queryId options qm in
  (requests (final outcome) = requests qm /\
   inflight (final outcome) = inflight qm /\
   fetchQueryPromises (final outcome) = fetchQueryPromises qm) /\
  (forall p qm', outcome = Normal (p, qm') -> promises qm' !! p = Some (Resolved cached)) /\
  (queryListeners qm = ∅ -> exists p qm', outcome = Normal (p, qm')).
Proof.
  intros Hforce Hdef Hmissing cached outcome. subst outcome.
  rewrite (fetchQuery_cached_eq _ _ _ _ Hforce Hdef Hmissing). fold cached.
  split; [apply fetch_cached_quiet|]. split.
  - intros p qm'. unfold fetch_cached. cbv [bind].
    destruct (generateRequestId qm) as [[requestId qm1]|]; [|discriminate].
    destruct (dispatch _ qm1) as [[[] qm2]|]; [|discriminate].
    destruct (dispatch _ qm2) as [[[] qm3]|]; [|discriminate].
    cbv [newPromise resolve bind get modify ret]. intros [= <- <-]. simpl.
    rewrite settle_fresh. apply list_lookup_middle. reflexivity.
  - intros Hl. unfold fetch_cached.
    cbv [bind generateRequestId get modify ret].
    rewrite dispatch_no_listeners by exact Hl.
    rewrite dispatch_no_listeners by exact Hl.
    cbv [newPromise resolve bind get modify ret]. eauto.
Qed.

(** **** C4 and C5: resetStore *)

(** The first loop of [resetStore]: one [console.log] and one [reject]
    per entry of the fetch-promise table. *)
Definition reject_entry (qm : QueryManager) (entry : QueryId * PromiseHandle)
  : QueryManager :=
  log (Reject entry.2 store_reset_error)
    (set_promises (settle entry.2 (Rejected store_reset_error))
       (log (ConsoleLog entry.1) qm)).

Definition rejections (entries : list (QueryId * PromiseHandle)) : list Event :=
  flat_map (fun entry => [ConsoleLog entry.1; Reject entry.2 store_reset_error]) entries.

(** The rest of [resetStore]. *)
Definition stop_and_reset : M unit :=
  bind get (fun this =>
  bind (forEach stopQuery (map_to_list (queryListeners this)).*1) (fun _ =>
  dispatch APOLLO_STORE_RESET)).

Lemma resetStore_eq qm :
  resetStore qm =
    stop_and_reset (foldl reject_entry qm (map_to_list (fetchQueryPromises qm))).
Proof.
  unfold resetStore. cbv [bind get]. fold stop_and_reset.
  generalize (map_to_list (fetchQueryPromises qm)) as entries.
  intros entries. revert qm. induction entries as [|[key p] entries IH]; intros qm.
  - reflexivity.
  - simpl. cbv [bind modify reject]. simpl. apply IH.
Qed.

Lemma reject_entries_trace entries qm :
  trace (foldl reject_entry qm entries) = trace qm ++ rejections entries.
Proof.
  revert qm. induction entries as [|entry entries IH]; intros qm; simpl.
  - by rewrite app_nil_r.
  - rewrite IH. simpl. by rewrite <- !app_assoc.
Qed.

Lemma reject_entries_stable entries qm :
  settled_stable qm (foldl reject_entry qm entries).
Proof.
  revert qm. induction entries as [|entry entries IH]; intros qm; simpl.
  - reflexivity.
  - etransitivity; [|apply IH].
    intros p s Hp Hs. simpl. by apply settle_stable.
Qed.

Lemma reject_entries_rejected entries qm key p :
  (key, p) ∈ entries ->
  promises qm !! p = Some Pending ->
  promises (foldl reject_entry qm entries) !! p = Some (Rejected store_reset_error).
Proof.
  revert qm. induction entries as [|entry entries IH]; intros qm Hin Hp.
  - by apply elem_of_nil in Hin.
  - simpl.
    assert (Hnow : (key, p) = entry ->
                   promises (reject_entry qm entry) !! p
                     = Some (Rejected store_reset_error)).
    { intros <-. simpl. unfold settle. rewrite Hp.
      apply list_lookup_insert_eq. by eapply lookup_lt_Some. }
    apply elem_of_cons in Hin as [Heq | Hin].
    + apply reject_entries_stable; [by apply Hnow | discriminate].
    + destruct (decide (entry.2 = p)) as [Hsame | Hdiff].
      * apply reject_entries_stable; [|discriminate].
        destruct entry as [key' p']. simpl in Hsame. subst p'.
        simpl. unfold settle. rewrite Hp.
        apply list_lookup_insert_eq. by eapply lookup_lt_Some.
      * apply IH; [exact Hin|]. simpl. unfold settle.
        destruct (promises qm !! entry.2) as [[]|]; try exact Hp.
        by rewrite list_lookup_insert_ne.
Qed.

Lemma stop_and_reset_settled_stable : preserves settled_stable stop_and_reset.
Proof. unfold stop_and_reset. preserves_tac settled_stable_tac. Qed.

Lemma stop_and_reset_trace qm :
  exists rest,
    trace (final (stop_and_reset qm)) = trace qm ++ rest /\
    forall qm', stop_and_reset qm = Normal (tt, qm') ->
                Dispatch APOLLO_STORE_RESET ∈ rest.
Proof.
  unfold stop_and_reset. cbv [bind get].
  pose proof (preserves_forEach trace_ext stopQuery
                (map_to_list (queryListeners qm)).*1 stopQuery_trace_ext qm) as [t1 Ht1].
  destruct (forEach stopQuery _ qm) as [[[] qm1]|[e qm1]]; simpl in *.
  - destruct (dispatch_trace APOLLO_STORE_RESET qm1) as [t2 Ht2].
    exists (t1 ++ Dispatch APOLLO_STORE_RESET :: t2). split.
    + rewrite Ht2, Ht1. by rewrite <- app_assoc.
    + intros _ _. apply elem_of_app. right. apply elem_of_cons. by left.
  - exists t1. split; [exact Ht1 | discriminate].
Qed.

(** C4: [resetStore] rejects every outstanding promise recorded in the
    fetch-promise table with the "store reset" error.  The promises to
    reject are those of the table as it is when [resetStore] is entered,
    and all rejections come first: whatever else [resetStore] does,
    including every dispatch and in particular the store-clearing
    action, follows them in the trace.  This holds however the call
    completes. *)
Theorem resetStore_rejects_outstanding (qm : QueryManager) :
  let qm' := final (resetStore qm) in
  (forall queryId p,
      fetchQueryPromises qm !! queryId = Some p ->
      promises qm !! p = Some Pending ->
      promises qm' !! p = Some (Rejected store_reset_error)) /\
  (exists rest,
      trace qm' =
        trace qm ++ rejections (map_to_list (fetchQueryPromises qm)) ++ rest /\
      (forall qm'', resetStore qm = Normal (tt, qm'') ->
                    Dispatch APOLLO_STORE_RESET ∈ rest)).
Proof.
  intros qm'. subst qm'. rewrite resetStore_eq.
  set (entries := map_to_list (fetchQueryPromises qm)).
  set (qm1 := foldl reject_entry qm entries).
  split.
  - intros queryId p Hentry Hpending.
    apply stop_and_reset_settled_stable; [|discriminate].
    apply (reject_entries_rejected entries qm queryId p); [|exact Hpending].
    by apply elem_of_map_to_list.
  - destruct (stop_and_reset_trace qm1) as (rest & Hrest & Hreset).
    exists rest. split; [|exact Hreset].
    rewrite Hrest. unfold qm1. rewrite reject_entries_trace.
    by rewrite <- app_assoc.
Qed.

Lemma resetStore_quiet_network : preserves quiet_network resetStore.
Proof. preserves_tac quiet_network_tac. Qed.

(** [resetStore] refetches nothing: it hands no request to the batcher. *)
Lemma resetStore_no_refetch (qm : QueryManager) :
  requests (final (resetStore qm)) = requests qm /\
  inflight (final (resetStore qm)) = inflight qm.
Proof. destruct (resetStore_quiet_network qm) as (? & ? & _). by split. Qed.

(** **** The store after a dispatch *)

Lemma dispatch_final a qm :
  same_store
    (set_store (reducer (storeState qm) a) (Some (reducer (storeState qm) a))
       (log (Dispatch a) qm))
    (final (dispatch a qm)).
Proof.
  unfold dispatch. cbv [bind get modify].
  destruct (currentStoreData qm); [case_bool_decide|];
    first [reflexivity | apply broadcastQueries_same_store].
Qed.

Lemma dispatch_inv a qm c :
  dispatch a qm = c ->
  storeState (final c) = reducer (storeState qm) a /\
  currentStoreData (final c) = Some (storeState (final c)) /\
  idCounter (final c) = idCounter qm /\
  inflight (final c) = inflight qm.
Proof.
  intros <-. destruct (dispatch_final a qm) as (Hst & Hcur & _ & Hid & Hin & _).
  rewrite Hst, Hcur, Hid, Hin. repeat split.
Qed.

Lemma steps_counter_le qm qm' : rtc step qm qm' -> counter_le qm qm'.
Proof.
  induction 1 as [|qm qm1 qm2 Hstep _ IH]; [reflexivity|].
  etransitivity; [|exact IH].
  destruct Hstep as [A m qm Hm]. by apply api_counter_le.
Qed.

End Facts.

(** *** With the reducer of the store *)
Section Staleness.
Context {G : GraphQL} {H : Helpers} {W : CacheWriter}.
#[local] Existing Instance apolloStore.

Lemma apolloReducer_cache st a :
  match a with
  | APOLLO_QUERY_RESULT _ _ _ | APOLLO_STORE_RESET | APOLLO_MUTATION_RESULT _ _ => True
  | _ => cache (apolloReducer st a) = cache st
  end.
Proof.
  destruct a; simpl; try done.
  - destruct (queries st !! queryId); reflexivity.
  - destruct (queries st !! queryId) as [v|]; [|reflexivity].
    destruct (negb _); reflexivity.
Qed.

Lemma apolloReducer_lastRequestId st a queryId v :
  queries st !! queryId = Some v ->
  match a with
  | APOLLO_QUERY_INIT _ _ _ _ _ _ _ _ _ _ | APOLLO_QUERY_STOP _ => True
  | _ =>
      exists v', queries (apolloReducer st a) !! queryId = Some v' /\
                 qsv_lastRequestId v' = qsv_lastRequestId v
  end.
Proof.
  intros Hv.
  destruct a as [| ? ? ? ? queryId' | ? queryId' ? | ? queryId' ? | | | |? mutationId];
    simpl; try done; try by eauto.
  4: { destruct (mutations st !! mutationId); simpl; eauto. }
  all: destruct (decide (queryId' = queryId)) as [->|Hne].
  all: try (rewrite Hv).
  all: try (destruct (queries st !! queryId') as [v0|] eqn:Hv0; [|by eauto]).
  all: repeat match goal with |- context [if ?b then _ else _] => destruct b end.
  all: simpl; rewrite ?lookup_insert_eq, ?lookup_insert_ne by done; eauto.
Qed.

(** The bookkeeping of a query once a response without errors to its
    latest request has been reduced. *)
Definition after_result (st : ApolloState) (queryId : QueryId) (v : QueryStoreValue)
    (result : GraphQLResult) : ApolloState :=
  {| queries := <[queryId := settled v false None None]> (queries st);
     mutations := mutations st;
     cache := writeSelectionSetToStore (cache st)
                (default (qsv_query v) (qsv_minimizedQuery v))
                (qsv_variables v) (qsv_fragmentMap v) (data result) |}.

Lemma reduce_fresh st queryId v result requestId :
  queries st !! queryId = Some v ->
  requestId = qsv_lastRequestId v ->
  graphQLResultHasError result = false ->
  apolloReducer st (APOLLO_QUERY_RESULT result queryId requestId)
    = after_result st queryId v result.
Proof. intros Hv -> Hok. simpl. by rewrite Hv, N.eqb_refl, Hok. Qed.

Lemma reduce_stale st queryId v result requestId :
  queries st !! queryId = Some v ->
  requestId <> qsv_lastRequestId v ->
  apolloReducer st (APOLLO_QUERY_RESULT result queryId requestId) = st.
Proof.
  intros Hv Hstale. simpl. rewrite Hv.
  by destruct (N.eqb_spec requestId (qsv_lastRequestId v)).
Qed.

(** What a [fetchQuery] that returns leaves behind. *)
Lemma fetchQuery_inv qm queryId options p qm' :
  fetchQuery queryId options qm = Normal (p, qm') ->
  idCounter qm' = js_increment (idCounter qm) /\
  (exists v, queries (storeState qm') !! queryId = Some v /\
             qsv_lastRequestId v = idCounter qm /\
             (inflight qm' <> inflight qm -> qsv_loading v = true)) /\
  currentStoreData qm' = Some (storeState qm') /\
  queryListeners qm' = queryListeners qm /\
  (inflight qm' = inflight qm \/
   exists f, inflight qm' = inflight qm ++ [f] /\ if_requestId f = idCounter qm /\
             fr_queryId (if_request f) = queryId /\ if_promise f = p).
Proof.
  unfold fetchQuery, fetchQueryOverInterface.
  cbv [bind call get ret generateRequestId modify].
  destruct (getQueryDefinition (opt_query options)) as [queryDef0|]; [|discriminate].
  set (queryDef := match queryTransformer qm with Some _ => _ | None => _ end).
  destruct (negb (opt_forceFetch options)).
  all: try destruct (missingSelectionSets _) as [[|m ms]|].
  all: try (destruct (getQueryDefinition (queryDocument _ _ _)); [|discriminate]).
  all: simpl.
  all: match goal with
       | |- context [dispatch ?a ?q] =>
           pose proof (dispatch_inv a q _ eq_refl) as (Hst1 & Hcur1 & Hid1 & Hin1);
           destruct (dispatch_final a q) as (_ & _ & Hl1 & _);
           destruct (dispatch a q) as [[[] qm1]|]; [|discriminate]
       end.
  all: simpl in Hst1, Hcur1, Hid1, Hin1, Hl1.
  all: assert (Hv1 : exists v, queries (storeState qm1) !! queryId = Some v /\
                               qsv_lastRequestId v = idCounter qm /\
                               qsv_loading v = true)
         by (rewrite Hst1; simpl; rewrite lookup_insert_eq; eauto).
  all: try match goal with
       | |- context [if ?b then _ else _] => destruct b
       end.
  all: try match goal with
       | |- context [dispatch ?a ?q] =>
           pose proof (dispatch_inv a q _ eq_refl) as (Hst2 & Hcur2 & Hid2 & Hin2);
           destruct (dispatch_final a q) as (_ & _ & Hl2 & _);
           destruct Hv1 as (v1 & Hv1 & Hlast1 & Hload1);
           assert (Hv2 : exists v2, queries (reducer (storeState q) a) !! queryId
                                      = Some v2 /\
                                    qsv_lastRequestId v2 = qsv_lastRequestId v1 /\
                                    match a with
                                    | APOLLO_QUERY_RESULT_CLIENT _ _ _ complete _ =>
                                        qsv_loading v2 = complete
                                    | _ => True
                                    end)
             by (simpl; rewrite Hv1; simpl; rewrite lookup_insert_eq; eauto);
           destruct Hv2 as (v2 & Hv2 & Hlast2 & Hload2);
           destruct (dispatch a q) as [[[] qm2]|]; [|discriminate];
           simpl in Hst2, Hcur2, Hid2, Hin2, Hl2
       end.
  all: cbv [newPromise resolve addFetchQueryPromise enqueueRequest bind get modify ret].
  all: intros [= <- <-]; simpl.
  all: repeat match goal with |- _ /\ _ => split end; try congruence.
  all: try (rewrite Hst2; eexists; split; [exact Hv2|]; split; [congruence|]).
  all: try (destruct Hv1 as (v1 & Hv1 & Hlast1 & Hload1);
            eexists; split; [exact Hv1|]; split; [congruence|]).
  all: try (intros _; first [congruence | exact Hload2]).
  all: try (intros Hch; exfalso; apply Hch; congruence).
  all: try (left; congruence).
  all: try (right; eexists; split; [by rewrite ?Hin2, ?Hin1|]; simpl; repeat split).
Qed.

(** The [.catch] handler leaves the cached data as it finds it. *)
Lemma on_error_cache f error qm :
  cache (storeState (final (on_error f error qm))) = cache (storeState qm).
Proof.
  unfold on_error. rewrite final_bind.
  set (a := APOLLO_QUERY_ERROR _ _ _).
  pose proof (dispatch_inv a qm _ eq_refl) as (Hst & _).
  destruct (dispatch a qm) as [[[] qm1]|[e qm1]]; simpl in *; rewrite Hst.
  all: apply (apolloReducer_cache (storeState qm) a).
Qed.

(** **** What reaches the subscriber of a query *)

(** The results handed to [observer.next] of the subscriber of a
    query, in order. *)
Definition deliveries (queryId : QueryId) (events : list Event) : list GraphQLResult :=
  omap (fun e => match e with
                 | ObserverNext k value =>
                     if decide (k = queryId) then Some value else None
                 | _ => None
                 end) events.

Lemma deliveries_app queryId t t' :
  deliveries queryId (t ++ t') = deliveries queryId t ++ deliveries queryId t'.
Proof. apply omap_app. Qed.

Definition no_delivery (queryId : QueryId) : relation QueryManager :=
  fun q q' => exists t, trace q' = trace q ++ t /\ deliveries queryId t = [].

#[local] Instance no_delivery_pre queryId : PreOrder (no_delivery queryId).
Proof.
  split.
  - intros q. exists []. split; [by rewrite app_nil_r | reflexivity].
  - intros a b c (t & Ht & Hd) (t' & Ht' & Hd'). exists (t ++ t').
    split; [by rewrite Ht', Ht, app_assoc|]. by rewrite deliveries_app, Hd, Hd'.
Qed.

Ltac no_delivery_tac :=
  unfold no_delivery; simpl;
  first [ exists []; split; [by rewrite app_nil_r | reflexivity]
        | eexists [_]; split; [reflexivity|]; simpl;
          rewrite ?decide_False by done; reflexivity ].

(** The listener of another query hands nothing to this subscriber. *)
Lemma listener_call_other queryId k l sv :
  k <> queryId -> preserves (no_delivery queryId) (listener_call k l sv).
Proof. intros Hne. preserves_tac no_delivery_tac. Qed.

#[local] Existing Instance same_store_pre.

Lemma listener_call_same_store k l sv : preserves same_store (listener_call k l sv).
Proof. preserves_tac ltac:(repeat split). Qed.

(** The listener of a query that is settled without errors hands the
    data read from the store to its subscriber. *)
Lemma listener_call_delivers queryId l has_error v d q0 :
  l_observer l = Subscriber true has_error ->
  qsv_loading v = false -> qsv_graphQLErrors v = None -> qsv_networkError v = None ->
  readSelectionSetFromStore (cache (storeState q0)) (id (qsv_query v))
    (selectionSet (qsv_query v)) (qsv_variables v) (l_returnPartialData l)
    (qsv_fragmentMap v) = Normal d ->
  listener_call queryId l (Some v) q0 =
    Normal (tt, log (ObserverNext queryId {| data := Some d; errors := None |}) q0).
Proof.
  intros Hobs Hload Hgraph Hnet Hread. unfold listener_call.
  rewrite Hload, Hgraph, Hnet. simpl. cbv [bind get call]. rewrite Hread.
  unfold observer_next. rewrite Hobs. reflexivity.
Qed.

(** [returns st k l]: on the store state [st], the listener [l] of
    query [k] returns. *)
Definition returns (st : ApolloState) (k : QueryId) (l : QueryListener) : Prop :=
  forall q0, storeState q0 = st ->
    exists q1, listener_call k l (queries st !! k) q0 = Normal (tt, q1).

(** A broadcast in which every listener returns reaches every
    listener: the subscriber of the query is handed its result once. *)
Lemma broadcast_loop (body : QueryId * QueryListener -> M unit) queryId l value st :
  (forall k l0 q, body (k, l0) q = listener_call k l0 (queries (storeState q) !! k) q) ->
  (forall q0, storeState q0 = st ->
     listener_call queryId l (queries st !! queryId) q0 =
       Normal (tt, log (ObserverNext queryId value) q0)) ->
  forall xs,
    NoDup xs.*1 ->
    (forall k l0, (k, l0) ∈ xs -> if decide (k = queryId) then l0 = l else returns st k l0) ->
    forall q0, storeState q0 = st ->
      exists q1,
        forEach body xs q0 = Normal (tt, q1) /\ same_store q0 q1 /\
        exists t, trace q1 = trace q0 ++ t /\
                  deliveries queryId t =
                    if bool_decide (queryId ∈ xs.*1) then [value] else [].
Proof.
  intros Hbody Hown. induction xs as [|[k l0] xs IH]; intros Hnodup Hxs q0 Hst.
  - exists q0. split; [reflexivity|]. split; [reflexivity|].
    exists []. split; [by rewrite app_nil_r|].
    rewrite bool_decide_eq_false_2; [reflexivity | apply not_elem_of_nil].
  - simpl in Hnodup. apply NoDup_cons in Hnodup as [Hk Hnodup].
    assert (Hrest : forall k' l', (k', l') ∈ xs ->
              if decide (k' = queryId) then l' = l else returns st k' l').
    { intros k' l' Hin. apply Hxs, elem_of_cons. by right. }
    pose proof (Hxs k l0 ltac:(apply elem_of_cons; by left)) as Hhead.
    simpl. unfold bind at 1. rewrite Hbody, Hst.
    destruct (decide (k = queryId)) as [->|Hne].
    + subst l0. rewrite (Hown q0 Hst).
      destruct (IH Hnodup Hrest (log (ObserverNext queryId value) q0) Hst)
        as (q1 & Hloop & Hsame & t & Ht & Hd).
      exists q1. split; [exact Hloop|]. split.
      { etransitivity; [|exact Hsame]. repeat split. }
      exists (ObserverNext queryId value :: t). split.
      { rewrite Ht. simpl. by rewrite <- app_assoc. }
      simpl. rewrite decide_True by done. rewrite Hd.
      rewrite (bool_decide_eq_false_2 (queryId ∈ xs.*1)) by done.
      rewrite bool_decide_eq_true_2; [reflexivity | apply elem_of_cons; by left].
    + destruct (Hhead q0 Hst) as (q1' & Hcall).
      pose proof (listener_call_same_store k l0 (queries st !! k) q0) as Hsame'.
      pose proof (listener_call_other queryId k l0 (queries st !! k) Hne q0)
        as (t' & Ht' & Hd').
      rewrite Hcall in Hsame', Ht'. simpl in Hsame', Ht'. rewrite Hcall.
      assert (Hst' : storeState q1' = st) by (destruct Hsame' as (-> & _); exact Hst).
      destruct (IH Hnodup Hrest q1' Hst') as (q1 & Hloop & Hsame & t & Ht & Hd).
      exists q1. split; [exact Hloop|]. split; [by etransitivity|].
      exists (t' ++ t). split; [by rewrite Ht, Ht', app_assoc|].
      rewrite deliveries_app, Hd', Hd. simpl.
      destruct (decide (queryId ∈ xs.*1)) as [Hin|Hnin].
      * rewrite !bool_decide_eq_true_2; [reflexivity | by apply elem_of_cons; right | done].
      * rewrite !bool_decide_eq_false_2; [reflexivity | | done].
        intros [?|?]%elem_of_cons; done.
Qed.

(** A dispatch that changes the store, with every listener returning. *)
Lemma dispatch_delivers a q st queryId l value :
  reducer (storeState q) a = st ->
  currentStoreData q = Some (storeState q) ->
  st <> storeState q ->
  queryListeners q !! queryId = Some l ->
  (forall q0, storeState q0 = st ->
     listener_call queryId l (queries st !! queryId) q0 =
       Normal (tt, log (ObserverNext queryId value) q0)) ->
  (forall k l0, queryListeners q !! k = Some l0 -> k <> queryId -> returns st k l0) ->
  exists q1,
    dispatch a q = Normal (tt, q1) /\
    storeState q1 = st /\ currentStoreData q1 = Some st /\
    queryListeners q1 = queryListeners q /\
    exists t, trace q1 = trace q ++ Dispatch a :: t /\ deliveries queryId t = [value].
Proof.
  intros Hred Hcur Hchange Hl Hown Hothers.
  unfold dispatch. cbv [bind get modify]. rewrite Hcur, Hred.
  rewrite bool_decide_eq_false_2 by (intros Heq; by apply Hchange).
  set (q' := set_store st (Some st) (log (Dispatch a) q)).
  unfold broadcastQueries. cbv [bind get].
  destruct (broadcast_loop
              (fun '(queryId, listener) =>
                 bind get (fun qm' =>
                   listener_call queryId listener
                     (queries (storeState qm') !! queryId)))
              queryId l value st ltac:(reflexivity) Hown
              (map_to_list (queryListeners q'))
              (NoDup_fst_map_to_list _)) with (q0 := q')
    as (q1 & Hloop & Hsame & t & Ht & Hd).
  { intros k l0 Hin. apply elem_of_map_to_list in Hin. simpl in Hin.
    destruct (decide (k = queryId)) as [->|Hne]; [congruence | by eapply Hothers]. }
  { reflexivity. }
  exists q1. split; [exact Hloop|].
  destruct Hsame as (Hst & Hcur' & Hl' & _).
  split; [by rewrite Hst|]. split; [by rewrite Hcur'|]. split; [by rewrite Hl'|].
  exists t. split; [rewrite Ht; simpl; by rewrite <- app_assoc|].
  rewrite Hd. rewrite bool_decide_eq_true_2; [reflexivity|].
  apply list_elem_of_fmap. exists (queryId, l). split; [reflexivity|].
  by apply elem_of_map_to_list.
Qed.

(** A response whose request id is not the latest of its query: the
    reducer discards it, no listener is called, and the promise of the
    superseded fetch is resolved from the store as it stands. *)
Lemma on_result_stale f result qm v :
  queries (storeState qm) !! fr_queryId (if_request f) = Some v ->
  if_requestId f <> qsv_lastRequestId v ->
  currentStoreData qm = Some (storeState qm) ->
  exists value qm',
    on_result f result qm = Normal (tt, qm') /\
    storeState qm' = storeState qm /\
    currentStoreData qm' = currentStoreData qm /\
    queryListeners qm' = queryListeners qm /\
    trace qm' =
      trace qm ++ [Dispatch (APOLLO_QUERY_RESULT result (fr_queryId (if_request f))
                               (if_requestId f));
                   Resolve (if_promise f) value].
Proof.
  intros Hv Hstale Hcur.
  set (a := APOLLO_QUERY_RESULT result (fr_queryId (if_request f)) (if_requestId f)).
  assert (Hred : reducer (storeState qm) a = storeState qm)
    by (by apply (reduce_stale _ _ v)).
  unfold on_result, try_catch, dispatch.
  cbv [bind get modify removeFetchQueryPromise resolve]. fold a.
  rewrite !Hred, Hcur. rewrite bool_decide_eq_true_2 by reflexivity.
  simpl. do 2 eexists. split; [reflexivity|]. simpl.
  repeat split. by rewrite <- app_assoc.
Qed.

(** A response carrying the latest request id of its query and no
    errors: it is written to the cache, and the subscriber of the query
    is handed the data read from the cache that holds it. *)
Lemma on_result_fresh f result qm v l has_error d :
  let queryId := fr_queryId (if_request f) in
  let st := after_result (storeState qm) queryId v result in
  queries (storeState qm) !! queryId = Some v ->
  if_requestId f = qsv_lastRequestId v ->
  qsv_loading v = true ->
  graphQLResultHasError result = false ->
  currentStoreData qm = Some (storeState qm) ->
  queryListeners qm !! queryId = Some l ->
  l_observer l = Subscriber true has_error ->
  readSelectionSetFromStore (cache st) (id (qsv_query v))
    (selectionSet (qsv_query v)) (qsv_variables v) (l_returnPartialData l)
    (qsv_fragmentMap v) = Normal d ->
  (forall k l0, queryListeners qm !! k = Some l0 -> k <> queryId -> returns st k l0) ->
  exists qm',
    on_result f result qm = Normal (tt, qm') /\
    storeState qm' = st /\
    currentStoreData qm' = Some st /\
    queryListeners qm' = queryListeners qm /\
    exists t, trace qm' = trace qm ++ t /\
              deliveries queryId t = [ {| data := Some d; errors := None |} ].
Proof.
  intros queryId st Hv Hfresh Hloading Hok Hcur Hl Hobs Hread Hothers.
  set (a := APOLLO_QUERY_RESULT result queryId (if_requestId f)).
  assert (Hred : reducer (storeState qm) a = st) by (by apply reduce_fresh).
  assert (Hchange : st <> storeState qm).
  { intros Heq.
    apply (f_equal (fun s => qsv_loading <$> queries s !! queryId)) in Heq.
    subst st. simpl in Heq. rewrite lookup_insert_eq, Hv in Heq. simpl in Heq.
    rewrite Hloading in Heq. discriminate. }
  destruct (dispatch_delivers a qm st queryId l {| data := Some d; errors := None |}
              Hred Hcur Hchange Hl) as (q1 & Hdispatch & Hst & Hcur1 & Hl1 & t & Ht & Hd).
  { intros q0 Hq0. subst st. simpl. rewrite lookup_insert_eq.
    apply (listener_call_delivers _ _ has_error); try done. by rewrite Hq0. }
  { exact Hothers. }
  unfold on_result, try_catch. cbv [bind]. fold queryId a. rewrite Hdispatch.
  cbv [removeFetchQueryPromise resolve get modify]. simpl.
  eexists. split; [reflexivity|]. simpl.
  split; [exact Hst|]. split; [exact Hcur1|]. split; [exact Hl1|].
  eexists. split; [rewrite Ht, <- app_assoc; reflexivity|].
  simpl. rewrite deliveries_app, Hd. reflexivity.
Qed.

(** **** C6 *)

(** C6: request ids are strictly increasing: an id issued after another,
    with any number of calls and callbacks of the manager in between, is
    strictly larger, as long as the counter, a JavaScript number, is
    below 2^53.  With the reducer of the store: two fetches for the same
    query id are issued before either is answered, and the query has a
    subscriber.  Whatever the response to the first fetch is, and in
    whichever order the two responses arrive, it is discarded: the
    subscriber is handed exactly one result, the data read from the cache
    in which the response to the fetch issued last has been written, and
    the store ends as this response alone leaves it.  (The response
    issued last carries no errors, the read of its data succeeds, and
    the listeners of the other queries return.) *)
Theorem request_ids_increase_and_stale_results_are_discarded :
  (forall qm r1 qm1 qm2 r2 qm3,
      generateRequestId qm = Normal (r1, qm1) ->
      rtc step qm1 qm2 ->
      generateRequestId qm2 = Normal (r2, qm3) ->
      (r2 < 2 ^ 53)%N ->
      (r1 < r2)%N) /\
  (forall qm queryId options1 options2 p1 p2 qm1 qm2 f1 f2 v l has_error newer d,
      fetchQuery queryId options1 qm = Normal (p1, qm1) ->
      fetchQuery queryId options2 qm1 = Normal (p2, qm2) ->
      inflight qm2 = inflight qm ++ [f1; f2] ->
      (idCounter qm1 < 2 ^ 53)%N ->
      queries (storeState qm2) !! queryId = Some v ->
      queryListeners qm2 !! queryId = Some l ->
      l_observer l = Subscriber true has_error ->
      graphQLResultHasError newer = false ->
      let st := after_result (storeState qm2) queryId v newer in
      readSelectionSetFromStore (cache st) (id (qsv_query v))
        (selectionSet (qsv_query v)) (qsv_variables v) (l_returnPartialData l)
        (qsv_fragmentMap v) = Normal d ->
      (forall k l0, queryListeners qm2 !! k = Some l0 -> k <> queryId -> returns st k l0) ->
      (if_requestId f1 < if_requestId f2)%N /\
      forall older arrivals,
        arrivals = [(f1, older); (f2, newer)] \/ arrivals = [(f2, newer); (f1, older)] ->
        let qm' := foldl (fun q arrival => final (on_result arrival.1 arrival.2 q))
                         qm2 arrivals in
        deliveries queryId (events_since qm2 qm')
          = [ {| data := Some d; errors := None |} ] /\
        storeState qm' = st).
Proof.
  split.
  - intros qm r1 qm1 qm2 r2 qm3 H1 Hsteps H2 Hexact.
    cbv [generateRequestId bind get modify ret] in H1, H2.
    injection H1 as <- <-. injection H2 as <- _.
    apply steps_counter_le in Hsteps. unfold counter_le in Hsteps.
    simpl in Hsteps. unfold js_increment in Hsteps.
    destruct (N.ltb_spec (idCounter qm) (2 ^ 53)); lia.
  - intros qm queryId options1 options2 p1 p2 qm1 qm2 f1 f2 v l has_error newer d
      Hfetch1 Hfetch2 Hinflight Hexact Hv Hl Hobs Hok st Hread Hothers.
    apply fetchQuery_inv in Hfetch1 as (Hid1 & _ & _ & _ & Hin1).
    apply fetchQuery_inv in Hfetch2
      as (_ & (v' & Hv' & Hlast & Hloading) & Hcur & _ & Hin2).
    rewrite Hv in Hv'. injection Hv' as <-.
    assert (Hf : (if_requestId f1 = idCounter qm /\
                  fr_queryId (if_request f1) = queryId) /\
                 (if_requestId f2 = idCounter qm1 /\
                  fr_queryId (if_request f2) = queryId) /\
                 inflight qm2 <> inflight qm1).
    { destruct Hin1 as [Hin1 | (f & Hin1 & ? & ? & ?)];
        destruct Hin2 as [Hin2 | (f' & Hin2 & ? & ? & ?)];
        rewrite Hin2, Hin1 in Hinflight.
      - apply (f_equal length) in Hinflight. rewrite length_app in Hinflight.
        simpl in Hinflight. lia.
      - apply app_inv_head in Hinflight. discriminate.
      - apply app_inv_head in Hinflight. discriminate.
      - rewrite <- app_assoc in Hinflight. apply app_inv_head in Hinflight.
        injection Hinflight as <- <-. repeat split; try assumption.
        rewrite Hin2. intros Heq. apply (f_equal length) in Heq.
        rewrite length_app in Heq. simpl in Heq. lia. }
    destruct Hf as ((Hr1 & Hq1) & (Hr2 & Hq2) & Hsent).
    specialize (Hloading Hsent).
    assert (Hlt : (if_requestId f1 < if_requestId f2)%N).
    { rewrite Hr1, Hr2, Hid1. rewrite Hid1 in Hexact. unfold js_increment in *.
      destruct (N.ltb_spec (idCounter qm) (2 ^ 53)); lia. }
    split; [exact Hlt|].
    intros older arrivals Horder qm'. subst qm'.
    assert (Hstale : forall q,
               storeState q = storeState qm2 \/ storeState q = st ->
               currentStoreData q = Some (storeState q) ->
               exists value q',
                 on_result f1 older q = Normal (tt, q') /\
                 storeState q' = storeState q /\
                 currentStoreData q' = currentStoreData q /\
                 queryListeners q' = queryListeners q /\
                 trace q' =
                   trace q ++ [Dispatch (APOLLO_QUERY_RESULT older queryId
                                           (if_requestId f1));
                               Resolve (if_promise f1) value]).
    { intros q Hq Hcurq. rewrite <- Hq1.
      assert (Hvq : exists vq, queries (storeState q) !! fr_queryId (if_request f1)
                                 = Some vq /\
                               qsv_lastRequestId vq = qsv_lastRequestId v).
      { rewrite Hq1. destruct Hq as [-> | ->]; [by eauto|].
        subst st. simpl. rewrite lookup_insert_eq. by eauto. }
      destruct Hvq as (vq & Hvq & Hlastq).
      apply (on_result_stale f1 older q vq); [exact Hvq | | exact Hcurq].
      rewrite Hlastq, Hlast, <- Hr2. lia. }
    assert (Hfresh : forall q,
               storeState q = storeState qm2 ->
               currentStoreData q = Some (storeState q) ->
               queryListeners q = queryListeners qm2 ->
               exists q',
                 on_result f2 newer q = Normal (tt, q') /\
                 storeState q' = st /\
                 currentStoreData q' = Some st /\
                 queryListeners q' = queryListeners q /\
                 exists t, trace q' = trace q ++ t /\
                           deliveries queryId t = [ {| data := Some d; errors := None |} ]).
    { intros q Hq Hcurq Hlq. rewrite <- Hq2. subst st. rewrite <- Hq2 in *.
      rewrite <- Hq.
      apply (on_result_fresh f2 newer q v l has_error d);
        rewrite ?Hq, ?Hlq; try assumption.
      - by rewrite Hr2, Hlast.
      - by rewrite Hcurq, Hq. }
    destruct Horder as [-> | ->]; simpl.
    + destruct (Hstale qm2 (or_introl eq_refl) Hcur)
        as (value & qA & HrunA & HstA & HcurA & HlA & HtA).
      rewrite HrunA. simpl.
      destruct (Hfresh qA HstA ltac:(by rewrite HcurA, HstA) HlA)
        as (qA' & HrunA' & HstA' & _ & _ & t & Ht & Hd).
      rewrite HrunA'. simpl. split; [|exact HstA'].
      unfold events_since. rewrite Ht, HtA, <- app_assoc, drop_app_length.
      rewrite deliveries_app, Hd. reflexivity.
    + destruct (Hfresh qm2 eq_refl Hcur eq_refl)
        as (qB & HrunB & HstB & HcurB & HlB & t & Ht & Hd).
      rewrite HrunB. simpl.
      destruct (Hstale qB (or_intror HstB) ltac:(by rewrite HcurB, HstB))
        as (value & qB' & HrunB' & HstB' & _ & _ & HtB).
      rewrite HrunB'. simpl. split; [|by rewrite HstB'].
      unfold events_since. rewrite HtB, Ht, <- app_assoc, drop_app_length.
      rewrite deliveries_app, Hd. reflexivity.
Qed.

(** A response carrying errors leaves the cached data as it finds it. *)
Lemma on_result_errors_cache f result qm :
  graphQLResultHasError result = true ->
  cache (storeState (final (on_result f result qm))) = cache (storeState qm).
Proof.
  intros Herr.
  set (a := APOLLO_QUERY_RESULT result (fr_queryId (if_request f)) (if_requestId f)).
  assert (Hred : cache (apolloReducer (storeState qm) a) = cache (storeState qm)).
  { simpl. destruct (queries (storeState qm) !! _) as [v|]; [|reflexivity].
    destruct (negb _); [reflexivity|]. by rewrite Herr. }
  unfold on_result, try_catch. cbv [bind]. fold a.
  pose proof (dispatch_inv a qm _ eq_refl) as (Hst & _).
  destruct (dispatch a qm) as [[[] qm1]|[e qm1]]; simpl in Hst.
  - cbv [removeFetchQueryPromise resolve get modify]. simpl.
    rewrite Hst. exact Hred.
  - rewrite on_error_cache, Hst. exact Hred.
Qed.

End Staleness.

(** *** Further properties of the manager *)
Section More.
Context {G : GraphQL} {H : Helpers} {R : Store}.

(** Subscriptions are left alone: listeners and polling timers. *)
Definition same_subscriptions : relation QueryManager :=
  fun qm qm' =>
    queryListeners qm' = queryListeners qm /\ pollingTimers qm' = pollingTimers qm /\
    intervals qm' = intervals qm /\ nextTimer qm' = nextTimer qm.

#[local] Instance same_subscriptions_pre : PreOrder same_subscriptions.
Proof.
  split.
  - intros qm. repeat split.
  - intros a b c (?&?&?&?) (?&?&?&?). repeat split; congruence.
Qed.

Lemma dispatch_same_subscriptions a : preserves same_subscriptions (dispatch a).
Proof. preserves_tac ltac:(repeat split). Qed.

Lemma fetchQuery_same_subscriptions queryId options :
  preserves same_subscriptions (fetchQuery queryId options).
Proof. preserves_tac ltac:(repeat split). Qed.

(** X6: Query ids are never reused: an id issued after another, with any
    number of calls and callbacks in between, differs from it.  Request
    ids come from the same counter, so a query id is never the decimal
    of a request id issued before it either.  The counter is a JavaScript
    number: it counts exactly below 2^53, which is where this holds. *)
Theorem generateQueryId_fresh qm qm1 qm2 qm3 queryId :
  rtc step qm1 qm2 ->
  (idCounter qm2 < 2 ^ 53)%N ->
  generateQueryId qm2 = Normal (queryId, qm3) ->
  (forall earlier, generateQueryId qm = Normal (earlier, qm1) -> earlier <> queryId) /\
  (forall requestId, generateRequestId qm = Normal (requestId, qm1) ->
                     pretty requestId <> queryId).
Proof.
  intros Hsteps Hexact Hlater.
  apply steps_counter_le in Hsteps. unfold counter_le in Hsteps.
  cbv [generateQueryId bind get modify ret] in Hlater. injection Hlater as <- _.
  split.
  - intros earlier Hfirst. cbv [generateQueryId bind get modify ret] in Hfirst.
    injection Hfirst as <- <-. simpl in Hsteps. unfold js_increment in Hsteps.
    intros Heq. apply (inj pretty) in Heq.
    destruct (N.ltb_spec (idCounter qm) (2 ^ 53)); lia.
  - intros requestId Hfirst. cbv [generateRequestId bind get modify ret] in Hfirst.
    injection Hfirst as <- <-. simpl in Hsteps. unfold js_increment in Hsteps.
    intros Heq. apply (inj pretty) in Heq.
    destruct (N.ltb_spec (idCounter qm) (2 ^ 53)); lia.
Qed.

(** The request a fetch hands to the batcher when it goes to the
    network with document [doc]. *)
Definition request_for (queryId : QueryId) (options : WatchQueryOptions)
    (doc : Document) : QueryFetchRequest :=
  {| fr_query := doc; fr_variables := opt_variables options; fr_queryId := queryId;
     fr_operationName := getOperationName doc |}.

Ltac through_dispatch :=
  match goal with
  | |- context [dispatch ?a ?q] =>
      let Hq := fresh "Hquiet" in
      pose proof (dispatch_quiet_network a q) as Hq;
      destruct (dispatch a q) as [[[] ?]|]; [|discriminate];
      destruct Hq as (? & ? & ?)
  end.

Lemma forced_fetch_requests qm queryId options p qm' :
  opt_forceFetch options = true ->
  fetchQuery queryId options qm = Normal (p, qm') ->
  exists queryDef0,
    getQueryDefinition (opt_query options) = Normal queryDef0 /\
    requests qm' =
      requests qm ++
        [request_for queryId options
           (replaceOperationDefinition (opt_query options) (transformed qm queryDef0))] /\
    promises qm' !! p = Some Pending /\
    fetchQueryPromises qm' !! queryId = Some p.
Proof.
  intros Hforce. unfold fetchQuery, fetchQueryOverInterface, transformed.
  cbv [bind call get ret generateRequestId modify].
  destruct (getQueryDefinition (opt_query options)) as [queryDef0|]; [|discriminate].
  rewrite Hforce. simpl. through_dispatch.
  destruct (opt_returnPartialData options); simpl; try through_dispatch.
  all: cbv [newPromise resolve addFetchQueryPromise enqueueRequest bind get modify ret].
  all: intros [= <- <-]; exists queryDef0; split; [reflexivity|].
  all: unfold requests in *; simpl in *.
  all: rewrite omap_app; simpl.
  all: repeat match goal with Heq : omap _ (trace _) = _ |- _ => rewrite Heq end.
  all: split; [reflexivity|].
  all: split; [by apply list_lookup_middle | apply lookup_insert_eq].
Qed.

(** X7: A forced fetch always goes to the network, with the whole
    (transformed) query, whatever the store holds: one request is handed
    to the batcher, and the promise returned is pending and recorded in
    the fetch-promise table under the query id. *)
Theorem fetchQuery_forced qm queryId options p qm' :
  opt_forceFetch options = true ->
  fetchQuery queryId options qm = Normal (p, qm') ->
  exists queryDef0,
    getQueryDefinition (opt_query options) = Normal queryDef0 /\
    requests qm' =
      requests qm ++
        [request_for queryId options
           (replaceOperationDefinition (opt_query options) (transformed qm queryDef0))] /\
    promises qm' !! p = Some Pending /\
    fetchQueryPromises qm' !! queryId = Some p.
Proof. apply forced_fetch_requests. Qed.

(** X8: A fetch that is not forced and finds data missing asks the network
    for the missing selection sets only: the document of its request is
    the one built from the diff, not the query it was given. *)
Theorem fetchQuery_minimized qm queryId options queryDef0 m ms p qm' :
  opt_forceFetch options = false ->
  getQueryDefinition (opt_query options) = Normal queryDef0 ->
  missingSelectionSets (store_diff qm options queryDef0) = Some (m :: ms) ->
  fetchQuery queryId options qm = Normal (p, qm') ->
  let queryDef := transformed qm queryDef0 in
  let diffedQuery :=
    queryDocument (m :: ms) queryDef
      (createFragmentMap (replaceOperationDefinition (opt_query options) queryDef)) in
  requests qm' = requests qm ++ [request_for queryId options diffedQuery] /\
  promises qm' !! p = Some Pending /\
  fetchQueryPromises qm' !! queryId = Some p.
Proof.
  intros Hforce Hdef Hmissing. unfold fetchQuery, fetchQueryOverInterface.
  unfold store_diff, transformed in *.
  cbv [bind call get ret generateRequestId modify].
  rewrite Hdef, Hforce. simpl. rewrite Hmissing.
  destruct (getQueryDefinition (queryDocument _ _ _)); [|discriminate].
  simpl. through_dispatch.
  destruct (opt_returnPartialData options); simpl; try through_dispatch.
  all: cbv [newPromise resolve addFetchQueryPromise enqueueRequest bind get modify ret].
  all: intros [= <- <-].
  all: unfold requests in *; simpl in *.
  all: rewrite omap_app; simpl.
  all: repeat match goal with Heq : omap _ (trace _) = _ |- _ => rewrite Heq end.
  all: split; [reflexivity|].
  all: split; [by apply list_lookup_middle | apply lookup_insert_eq].
Qed.

(** X9: When the response or the failure of a request has been handled, no
    promise is recorded for its query id any more, whichever fetch of
    that query recorded the entry. *)
Theorem settled_request_leaves_no_entry f outcome qm qm' :
  match outcome with
  | Normal result => on_result f result qm
  | Throw error => on_error f error qm
  end = Normal (tt, qm') ->
  fetchQueryPromises qm' !! fr_queryId (if_request f) = None.
Proof.
  assert (Herr : forall error qm0 qm1, on_error f error qm0 = Normal (tt, qm1) ->
            fetchQueryPromises qm1 !! fr_queryId (if_request f) = None).
  { intros error qm0 qm1. unfold on_error. cbv [bind removeFetchQueryPromise modify].
    destruct (dispatch _ qm0) as [[[] qm2]|]; [|discriminate].
    intros [= <-]. simpl. apply lookup_delete_eq. }
  destruct outcome as [result|error]; [|apply Herr].
  unfold on_result, try_catch. cbv [bind removeFetchQueryPromise resolve get modify].
  destruct (dispatch _ qm) as [[[] qm1]|[e qm1]]; [|apply Herr].
  intros [= <-]. simpl. apply lookup_delete_eq.
Qed.

(** The manager just before [stopQuery] dispatches. *)
Definition stopping (queryId : QueryId) (qm : QueryManager) : QueryManager :=
  let qm1 := set_queryListeners (fun ls => delete queryId ls) qm in
  match pollingTimers qm !! queryId with
  | Some t => log (ClearInterval t) (set_intervals (fun ts => delete t ts) (nextTimer qm1) qm1)
  | None => qm1
  end.

Lemma stopQuery_eq queryId qm :
  stopQuery queryId qm = dispatch (APOLLO_QUERY_STOP queryId) (stopping queryId qm).
Proof.
  unfold stopQuery, stopping, clearInterval. cbv [bind get modify ret]. simpl.
  destruct (pollingTimers qm !! queryId); reflexivity.
Qed.

Lemma stopQuery_final queryId qm :
  same_subscriptions (stopping queryId qm) (final (stopQuery queryId qm)).
Proof. rewrite stopQuery_eq. apply dispatch_same_subscriptions. Qed.

Lemma stopQuery_listeners queryId qm :
  queryListeners (final (stopQuery queryId qm)) = delete queryId (queryListeners qm).
Proof.
  destruct (stopQuery_final queryId qm) as (Hl & _). rewrite Hl. unfold stopping.
  destruct (pollingTimers qm !! queryId); reflexivity.
Qed.

(** X10: [stopQuery] removes the listener of the query and no other, and
    clears its polling timer if it has one, however the dispatch of the
    stop action completes.  The handle of the timer stays in
    [pollingTimers]. *)
Theorem stopQuery_unsubscribes queryId qm :
  let qm' := final (stopQuery queryId qm) in
  queryListeners qm' = delete queryId (queryListeners qm) /\
  pollingTimers qm' = pollingTimers qm /\
  intervals qm' =
    match pollingTimers qm !! queryId with
    | Some t => delete t (intervals qm)
    | None => intervals qm
    end.
Proof.
  simpl. split; [apply stopQuery_listeners|].
  destruct (stopQuery_final queryId qm) as (_ & Hp & Hi & _).
  rewrite Hp, Hi. unfold stopping.
  destruct (pollingTimers qm !! queryId); split; reflexivity.
Qed.

Lemma forEach_stopQuery_listeners ks qm qm' :
  forEach stopQuery ks qm = Normal (tt, qm') ->
  forall k, queryListeners qm' !! k =
            if bool_decide (k ∈ ks) then None else queryListeners qm !! k.
Proof.
  revert qm. induction ks as [|k0 ks IH]; intros qm Hdone k.
  - simpl in Hdone. injection Hdone as <-.
    rewrite bool_decide_eq_false_2; [done | apply not_elem_of_nil].
  - simpl in Hdone. unfold bind in Hdone.
    pose proof (stopQuery_listeners k0 qm) as Hl.
    destruct (stopQuery k0 qm) as [[[] qm1]|]; [|discriminate]. simpl in Hl.
    rewrite (IH _ Hdone k), Hl.
    destruct (decide (k ∈ ks)) as [Hin|Hnin].
    + rewrite !bool_decide_eq_true_2; [done | by apply elem_of_cons; right | done].
    + rewrite (bool_decide_eq_false_2 (k ∈ ks)) by done.
      destruct (decide (k = k0)) as [->|Hne].
      * rewrite bool_decide_eq_true_2 by (apply elem_of_cons; by left).
        apply lookup_delete_eq.
      * rewrite bool_decide_eq_false_2.
        -- by apply lookup_delete_ne.
        -- intros [?|?]%elem_of_cons; done.
Qed.

(** X11: When [resetStore] returns, no query is listened to any more: every
    listener has been removed, while the fetch-promise table and the
    requests held by the batcher are as they were. *)
Theorem resetStore_stops_every_query qm qm' :
  resetStore qm = Normal (tt, qm') ->
  queryListeners qm' = ∅ /\
  fetchQueryPromises qm' = fetchQueryPromises qm /\
  inflight qm' = inflight qm.
Proof.
  intros Hdone.
  destruct (resetStore_quiet_network qm) as (_ & Hinflight & Htable).
  rewrite Hdone in Hinflight, Htable. simpl in Hinflight, Htable.
  split; [|by split].
  rewrite resetStore_eq in Hdone. unfold stop_and_reset in Hdone.
  cbv [bind get] in Hdone.
  set (qm1 := foldl reject_entry qm _) in *.
  destruct (forEach stopQuery _ qm1) as [[[] qm2]|] eqn:Hloop; [|discriminate].
  destruct (dispatch_same_subscriptions APOLLO_STORE_RESET qm2) as (Hl & _).
  rewrite Hdone in Hl. simpl in Hl. rewrite Hl.
  apply map_eq. intros k. rewrite lookup_empty.
  rewrite (forEach_stopQuery_listeners _ _ _ Hloop k).
  case_bool_decide as Hk; [done|].
  destruct (queryListeners qm1 !! k) as [l|] eqn:Hlk; [|done].
  exfalso. apply Hk. apply list_elem_of_fmap. exists (k, l).
  split; [done | by apply elem_of_map_to_list].
Qed.

Lemma startQuery_final options listener qm queryId qm' :
  startQuery options listener qm = Normal (queryId, qm') ->
  queryId = pretty (idCounter qm) /\
  queryListeners qm' = <[queryId := listener]> (queryListeners qm) /\
  if truthy_interval (opt_pollInterval options) then
    pollingTimers qm' = <[queryId := nextTimer qm]> (pollingTimers qm) /\
    intervals qm' =
      <[nextTimer qm := {| iv_queryId := queryId; iv_options := options |}]> (intervals qm)
  else
    pollingTimers qm' = pollingTimers qm /\ intervals qm' = intervals qm.
Proof.
  unfold startQuery. cbv [bind generateQueryId get modify ret].
  match goal with
  | |- context [fetchQuery ?q ?o ?s] =>
      pose proof (fetchQuery_same_subscriptions q o s) as (Hl & Hp & Hi & Hn);
      destruct (fetchQuery q o s) as [[p qm1]|]; [|discriminate]
  end.
  simpl in Hl, Hp, Hi, Hn.
  destruct (truthy_interval (opt_pollInterval options)).
  - cbv [setInterval bind get modify ret]. intros [= <- <-]. simpl.
    rewrite Hl, Hp, Hi, Hn. repeat split.
  - intros [= <- <-]. rewrite Hl, Hp, Hi. repeat split.
Qed.

(** X12: [startQuery] registers the listener under a fresh query id and
    arms a polling timer exactly when [pollInterval] is set and not
    zero. *)
Theorem startQuery_subscribes options listener qm queryId qm' :
  startQuery options listener qm = Normal (queryId, qm') ->
  queryId = pretty (idCounter qm) /\
  queryListeners qm' = <[queryId := listener]> (queryListeners qm) /\
  if truthy_interval (opt_pollInterval options) then
    pollingTimers qm' = <[queryId := nextTimer qm]> (pollingTimers qm) /\
    intervals qm' =
      <[nextTimer qm := {| iv_queryId := queryId; iv_options := options |}]> (intervals qm)
  else
    pollingTimers qm' = pollingTimers qm /\ intervals qm' = intervals qm.
Proof. apply startQuery_final. Qed.

Lemma interval_fires_cleared t qm :
  intervals qm !! t = None -> interval_fires t qm = Normal (tt, qm).
Proof. intros Hnone. unfold interval_fires. cbv [bind get]. by rewrite Hnone. Qed.

(** X13: Every tick of an armed polling timer goes to the network: when the
    tick returns, one more request for the query of the timer has been
    handed to the batcher.  A timer that has been cleared does nothing. *)
Theorem interval_fires_fetches t qm :
  match intervals qm !! t with
  | Some iv =>
      forall qm', interval_fires t qm = Normal (tt, qm') ->
        exists r, requests qm' = requests qm ++ [r] /\ fr_queryId r = iv_queryId iv
  | None => interval_fires t qm = Normal (tt, qm)
  end.
Proof.
  unfold interval_fires. cbv [bind get].
  destruct (intervals qm !! t) as [iv|]; [|reflexivity].
  intros qm'.
  destruct (fetchQuery _ _ qm) as [[p qm1]|] eqn:Hfetch; [|discriminate].
  intros [= <-].
  apply forced_fetch_requests in Hfetch as (queryDef0 & _ & Hreq & _); [|reflexivity].
  eexists. split; [exact Hreq | reflexivity].
Qed.

(** X14: After [stopQuery], the polling timer of the query no longer
    fetches. *)
Theorem stopped_query_polls_no_more queryId t qm :
  pollingTimers qm !! queryId = Some t ->
  let qm' := final (stopQuery queryId qm) in
  interval_fires t qm' = Normal (tt, qm').
Proof.
  intros Ht qm'.
  destruct (stopQuery_final queryId qm) as (_ & _ & Hi & _).
  fold qm' in Hi. unfold stopping in Hi. rewrite Ht in Hi. simpl in Hi.
  unfold interval_fires. cbv [bind get]. by rewrite Hi, lookup_delete_eq.
Qed.

(** *** Polling through the subscription *)

(** The manager [startPolling] leaves: it always returns. *)
Definition polling_started (s : QuerySubscription) (qm : QueryManager) : QueryManager :=
  set_pollingTimers (fun ts => <[sub_queryId s := nextTimer qm]> ts)
    (set_intervals
       (fun ts => <[nextTimer qm :=
                      {| iv_queryId := sub_queryId s; iv_options := sub_options s |}]> ts)
       (S (nextTimer qm)) qm).

Lemma startPolling_eq s pollInterval qm :
  startPolling s pollInterval qm = Normal (tt, polling_started s qm).
Proof. reflexivity. Qed.

(** X15: [stopPolling] of a subscription made with a poll interval clears
    the timer armed by the subscription: its ticks no longer fetch.  The
    listener stays, the query is still watched. *)
Theorem stopPolling_stops_the_subscription_timer oq observer qm s qm1 :
  truthy_interval (opt_pollInterval (oq_options oq)) = true ->
  subscription oq observer qm = Normal (s, qm1) ->
  let qm2 := final (stopPolling s qm1) in
  sub_pollingTimer s = Some (nextTimer qm) /\
  intervals qm1 !! nextTimer qm =
    Some {| iv_queryId := sub_queryId s; iv_options := oq_options oq |} /\
  interval_fires (nextTimer qm) qm2 = Normal (tt, qm2) /\
  queryListeners qm2 = queryListeners qm1 /\
  is_Some (queryListeners qm2 !! sub_queryId s).
Proof.
  intros Hpoll. unfold subscription, subscribe. cbv [bind get ret].
  destruct (startQuery _ _ qm) as [[queryId qm1']|] eqn:Hstart; [|discriminate].
  intros [= <- <-]. simpl.
  apply startQuery_final in Hstart as (_ & Hl & Htimers).
  rewrite Hpoll in Htimers. destruct Htimers as [Hp Hi].
  rewrite Hp, lookup_insert_eq.
  split; [reflexivity|]. split; [by rewrite Hi, lookup_insert_eq|].
  unfold stopPolling. simpl. cbv [clearInterval modify]. simpl.
  split; [apply interval_fires_cleared; simpl; apply lookup_delete_eq|].
  split; [reflexivity|]. rewrite Hl, lookup_insert_eq. by eexists.
Qed.

(** X16: [stopPolling] only knows the timer the subscription was made
    with: polling started later through [startPolling] is not stopped
    by it, the new timer stays armed. *)
Theorem stopPolling_misses_startPolling s pollInterval qm :
  sub_pollingTimer s <> Some (nextTimer qm) ->
  let qm' := final (bind (startPolling s pollInterval) (fun _ => stopPolling s) qm) in
  pollingTimers qm' !! sub_queryId s = Some (nextTimer qm) /\
  intervals qm' !! nextTimer qm =
    Some {| iv_queryId := sub_queryId s; iv_options := sub_options s |}.
Proof.
  intros Hfresh. cbv [bind]. rewrite startPolling_eq. unfold stopPolling.
  destruct (sub_pollingTimer s) as [t|]; simpl.
  - split; [apply lookup_insert_eq|].
    rewrite lookup_delete_ne by congruence. apply lookup_insert_eq.
  - split; apply lookup_insert_eq.
Qed.

(** X17: [startPolling] on a query that is being polled arms a second
    timer and forgets the first: [unsubscribe] then clears the second
    one only, and the first keeps fetching for a query that has no
    listener any more. *)
Theorem restarted_polling_outlives_unsubscribe s pollInterval qm t0 iv :
  pollingTimers qm !! sub_queryId s = Some t0 ->
  intervals qm !! t0 = Some iv ->
  t0 <> nextTimer qm ->
  let qm' := final (bind (startPolling s pollInterval)
                         (fun _ => unsubscribe (sub_queryId s)) qm) in
  queryListeners qm' !! sub_queryId s = None /\
  intervals qm' !! nextTimer qm = None /\
  intervals qm' !! t0 = Some iv.
Proof.
  intros Htimer Hiv Hfresh. cbv [bind]. rewrite startPolling_eq. unfold unsubscribe.
  destruct (stopQuery_final (sub_queryId s) (polling_started s qm)) as (Hl & _ & Hi & _).
  rewrite Hl, Hi. unfold stopping. simpl. rewrite lookup_insert_eq. simpl.
  split; [apply lookup_delete_eq|]. split; [apply lookup_delete_eq|].
  rewrite lookup_delete_ne by congruence. by rewrite lookup_insert_ne by congruence.
Qed.

End More.

(** *** Runs of the small instance *)
Section Runs.
#[local] Existing Instances Toy.graphql Toy.helpers Toy.writer Toy.store.

Lemma query_returnPartialData_throws_witness :
  let options := {| opt_query := ["name"]; opt_variables := None;
                    opt_forceFetch := false; opt_returnPartialData := true;
                    opt_pollInterval := None |} in
  query options Toy.primed_manager =
    Throw (Error "returnPartialData option only supported on watchQuery.",
           Toy.primed_manager) /\
  (forall queryDef, getQueryDefinition (opt_query options) = Normal queryDef ->
     watchQuery options Toy.primed_manager
       = Normal ({| oq_options := options |}, Toy.primed_manager)).
Proof.
  intros options.
  apply (query_returnPartialData_throws Toy.primed_manager options).
  reflexivity.
Defined.

Lemma fetchQuery_cached_no_network_witness :
  let cached := {| data := Some [("name", "Luke Skywalker")]; errors := None |} in
  let outcome := fetchQuery "q" (Toy.options ["name"] false) Toy.primed_manager in
  (requests (final outcome) = requests Toy.primed_manager /\
   inflight (final outcome) = inflight Toy.primed_manager /\
   fetchQueryPromises (final outcome) = fetchQueryPromises Toy.primed_manager) /\
  (forall p qm', outcome = Normal (p, qm') -> promises qm' !! p = Some (Resolved cached)) /\
  (queryListeners Toy.primed_manager = ∅ -> exists p qm', outcome = Normal (p, qm')).
Proof.
  exact (fetchQuery_cached_no_network Toy.primed_manager "q"
           (Toy.options ["name"] false) ["name"]
           eq_refl eq_refl (or_intror eq_refl)).
Defined.

(** The cached fetch end to end: two bookkeeping actions, no request,
    and a promise resolved on return. *)
Example fetchQuery_cached_run :
  let qm := final (fetchQuery "q" (Toy.options ["name"] false) Toy.primed_manager) in
  requests qm = [] /\
  promises qm = [Resolved {| data := Some [("name", "Luke Skywalker")]; errors := None |}].
Proof. split; reflexivity. Qed.

Lemma resetStore_rejects_outstanding_witness :
  promises Toy.refetching_manager !! 0 = Some Pending /\
  promises (final (resetStore Toy.refetching_manager)) !! 0
    = Some (Rejected store_reset_error).
Proof.
  split; [reflexivity|].
  apply (proj1 (resetStore_rejects_outstanding Toy.refetching_manager) "q" 0);
    reflexivity.
Defined.

Example resetStore_run :
  events_since Toy.refetching_manager (final (resetStore Toy.refetching_manager)) =
    [ConsoleLog "q"; Reject 0 store_reset_error; Dispatch APOLLO_STORE_RESET].
Proof. reflexivity. Qed.

(** C5, evaluated: [Toy.active_manager] has one active query, watched by
    a subscriber and not a cache-only one.  [resetStore] issues no
    refetch for it: no request is handed to the batcher and no fetch is
    initialised; the query is stopped instead (its listener is removed)
    before the store is cleared. *)
Theorem resetStore_issues_no_refetch :
  map_to_list (queryListeners Toy.active_manager)
    = [("0", {| l_returnPartialData := false; l_observer := Subscriber true true |})] /\
  let qm' := final (resetStore Toy.active_manager) in
  events_since Toy.active_manager qm'
    = [Dispatch (APOLLO_QUERY_STOP "0"); Dispatch APOLLO_STORE_RESET] /\
  length (requests qm') = length (requests Toy.active_manager) /\
  inflight qm' = [] /\
  map_to_list (queryListeners qm') = [].
Proof. repeat split; reflexivity. Qed.

(** C3, evaluated: a forced refetch of a query whose data is cached
    fails with a network error.  The cached data survives and the error
    is recorded in the bookkeeping of the query, but the promise returned
    by [fetchQuery] is never rejected: it is left pending, and no longer
    recorded in the fetch-promise table.  When the response carries
    GraphQL errors instead, the promise is resolved with the data read
    from the store. *)
Theorem failed_fetch_does_not_reject :
  promises Toy.refetching_manager = [Pending] /\
  (let qm' := final (batcher_settles 0 (Throw Toy.network_error) Toy.refetching_manager) in
   map_to_list (cache (storeState qm')) = [("name", "Luke Skywalker")] /\
   qsv_networkError <$> queries (storeState qm') !! "q" = Some (Some Toy.network_error) /\
   events_since Toy.refetching_manager qm'
     = [Dispatch (APOLLO_QUERY_ERROR Toy.network_error "q" 0)] /\
   promises qm' = [Pending] /\
   map_to_list (fetchQueryPromises qm') = []) /\
  (let response := {| data := None; errors := Some ["boom"] |} in
   let qm' := final (batcher_settles 0 (Normal response) Toy.refetching_manager) in
   map_to_list (cache (storeState qm')) = [("name", "Luke Skywalker")] /\
   qsv_graphQLErrors <$> queries (storeState qm') !! "q" = Some (Some ["boom"]) /\
   promises qm' =
     [Resolved {| data := Some [("name", "Luke Skywalker")]; errors := None |}]).
Proof. repeat split; reflexivity. Qed.

Lemma request_ids_increase_and_stale_results_are_discarded_witness :
  (if_requestId (Toy.in_flight 0 0) < if_requestId (Toy.in_flight 1 1))%N /\
  forall older arrivals,
    arrivals = [(Toy.in_flight 0 0, older); (Toy.in_flight 1 1, Toy.luke_skywalker)] \/
    arrivals = [(Toy.in_flight 1 1, Toy.luke_skywalker); (Toy.in_flight 0 0, older)] ->
    let qm' := foldl (fun q arrival => final (on_result arrival.1 arrival.2 q))
                     Toy.both_in_flight arrivals in
    deliveries "q" (events_since Toy.both_in_flight qm') = [Toy.luke_skywalker] /\
    storeState qm' =
      after_result (storeState Toy.both_in_flight) "q" Toy.record_q Toy.luke_skywalker.
Proof.
  apply (proj2 request_ids_increase_and_stale_results_are_discarded
           Toy.listening_manager "q" (Toy.options ["name"] true)
           (Toy.options ["name"] true) 0 1 Toy.first_in_flight Toy.both_in_flight
           (Toy.in_flight 0 0) (Toy.in_flight 1 1) Toy.record_q
           (queryListenerForObserver (Toy.options ["name"] true) (Subscriber true true))
           true Toy.luke_skywalker [("name", "Luke Skywalker")]);
    try reflexivity.
  intros k l0 Hk Hne.
  change (queryListeners Toy.both_in_flight)
    with ({[ "q" := queryListenerForObserver (Toy.options ["name"] true)
                      (Subscriber true true) ]} : gmap QueryId QueryListener) in Hk.
  apply lookup_singleton_Some in Hk as [<- _]. done.
Defined.

(** The two orders of arrival, evaluated: the answer to the first fetch
    (Leia) reaches neither the subscriber nor the cache. *)
Example stale_result_run :
  let handle := fun q (arrival : InFlight * GraphQLResult) =>
                  final (on_result arrival.1 arrival.2 q) in
  let old_first := foldl handle Toy.both_in_flight
                     [(Toy.in_flight 0 0, Toy.leia);
                      (Toy.in_flight 1 1, Toy.luke_skywalker)] in
  let new_first := foldl handle Toy.both_in_flight
                     [(Toy.in_flight 1 1, Toy.luke_skywalker);
                      (Toy.in_flight 0 0, Toy.leia)] in
  events_since Toy.both_in_flight old_first =
    [Dispatch (APOLLO_QUERY_RESULT Toy.leia "q" 0);
     Resolve 0 {| data := None; errors := None |};
     Dispatch (APOLLO_QUERY_RESULT Toy.luke_skywalker "q" 1);
     ObserverNext "q" Toy.luke_skywalker;
     Resolve 1 Toy.luke_skywalker] /\
  events_since Toy.both_in_flight new_first =
    [Dispatch (APOLLO_QUERY_RESULT Toy.luke_skywalker "q" 1);
     ObserverNext "q" Toy.luke_skywalker;
     Resolve 1 Toy.luke_skywalker;
     Dispatch (APOLLO_QUERY_RESULT Toy.leia "q" 0);
     Resolve 0 Toy.luke_skywalker] /\
  map_to_list (cache (storeState old_first)) = [("name", "Luke Skywalker")] /\
  map_to_list (cache (storeState new_first)) = [("name", "Luke Skywalker")].
Proof. repeat split; reflexivity. Qed.

Lemma generateQueryId_fresh_witness :
  (forall earlier,
      generateQueryId Toy.empty_manager = Normal (earlier, Toy.first_id_taken) ->
      earlier <> "2") /\
  (forall requestId,
      generateRequestId Toy.empty_manager = Normal (requestId, Toy.first_id_taken) ->
      pretty requestId <> "2").
Proof.
  apply (generateQueryId_fresh Toy.empty_manager Toy.first_id_taken Toy.fetched_once
           Toy.third_id_taken "2").
  - apply rtc_once.
    exact (step_api (fetchQuery "0" (Toy.options ["name"] true)) Toy.first_id_taken
             (api_fetchQuery "0" (Toy.options ["name"] true))).
  - reflexivity.
  - reflexivity.
Defined.

Lemma fetchQuery_forced_witness :
  exists queryDef0,
    getQueryDefinition ["name"] = Normal queryDef0 /\
    requests Toy.after_first_fetch =
      requests Toy.empty_manager ++
        [request_for "q" (Toy.options ["name"] true)
           (replaceOperationDefinition ["name"] (transformed Toy.empty_manager queryDef0))] /\
    promises Toy.after_first_fetch !! 0 = Some Pending /\
    fetchQueryPromises Toy.after_first_fetch !! "q" = Some 0.
Proof.
  apply (fetchQuery_forced Toy.empty_manager "q" (Toy.options ["name"] true) 0
           Toy.after_first_fetch); reflexivity.
Defined.

Lemma fetchQuery_minimized_witness :
  requests Toy.partly_cached =
    requests Toy.primed_manager ++
      [ {| fr_query := ["age"]; fr_variables := None; fr_queryId := "q";
           fr_operationName := None |} ] /\
  promises Toy.partly_cached !! 0 = Some Pending /\
  fetchQueryPromises Toy.partly_cached !! "q" = Some 0.
Proof.
  exact (fetchQuery_minimized Toy.primed_manager "q" (Toy.options ["name"; "age"] false)
           ["name"; "age"] (@root_query Toy.graphql ["age"]) [] 0 Toy.partly_cached
           eq_refl eq_refl eq_refl eq_refl).
Defined.

Lemma settled_request_leaves_no_entry_witness :
  fetchQueryPromises Toy.refetching_manager !! "q" = Some 0 /\
  fetchQueryPromises Toy.after_failure !! "q" = None.
Proof.
  split; [reflexivity|].
  apply (settled_request_leaves_no_entry (Toy.in_flight 0 0) (Throw Toy.network_error)
           Toy.refetching_manager Toy.after_failure).
  reflexivity.
Defined.

Lemma resetStore_stops_every_query_witness :
  queryListeners Toy.after_reset = ∅ /\
  fetchQueryPromises Toy.after_reset = fetchQueryPromises Toy.active_manager /\
  inflight Toy.after_reset = inflight Toy.active_manager.
Proof.
  apply (resetStore_stops_every_query Toy.active_manager Toy.after_reset).
  reflexivity.
Defined.

Lemma startQuery_subscribes_witness :
  "0" = pretty (idCounter Toy.empty_manager) /\
  queryListeners Toy.polling_manager
    = <["0" := Toy.subscriber]> (queryListeners Toy.empty_manager) /\
  pollingTimers Toy.polling_manager = <["0" := 1]> (pollingTimers Toy.empty_manager) /\
  intervals Toy.polling_manager =
    <[1 := {| iv_queryId := "0"; iv_options := Toy.polling |}]>
      (intervals Toy.empty_manager).
Proof.
  exact (startQuery_subscribes Toy.polling Toy.subscriber Toy.empty_manager "0"
           Toy.polling_manager eq_refl).
Defined.

Lemma interval_fires_fetches_witness :
  exists r, requests Toy.polled_once = requests Toy.polling_manager ++ [r] /\
            fr_queryId r = "0".
Proof.
  exact (interval_fires_fetches 1 Toy.polling_manager Toy.polled_once eq_refl).
Defined.

Lemma stopped_query_polls_no_more_witness :
  let qm' := final (stopQuery "0" Toy.polling_manager) in
  interval_fires 1 qm' = Normal (tt, qm').
Proof.
  apply (stopped_query_polls_no_more "0" 1 Toy.polling_manager). reflexivity.
Defined.

Lemma stopPolling_stops_the_subscription_timer_witness :
  let qm2 := final (stopPolling Toy.polling_subscription Toy.polling_manager) in
  sub_pollingTimer Toy.polling_subscription = Some (nextTimer Toy.empty_manager) /\
  intervals Toy.polling_manager !! nextTimer Toy.empty_manager =
    Some {| iv_queryId := sub_queryId Toy.polling_subscription;
            iv_options := oq_options {| oq_options := Toy.polling |} |} /\
  interval_fires (nextTimer Toy.empty_manager) qm2 = Normal (tt, qm2) /\
  queryListeners qm2 = queryListeners Toy.polling_manager /\
  is_Some (queryListeners qm2 !! sub_queryId Toy.polling_subscription).
Proof.
  apply (stopPolling_stops_the_subscription_timer {| oq_options := Toy.polling |}
           (Subscriber true true) Toy.empty_manager Toy.polling_subscription
           Toy.polling_manager); reflexivity.
Defined.

Lemma stopPolling_misses_startPolling_witness :
  let qm' := final (bind (startPolling Toy.idle_subscription 50)
                         (fun _ => stopPolling Toy.idle_subscription)
                         Toy.active_manager) in
  pollingTimers qm' !! sub_queryId Toy.idle_subscription
    = Some (nextTimer Toy.active_manager) /\
  intervals qm' !! nextTimer Toy.active_manager =
    Some {| iv_queryId := sub_queryId Toy.idle_subscription;
            iv_options := sub_options Toy.idle_subscription |}.
Proof.
  apply (stopPolling_misses_startPolling Toy.idle_subscription 50 Toy.active_manager).
  discriminate.
Defined.

Lemma restarted_polling_outlives_unsubscribe_witness :
  let qm' := final (bind (startPolling Toy.polling_subscription 50)
                         (fun _ => unsubscribe (sub_queryId Toy.polling_subscription))
                         Toy.polling_manager) in
  queryListeners qm' !! sub_queryId Toy.polling_subscription = None /\
  intervals qm' !! nextTimer Toy.polling_manager = None /\
  intervals qm' !! 1 = Some {| iv_queryId := "0"; iv_options := Toy.polling |}.
Proof.
  apply (restarted_polling_outlives_unsubscribe Toy.polling_subscription 50
           Toy.polling_manager 1 {| iv_queryId := "0"; iv_options := Toy.polling |});
    [reflexivity | reflexivity | discriminate].
Defined.

(** A polled query end to end: the subscription fetches once, every
    tick fetches again, and after [unsubscribe] the timer is gone. *)
Example polling_run :
  length (requests Toy.polling_manager) = 1 /\
  length (requests Toy.polled_once) = 2 /\
  let stopped := final (unsubscribe "0" Toy.polled_once) in
  map_to_list (intervals stopped) = [] /\
  length (requests (final (interval_fires 1 stopped))) = 2.
Proof. repeat split; reflexivity. Qed.

End Runs.
End QueryManagerFacts.

(** ** Theorems: store writer *)
Module WriterFacts.
Import Writer.

(** *** The query AST *)

(** Induction over selections and selection sets together. *)
Section SelectionInduction.
Variable Ps : SelectionNode -> Prop.
Variable Pss : SelectionSetNode -> Prop.
Hypothesis H_leaf : forall node alias name arguments directives,
    Ps (Field node alias name arguments directives None).
Hypothesis H_field : forall node alias name arguments directives selectionSet,
    Pss selectionSet -> Ps (Field node alias name arguments directives (Some selectionSet)).
Hypothesis H_spread : forall node name directives, Ps (FragmentSpread node name directives).
Hypothesis H_inline : forall node typeCondition directives selectionSet,
    Pss selectionSet -> Ps (InlineFragment node typeCondition directives selectionSet).
Hypothesis H_set : forall node ss, Forall Ps ss -> Pss (SelectionSet node ss).

Fixpoint selection_induction (selection : SelectionNode) : Ps selection :=
  match selection with
  | Field node alias name arguments directives None =>
      H_leaf node alias name arguments directives
  | Field node alias name arguments directives (Some selectionSet) =>
      H_field node alias name arguments directives selectionSet
        (selectionSet_induction selectionSet)
  | FragmentSpread node name directives => H_spread node name directives
  | InlineFragment node typeCondition directives selectionSet =>
      H_inline node typeCondition directives selectionSet
        (selectionSet_induction selectionSet)
  end
with selectionSet_induction (selectionSet : SelectionSetNode) : Pss selectionSet :=
  match selectionSet with
  | SelectionSet node ss =>
      H_set node ss
        ((fix all (l : list SelectionNode) : Forall Ps l :=
            match l with
            | [] => @List.Forall_nil _ Ps
            | s :: l' => @List.Forall_cons _ Ps s l' (selection_induction s) (all l')
            end) ss)
  end.
End SelectionInduction.

Lemma all_of_set_eq node ss :
  all_of_set (SelectionSet node ss) = flat_map all_selections ss.
Proof. simpl. induction ss as [|s ss IH]; [reflexivity|]. simpl. by rewrite IH. Qed.

Lemma all_selections_head selection : selection ∈ all_selections selection.
Proof. destruct selection as [? ? ? ? ? []| |]; apply elem_of_cons; by left. Qed.

Lemma selections_in_all_of_set selectionSet selection :
  selection ∈ selections selectionSet -> selection ∈ all_of_set selectionSet.
Proof.
  destruct selectionSet as [node ss]. rewrite all_of_set_eq. simpl. intros Hin.
  apply list_elem_of_In, in_flat_map. exists selection. split.
  - by apply list_elem_of_In.
  - apply list_elem_of_In, all_selections_head.
Qed.

(** The selections of a selection set are closed under taking children. *)
Lemma all_of_set_closed selectionSet :
  forall x, x ∈ all_of_set selectionSet ->
            forall c, c ∈ children x -> c ∈ all_of_set selectionSet.
Proof.
  apply (selectionSet_induction
           (fun s => forall x, x ∈ all_selections s ->
                               forall c, c ∈ children x -> c ∈ all_selections s)
           (fun ss => forall x, x ∈ all_of_set ss ->
                                forall c, c ∈ children x -> c ∈ all_of_set ss)).
  - intros node alias name arguments directives x Hx c Hc. simpl in Hx.
    apply list_elem_of_singleton in Hx as ->. simpl in Hc. by apply elem_of_nil in Hc.
  - intros node alias name arguments directives ss IH x Hx c Hc.
    change (x ∈ Field node alias name arguments directives (Some ss) :: all_of_set ss) in Hx.
    change (c ∈ Field node alias name arguments directives (Some ss) :: all_of_set ss).
    apply elem_of_cons. right. apply elem_of_cons in Hx as [-> | Hx].
    + by apply selections_in_all_of_set.
    + by apply (IH x).
  - intros node name directives x Hx c Hc. simpl in Hx.
    apply list_elem_of_singleton in Hx as ->. simpl in Hc. by apply elem_of_nil in Hc.
  - intros node typeCondition directives ss IH x Hx c Hc.
    change (x ∈ InlineFragment node typeCondition directives ss :: all_of_set ss) in Hx.
    change (c ∈ InlineFragment node typeCondition directives ss :: all_of_set ss).
    apply elem_of_cons. right. apply elem_of_cons in Hx as [-> | Hx].
    + by apply selections_in_all_of_set.
    + by apply (IH x).
  - intros node ss IH x Hx c Hc. rewrite all_of_set_eq in *.
    apply list_elem_of_In, in_flat_map in Hx as (s & Hs & Hx).
    apply list_elem_of_In, in_flat_map. exists s. split; [exact Hs|].
    apply list_elem_of_In. rewrite Forall_forall in IH.
    apply (IH s (proj2 (list_elem_of_In _ _) Hs) x); [by apply list_elem_of_In | exact Hc].
Qed.

(** A set of selections closed under the two ways a write reaches new
    selections: the selection set of a field, and the expansion of a
    fragment. *)
Definition closed (fragmentMap : FragmentMap) (known : list SelectionNode) : Prop :=
  forall x, x ∈ known ->
    (forall c, c ∈ children x -> c ∈ known) /\
    (forall fragment,
        getFragmentFromSelection x fragmentMap = Some fragment ->
        forall c, c ∈ selections (fragment_selectionSet fragment) -> c ∈ known).

Lemma universe_closed fragmentMap selectionSet :
  closed fragmentMap (universe fragmentMap selectionSet).
Proof.
  assert (Hdef : forall name fd c,
             fragmentMap !! name = Some fd -> c ∈ selections (fd_selectionSet fd) ->
             c ∈ universe fragmentMap selectionSet).
  { intros name fd c Hfd Hc. apply elem_of_app. right.
    apply list_elem_of_In, in_flat_map. exists (name, fd). split.
    - apply list_elem_of_In. by apply elem_of_map_to_list.
    - apply list_elem_of_In. by apply selections_in_all_of_set. }
  assert (Hsub : forall x, x ∈ universe fragmentMap selectionSet ->
                           forall c, c ∈ children x -> c ∈ universe fragmentMap selectionSet).
  { intros x Hx c Hc. unfold universe in *. apply elem_of_app in Hx as [Hx | Hx].
    - apply elem_of_app. left. by apply (all_of_set_closed selectionSet x).
    - apply elem_of_app. right.
      apply list_elem_of_In, in_flat_map in Hx as (entry & Hentry & Hx).
      apply list_elem_of_In, in_flat_map. exists entry. split; [exact Hentry|].
      apply list_elem_of_In.
      apply (all_of_set_closed _ x); [by apply list_elem_of_In | exact Hc]. }
  intros x Hx. split; [by apply Hsub|].
  intros fragment Hfragment c Hc.
  destruct x as [| node name directives | node typeCondition directives ss];
    simpl in Hfragment.
  - discriminate.
  - destruct (fragmentMap !! name) as [fd|] eqn:Hfd; [|discriminate].
    injection Hfragment as <-. by apply (Hdef name fd).
  - injection Hfragment as <-. by apply (Hsub _ Hx).
Qed.

Lemma universe_contains fragmentMap selectionSet selection :
  selection ∈ selections selectionSet -> selection ∈ universe fragmentMap selectionSet.
Proof. intros Hin. apply elem_of_app. left. by apply selections_in_all_of_set. Qed.

Section Facts.
Context {RT : Runtime} {C : NormalizedCache} {P : Policies} {U : Utilities}.

#[local] Instance written_grows_pre : PreOrder written_grows.
Proof.
  split.
  - intros st dataId selectionSet Hin. exact Hin.
  - intros a b c Hab Hbc dataId selectionSet Hin. apply Hbc, Hab, Hin.
Qed.

(** *** What a call leaves behind

    [ensures R m]: when [m] returns or throws, the state it leaves is
    [R]-related to the state it found. *)
Section Ensures.
Variable R : relation WriteState.
Context {R_pre : PreOrder R}.

Definition post {A} (st : WriteState) (o : Outcome A) : Prop :=
  match o with
  | Done _ st' | Thrown _ st' => R st st'
  | OutOfFuel => True
  end.

Definition ensures {A} (m : W A) : Prop := forall st, post st (m st).

Lemma ensures_ret {A} (a : A) : ensures (ret a).
Proof. intros st. simpl. reflexivity. Qed.

Lemma ensures_throw {A} e : ensures (@throw _ A e).
Proof. intros st. simpl. reflexivity. Qed.

Lemma ensures_bind {A B} (m : W A) (k : A -> W B) :
  ensures m -> (forall a, ensures (k a)) -> ensures (bind m k).
Proof.
  intros Hm Hk st. unfold bind. specialize (Hm st).
  destruct (m st) as [a st'|e st'|]; simpl in *; try exact Hm.
  specialize (Hk a st'). destruct (k a st') as [b st''|e st''|]; simpl in *;
    try exact I; etransitivity; eassumption.
Qed.

Lemma ensures_mapM {A B} (f : A -> W B) xs :
  (forall x, ensures (f x)) -> ensures (mapM f xs).
Proof.
  intros Hf. induction xs as [|x xs IH]; simpl.
  - apply ensures_ret.
  - apply ensures_bind; [apply Hf|]. intros y.
    apply ensures_bind; [exact IH|]. intros ys. apply ensures_ret.
Qed.

Lemma ensures_forEach fuel body :
  (forall selection mergedFields workSet,
      ensures (body selection mergedFields workSet)) ->
  forall visited mergedFields workSet,
    ensures (workSet_forEach fuel body visited mergedFields workSet).
Proof.
  intros Hbody. induction fuel as [|fuel IH]; intros visited mergedFields workSet.
  - intros st. exact I.
  - simpl. destruct (workSet !! visited) as [selection|]; [|apply ensures_ret].
    apply ensures_bind; [apply Hbody|]. intros [mergedFields' workSet']. apply IH.
Qed.

Lemma ensures_processSelection pfv context result typename selection mergedFields workSet :
  (forall st, R st (set_shouldApplyMerges st)) ->
  (forall value field, ensures (pfv value field)) ->
  ensures (processSelection pfv context result typename selection mergedFields workSet).
Proof.
  intros Hflag Hpfv. unfold processSelection.
  repeat match goal with
         | |- ensures (if ?b then _ else _) => destruct b
         | |- ensures (match ?x with _ => _ end) => destruct x
         | |- ensures (ret _) => apply ensures_ret
         | |- ensures (throw _) => apply ensures_throw
         | |- ensures (bind _ _) => apply ensures_bind; [|intros ?]
         | |- ensures (pfv _ _) => apply Hpfv
         | |- ensures (fun st => Done _ _) => intros st; apply Hflag
         end.
Qed.
End Ensures.

Lemma indexOf_found_app sets selectionSet more :
  indexOf_found sets selectionSet = true ->
  indexOf_found (sets ++ more) selectionSet = true.
Proof. unfold indexOf_found. rewrite existsb_app. intros ->. reflexivity. Qed.

Lemma indexOf_found_snoc sets selectionSet :
  indexOf_found (sets ++ [selectionSet]) selectionSet = true.
Proof.
  unfold indexOf_found. rewrite existsb_app. simpl.
  rewrite Nat.eqb_refl. apply orb_true_r.
Qed.

Lemma written_sets_set_written dataId sets st dataId' :
  written_sets (set_written dataId sets st) dataId' =
    if decide (dataId = dataId') then sets else written_sets st dataId'.
Proof.
  unfold written_sets, set_written. simpl.
  destruct (decide (dataId = dataId')) as [->|Hne].
  - by rewrite lookup_insert_eq.
  - by rewrite lookup_insert_ne.
Qed.

Lemma set_written_grows dataId selectionSet st :
  written_grows st (set_written dataId (written_sets st dataId ++ [selectionSet]) st).
Proof.
  intros dataId' selectionSet' Hin. rewrite written_sets_set_written.
  destruct (decide (dataId = dataId')) as [->|]; [|exact Hin].
  by apply indexOf_found_app.
Qed.

Lemma loop_written_grows fuel pfv context result typename visited mergedFields workSet :
  (forall value field, ensures written_grows (pfv value field)) ->
  ensures written_grows
    (workSet_forEach fuel (processSelection pfv context result typename)
       visited mergedFields workSet).
Proof.
  intros Hpfv. apply ensures_forEach; [typeclasses eauto|]. intros.
  apply ensures_processSelection;
    [typeclasses eauto | intros ? ? ? Hin; exact Hin | exact Hpfv].
Qed.

(** Every call of a write pass only adds to [context.written]. *)
Lemma write_pass_written_grows fuel :
  (forall context dataId result selectionSet typename,
      ensures written_grows
        (processSelectionSet fuel context dataId result selectionSet typename)) /\
  (forall context value field,
      ensures written_grows (processFieldValue fuel context value field)).
Proof.
  induction fuel as [|fuel [IHset IHvalue]].
  - split; intros; intros st; exact I.
  - split.
    + intros context dataId result selectionSet typename st. simpl.
      destruct (effective_dataId context dataId result selectionSet) as [id|];
        [destruct (indexOf_found _ _); [simpl; reflexivity|]|].
      all: match goal with
           | |- post _ _ (bind ?m ?k ?st1) =>
               assert (Hloop : ensures written_grows m)
                 by (apply loop_written_grows; intros; apply IHvalue);
               specialize (Hloop st1); unfold bind;
               destruct (m st1) as [mergedFields st2|e st2|]; simpl in *; try exact I
           end.
      * etransitivity; [apply set_written_grows|]. exact Hloop.
      * etransitivity; [apply set_written_grows|]. exact Hloop.
      * exact Hloop.
      * exact Hloop.
    + intros context value field. simpl.
      destruct (field_selectionSet field) as [selectionSet|];
        [|apply ensures_ret; typeclasses eauto].
      destruct value; try (apply ensures_ret; typeclasses eauto); try apply IHset.
      apply ensures_bind; [typeclasses eauto| |intros; apply ensures_ret; typeclasses eauto].
      apply ensures_mapM; [typeclasses eauto|]. intros item. apply IHvalue.
Qed.

(** The first processing of a (dataId, selection set) pair records it. *)
Lemma processSelectionSet_records fuel context dataId result selectionSet typename st v st' id :
  processSelectionSet fuel context dataId result selectionSet typename st = Done v st' ->
  effective_dataId context dataId result selectionSet = Some id ->
  indexOf_found (written_sets st' id) selectionSet = true.
Proof.
  intros Hdone Hid.
  pose proof (proj1 (write_pass_written_grows fuel) context dataId result selectionSet
                typename st) as Hgrows.
  rewrite Hdone in Hgrows. simpl in Hgrows.
  destruct fuel as [|fuel]; [discriminate|]. simpl in Hdone. rewrite Hid in Hdone.
  destruct (indexOf_found (written_sets st id) selectionSet) eqn:Halready.
  - apply Hgrows, Halready.
  - unfold bind in Hdone.
    match type of Hdone with
    | match ?m ?st1 with _ => _ end = _ =>
        assert (Hloop : ensures written_grows m)
          by (apply loop_written_grows; intros;
              apply (proj2 (write_pass_written_grows fuel)));
        specialize (Hloop st1);
        destruct (m st1) as [mergedFields st2|e st2|]; try discriminate
    end.
    simpl in Hloop. injection Hdone as _ <-.
    change (indexOf_found (written_sets st2 id) selectionSet = true).
    apply Hloop. rewrite written_sets_set_written.
    destruct (decide (id = id)); [|done]. apply indexOf_found_snoc.
Qed.

(** A pair already recorded: the call returns the reference at once and
    changes nothing. *)
Lemma processSelectionSet_already fuel context dataId result selectionSet typename st id :
  effective_dataId context dataId result selectionSet = Some id ->
  indexOf_found (written_sets st id) selectionSet = true ->
  processSelectionSet (S fuel) context dataId result selectionSet typename st =
    Done (makeReference id) st.
Proof. intros Hid Hin. simpl. rewrite Hid, Hin. reflexivity. Qed.

(** *** Termination *)

Lemma depth_item items item :
  item ∈ items -> depth item < depth (JArray items).
Proof.
  simpl. induction items as [|x items IH]; intros Hin.
  - by apply elem_of_nil in Hin.
  - simpl. apply elem_of_cons in Hin as [-> | Hin]; [lia|].
    specialize (IH Hin). lia.
Qed.

Lemma depth_assoc fields key value :
  assoc key fields = Some value -> depth value < depth (JObject fields).
Proof.
  simpl. induction fields as [|[k v] fields IH]; [discriminate|]. simpl.
  destruct (String.eqb k key).
  - intros [= ->]. lia.
  - intros Hget. specialize (IH Hget). lia.
Qed.

Lemma heap_depth_cell address fields :
  heap !! address = Some fields -> depth (JObject fields) <= heap_depth.
Proof.
  intros Hcell. apply max_list_elem_of_le, list_elem_of_fmap.
  exists fields. split; [reflexivity|]. by eapply list_elem_of_lookup_2.
Qed.

(** An own property lies less deep than the object that has it. *)
Lemma own_get_height result key value :
  own_get result key = Some value -> depth value < height result.
Proof.
  destruct result as [| | | | |fields|address| |]; try discriminate; simpl.
  - apply depth_assoc.
  - destruct (heap !! address) as [fields|] eqn:Hcell; [|discriminate]. simpl.
    intros Hget. pose proof (depth_assoc _ _ _ Hget).
    pose proof (heap_depth_cell _ _ Hcell). lia.
Qed.

Lemma result_get_own known result selection value :
  reads_own_properties known -> selection ∈ known -> isField selection = true ->
  result_get result (resultKeyNameFromField selection) = Normal (Some value) ->
  own_get result (resultKeyNameFromField selection) = Some value.
Proof.
  intros Hown Hin Hfield. unfold result_get.
  destruct (own_get result _) as [own|] eqn:Hget.
  - destruct result; congruence.
  - rewrite (Hown result selection Hin Hfield). by destruct result.
Qed.

Lemma filter_length_le_impl {A} (f g : A -> bool) (l : list A) :
  (forall x, x ∈ l -> f x = true -> g x = true) ->
  length (List.filter f l) <= length (List.filter g l).
Proof.
  induction l as [|x l IH]; intros Himpl; [reflexivity|]. simpl.
  assert (Hrest : length (List.filter f l) <= length (List.filter g l)).
  { apply IH. intros y Hy. apply Himpl, elem_of_cons. by right. }
  pose proof (Himpl x (proj2 (elem_of_cons _ _ _) (or_introl eq_refl))) as Hx.
  destruct (f x); [rewrite Hx by reflexivity|destruct (g x)]; simpl; lia.
Qed.

Lemma filter_length_lt {A} (f g : A -> bool) (l : list A) (x : A) :
  (forall y, y ∈ l -> f y = true -> g y = true) ->
  x ∈ l -> g x = true -> f x = false ->
  length (List.filter f l) < length (List.filter g l).
Proof.
  induction l as [|y l IH]; intros Himpl Hin Hg Hf; [by apply elem_of_nil in Hin|].
  assert (Himpl' : forall z, z ∈ l -> f z = true -> g z = true).
  { intros z Hz. apply Himpl, elem_of_cons. by right. }
  pose proof (filter_length_le_impl f g l Himpl') as Hrest.
  pose proof (Himpl y (proj2 (elem_of_cons _ _ _) (or_introl eq_refl))) as Hy.
  simpl. apply elem_of_cons in Hin as [<- | Hin].
  - rewrite Hf, Hg. simpl. lia.
  - specialize (IH Himpl' Hin Hg Hf).
    destruct (f y); [rewrite Hy by reflexivity|destruct (g y)]; simpl; lia.
Qed.

Lemma omap_length_le {A B} (f : A -> option B) (l : list A) :
  length (omap f l) <= length l.
Proof.
  induction l as [|x l IH]; [reflexivity|]. csimpl. destruct (f x); simpl; lia.
Qed.

(** The (heap object, selection set) pairs a write can still enter:
    those whose (dataId, selection set) is not yet in [written]. *)
Section Pending.
Variable fragmentMap0 : FragmentMap.
Variable known : list SelectionNode.

Definition pairs : list (nat * SelectionSetNode) :=
  list_prod (seq 0 (length heap)) (omap field_selectionSet known).

Definition unrecorded (st : WriteState) (pair : nat * SelectionSetNode) : bool :=
  match identify (JRef pair.1) pair.2 fragmentMap0 with
  | Some id => negb (indexOf_found (written_sets st id) pair.2)
  | None => false
  end.

Definition pending (st : WriteState) : nat :=
  length (List.filter (unrecorded st) pairs).

Lemma pending_le st : pending st <= length heap * length known.
Proof.
  unfold pending, pairs.
  etransitivity; [apply List.filter_length_le|].
  rewrite List.length_prod, List.length_seq.
  apply Nat.mul_le_mono_l, omap_length_le.
Qed.

Lemma pending_grows st st' : written_grows st st' -> pending st' <= pending st.
Proof.
  intros Hgrows. apply filter_length_le_impl. intros [address selectionSet] _.
  unfold unrecorded. simpl. destruct (identify _ _ _) as [id|]; [|done].
  destruct (indexOf_found (written_sets st id) selectionSet) eqn:Hin; [|done].
  by rewrite (Hgrows _ _ Hin).
Qed.

Lemma pending_entered st address selectionSet id :
  address < length heap -> selectionSet ∈ omap field_selectionSet known ->
  identify (JRef address) selectionSet fragmentMap0 = Some id ->
  indexOf_found (written_sets st id) selectionSet = false ->
  pending (set_written id (written_sets st id ++ [selectionSet]) st) < pending st.
Proof.
  intros Haddress Hset Hid Hnew.
  apply (filter_length_lt _ _ _ (address, selectionSet)).
  - intros [address' selectionSet'] _. unfold unrecorded. simpl.
    destruct (identify (JRef address') selectionSet' fragmentMap0) as [id'|]; [|done].
    destruct (indexOf_found (written_sets st id') selectionSet') eqn:Hin; [|done].
    by rewrite (set_written_grows id selectionSet st _ _ Hin).
  - apply list_elem_of_In, in_prod; [apply in_seq; lia | by apply list_elem_of_In].
  - unfold unrecorded. simpl. by rewrite Hid, Hnew.
  - unfold unrecorded. simpl. rewrite Hid, written_sets_set_written.
    destruct (decide (id = id)); [|done]. by rewrite indexOf_found_snoc.
Qed.
End Pending.

(** A work set whose elements are distinct objects, all of them among
    the selections [known]. *)
Definition good (known workSet : list SelectionNode) : Prop :=
  NoDup (selection_id <$> workSet) /\ forall s, s ∈ workSet -> s ∈ known.

Lemma workSet_has_spec workSet selection :
  workSet_has workSet selection = true <->
  selection_id selection ∈ selection_id <$> workSet.
Proof.
  unfold workSet_has. rewrite existsb_exists, list_elem_of_fmap. split.
  - intros (s & Hs & Heq). apply Nat.eqb_eq in Heq.
    exists s. split; [done | by apply list_elem_of_In].
  - intros (s & Heq & Hs). exists s. split; [by apply list_elem_of_In|].
    by apply Nat.eqb_eq.
Qed.

Lemma workSet_add_good known workSet selection :
  good known workSet -> selection ∈ known -> good known (workSet_add workSet selection).
Proof.
  intros [Hnodup Hknown] Hin. unfold workSet_add.
  destruct (workSet_has workSet selection) eqn:Hhas; [by split|]. split.
  - rewrite fmap_app. apply NoDup_app. split; [exact Hnodup|]. split.
    + intros x Hx Hx'. simpl in Hx'. apply list_elem_of_singleton in Hx' as ->.
      apply workSet_has_spec in Hx. congruence.
    + simpl. apply NoDup_singleton.
  - intros s Hs. apply elem_of_app in Hs as [Hs | Hs]; [by apply Hknown|].
    by apply list_elem_of_singleton in Hs as ->.
Qed.

Lemma foldl_workSet_add_good known ss workSet :
  good known workSet -> (forall s, s ∈ ss -> s ∈ known) ->
  good known (foldl workSet_add workSet ss).
Proof.
  revert workSet. induction ss as [|s ss IH]; intros workSet Hgood Hss; [exact Hgood|].
  simpl. apply IH.
  - apply workSet_add_good; [exact Hgood|]. apply Hss, elem_of_cons. by left.
  - intros s' Hs'. apply Hss, elem_of_cons. by right.
Qed.

Lemma good_length known workSet : good known workSet -> length workSet <= length known.
Proof.
  intros [Hnodup Hknown].
  rewrite <- (length_fmap selection_id workSet), <- (length_fmap selection_id known).
  apply submseteq_length, NoDup_submseteq; [exact Hnodup|].
  intros x Hx. apply list_elem_of_fmap in Hx as (s & -> & Hs).
  apply list_elem_of_fmap. exists s. split; [done | by apply Hknown].
Qed.

Lemma workSet_add_prefix workSet selection :
  workSet `prefix_of` workSet_add workSet selection.
Proof.
  unfold workSet_add. destruct (workSet_has workSet selection); [done|].
  by apply prefix_app_r.
Qed.

Lemma foldl_workSet_add_prefix ss workSet :
  workSet `prefix_of` foldl workSet_add workSet ss.
Proof.
  revert workSet. induction ss as [|s ss IH]; intros workSet; [done|].
  simpl. etransitivity; [apply workSet_add_prefix | apply IH].
Qed.

(** The loop over a work set ends: it visits each of its elements once,
    and there are no more of them than [known] selections.  [inv] is
    what the states of the loop have in common. *)
Lemma workSet_forEach_total known (inv : WriteState -> Prop) body :
  (forall selection mergedFields workSet st,
      selection ∈ known -> good known workSet -> inv st ->
      match body selection mergedFields workSet st with
      | Done (_, workSet') st' => good known workSet' /\ inv st'
      | Thrown _ _ => True
      | OutOfFuel => False
      end) ->
  forall fuel visited mergedFields workSet st,
    good known workSet -> inv st -> length known - visited < fuel ->
    workSet_forEach fuel body visited mergedFields workSet st <> OutOfFuel.
Proof.
  intros Hbody. induction fuel as [|fuel IH]; intros visited mergedFields workSet st
    Hgood Hinv Hfuel; [lia|].
  simpl. destruct (workSet !! visited) as [selection|] eqn:Hsel; [|discriminate].
  pose proof (lookup_lt_Some _ _ _ Hsel) as Hlt.
  pose proof (good_length _ _ Hgood) as Hlen.
  unfold bind.
  specialize (Hbody selection mergedFields workSet st
                (proj2 Hgood _ (list_elem_of_lookup_2 _ _ _ Hsel)) Hgood Hinv).
  destruct (body selection mergedFields workSet st) as [[mergedFields' workSet'] st'|e st'|];
    [|discriminate|done].
  destruct Hbody as [Hgood' Hinv']. apply IH; [exact Hgood' | exact Hinv' | lia].
Qed.

Lemma processSelection_good known pfv context result typename
    selection mergedFields workSet st :
  closed (fragmentMap context) known ->
  (forall value, isField selection = true ->
                 result_get result (resultKeyNameFromField selection) = Normal (Some value) ->
                 pfv value selection st <> OutOfFuel) ->
  selection ∈ known -> good known workSet ->
  match processSelection pfv context result typename selection mergedFields workSet st with
  | Done (_, workSet') _ => good known workSet'
  | Thrown _ _ => True
  | OutOfFuel => False
  end.
Proof.
  intros Hclosed Hpfv Hin Hgood. unfold processSelection.
  destruct (negb (shouldInclude _ _)); [exact Hgood|].
  destruct (isField selection).
  - destruct (result_get result _) as [[value|]|e] eqn:Hget; [| |done].
    + unfold bind. specialize (Hpfv value eq_refl eq_refl).
      destruct (pfv value selection st) as [incoming st'|e st'|]; [|done|done].
      destruct (hasMergeFunction _ _); exact Hgood.
    + destruct (usingPossibleTypes && _); [done | exact Hgood].
  - destruct (getFragmentFromSelection _ _) as [fragment|] eqn:Hfragment; [|done].
    destruct (fragmentMatches _ _); [|exact Hgood].
    apply foldl_workSet_add_good; [exact Hgood|].
    apply (proj2 (Hclosed _ Hin) fragment Hfragment).
Qed.

Lemma mapM_total {A B} (inv : WriteState -> Prop) (f : A -> W B) xs st :
  (forall x st', x ∈ xs -> inv st' ->
                 match f x st' with
                 | Done _ st'' => inv st''
                 | Thrown _ _ => True
                 | OutOfFuel => False
                 end) ->
  inv st -> mapM f xs st <> OutOfFuel.
Proof.
  revert st. induction xs as [|x xs IH]; intros st Hf Hinv; [discriminate|].
  simpl. unfold bind at 1.
  pose proof (Hf x st (proj2 (elem_of_cons _ _ _) (or_introl eq_refl)) Hinv) as Hx.
  destruct (f x st) as [y st'|e st'|]; [|discriminate|done].
  unfold bind.
  assert (Hrest : mapM f xs st' <> OutOfFuel).
  { apply IH; [|exact Hx]. intros x' st'' Hx'. apply Hf, elem_of_cons. by right. }
  destruct (mapM f xs st') as [ys st''|e st''|]; [discriminate|discriminate|done].
Qed.

Lemma field_selectionSet_children field selectionSet :
  field_selectionSet field = Some selectionSet ->
  children field = selections selectionSet.
Proof. destruct field as [? ? ? ? ? [ss|]| |]; simpl; congruence. Qed.

(** The state in which a call does its work: the one it found, with the
    pair recorded when there is a dataId. *)
Definition entered (context : WriteContext) (dataId : option string)
    (result : JsonValue) (selectionSet : SelectionSetNode) (st : WriteState)
  : WriteState :=
  match effective_dataId context dataId result selectionSet with
  | Some id => set_written id (written_sets st id ++ [selectionSet]) st
  | None => st
  end.

Lemma entered_grows context dataId result selectionSet st :
  written_grows st (entered context dataId result selectionSet st).
Proof.
  unfold entered. destruct (effective_dataId _ _ _ _); [apply set_written_grows|].
  reflexivity.
Qed.

Section Termination.
Variable context : WriteContext.
Variable known : list SelectionNode.
Hypothesis Hclosed : closed (fragmentMap context) known.
Hypothesis Hown : reads_own_properties known.
Hypothesis Hidentified : heap_identified (fragmentMap context) known.

Let remaining := pending (fragmentMap context) known.

(** A call ends when the calls it makes for the fields of its
    result end, in every state of its loop. *)
Lemma processSelectionSet_total_with fuel m dataId result selectionSet typename st :
  (forall selection value st',
      selection ∈ known -> isField selection = true ->
      result_get result (resultKeyNameFromField selection) = Normal (Some value) ->
      remaining st' <= m ->
      processFieldValue fuel context value selection st' <> OutOfFuel) ->
  (forall s, s ∈ selections selectionSet -> s ∈ known) ->
  remaining (entered context dataId result selectionSet st) <= m ->
  length known < fuel ->
  processSelectionSet (S fuel) context dataId result selectionSet typename st
    <> OutOfFuel.
Proof.
  intros Hfields Hsel Hm Hfuel. simpl. unfold entered in Hm.
  destruct (match effective_dataId context dataId result selectionSet with
            | Some id => indexOf_found (written_sets st id) selectionSet
            | None => false
            end); [discriminate|].
  match goal with
  | |- bind ?m ?k ?st1 <> _ =>
      assert (Hloop : m st1 <> OutOfFuel);
      [|unfold bind; destruct (m st1) as [mergedFields st2|e st2|];
        [destruct (effective_dataId context dataId result selectionSet);
         discriminate | discriminate | done]]
  end.
  apply (workSet_forEach_total known (fun st' => remaining st' <= m)).
  - intros selection mergedFields workSet st' Hin Hgood Hst'.
    pose proof (processSelection_good known (processFieldValue fuel context) context
                  result
                  (js_or typename
                     (js_or (getTypenameFromResult result selectionSet
                               (fragmentMap context))
                        (get_typename
                           (store
                              match effective_dataId context dataId result selectionSet
                              with
                              | Some id =>
                                  set_written id (written_sets st id ++ [selectionSet]) st
                              | None => st
                              end)
                           (effective_dataId context dataId result selectionSet))))
                  selection mergedFields workSet st' Hclosed
                  (fun value Hfield Hget => Hfields selection value st' Hin Hfield Hget Hst')
                  Hin Hgood) as Hgood'.
    pose proof (ensures_processSelection written_grows (processFieldValue fuel context)
                  context result
                  (js_or typename
                     (js_or (getTypenameFromResult result selectionSet
                               (fragmentMap context))
                        (get_typename
                           (store
                              match effective_dataId context dataId result selectionSet
                              with
                              | Some id =>
                                  set_written id (written_sets st id ++ [selectionSet]) st
                              | None => st
                              end)
                           (effective_dataId context dataId result selectionSet))))
                  selection mergedFields workSet
                  (fun st0 dataId0 selectionSet0 Hin0 => Hin0)
                  (fun value field => proj2 (write_pass_written_grows fuel) context
                                        value field) st') as Hgrows.
    match type of Hgood' with
    | match ?o with _ => _ end =>
        destruct o as [[mergedFields' workSet'] st''|e st''|]; [|done|done]
    end.
    simpl in Hgrows. split; [exact Hgood'|].
    etransitivity; [apply pending_grows, Hgrows | exact Hst'].
  - apply foldl_workSet_add_good; [|exact Hsel].
    split; [apply NoDup_nil_2 | intros s Hs; by apply elem_of_nil in Hs].
  - destruct (effective_dataId context dataId result selectionSet); exact Hm.
  - lia.
Qed.

(** The value of a field is written in a number of calls bounded by
    its depth and by the pairs that remain to be entered. *)
Lemma processFieldValue_total m :
  forall d fuel value field st,
    depth value <= d -> field ∈ known -> remaining st <= m ->
    length known + 2 * d + (2 * heap_depth + 2) * m + 3 <= fuel ->
    processFieldValue fuel context value field st <> OutOfFuel.
Proof.
  induction m as [m IHm] using lt_wf_ind.
  induction d as [d IHd] using lt_wf_ind.
  intros [|fuel] value field st Hd Hin Hm Hfuel; [lia|].
  simpl. destruct (field_selectionSet field) as [selectionSet|] eqn:Hss; [|discriminate].
  assert (Hchildren : forall s, s ∈ selections selectionSet -> s ∈ known).
  { intros s Hs. apply (proj1 (Hclosed _ Hin)).
    by rewrite (field_selectionSet_children _ _ Hss). }
  assert (Hset : selectionSet ∈ omap field_selectionSet known).
  { apply list_elem_of_omap. by exists field. }
  assert (Hcall :
           (forall items, value <> JArray items) ->
           processSelectionSet fuel context None value selectionSet None st
             <> OutOfFuel).
  { intros Harray. destruct fuel as [|fuel]; [lia|].
    pose proof (pending_grows (fragmentMap context) known _ _
                  (entered_grows context None value selectionSet st)) as Hentered.
    assert (Hcases : (exists address fields,
                         value = JRef address /\ heap !! address = Some fields) \/
                     ~ (exists address fields,
                           value = JRef address /\ heap !! address = Some fields)).
    { destruct value as [| | | | | |address| |];
        try (right; intros (? & ? & ? & ?); discriminate).
      destruct (heap !! address) as [fields|] eqn:Hcell; [left; by eauto|].
      right. intros (address' & fields & [= <-] & Hcell'). congruence. }
    destruct Hcases as [(address & fields & -> & Hcell)|Hinline].
    - (* an object of the heap: entering it uses up a pair *)
      pose proof (lookup_lt_Some _ _ _ Hcell) as Haddress.
      destruct (Hidentified address selectionSet Haddress Hset) as [id Hid].
      assert (Heff : effective_dataId context None (JRef address) selectionSet
                     = Some id).
      { unfold effective_dataId. simpl. by rewrite Hid. }
      destruct (indexOf_found (written_sets st id) selectionSet) eqn:Hnew.
      { rewrite (processSelectionSet_already _ _ _ _ _ _ _ id Heff Hnew).
        discriminate. }
      pose proof (pending_entered (fragmentMap context) known st address selectionSet
                    id Haddress Hset Hid Hnew) as Hless.
      apply (processSelectionSet_total_with fuel (m - 1)).
      + intros selection kid st' Hsel Hfield Hget Hst'.
        apply (result_get_own known) in Hget; [|assumption..].
        pose proof (own_get_height _ _ _ Hget) as Hdepth. simpl in Hdepth.
        apply (IHm (m - 1) ltac:(fold remaining in Hless; lia) heap_depth);
          [lia | exact Hsel | exact Hst' |].
        fold remaining in Hless.
        assert ((2 * heap_depth + 2) * m
                = (2 * heap_depth + 2) * (m - 1) + (2 * heap_depth + 2)) by nia.
        lia.
      + exact Hchildren.
      + unfold entered. rewrite Heff. fold remaining in Hless. lia.
      + lia.
    - (* an object given in place, or a value without own properties *)
      apply (processSelectionSet_total_with fuel m).
      + intros selection kid st' Hsel Hfield Hget Hst'.
        apply (result_get_own known) in Hget; [|assumption..].
        pose proof (own_get_height _ _ _ Hget) as Hdepth.
        assert (Hkid : depth kid < d).
        { destruct value as [| | | | |fields|address| |]; try discriminate;
            simpl in Hdepth, Hd; [simpl in Hd; lia|].
          simpl in Hget. destruct (heap !! address) as [fields|] eqn:Hcell;
            [|discriminate].
          destruct Hinline. by exists address, fields. }
        apply (IHd (d - 1) ltac:(lia)); [lia | exact Hsel | exact Hst' | lia].
      + exact Hchildren.
      + fold remaining in Hentered. lia.
      + lia. }
  destruct value as [| | | |items| | | |]; try discriminate;
    try (apply Hcall; intros items; discriminate).
  unfold bind.
  assert (Hitems : mapM (fun item => processFieldValue fuel context item field) items st
                   <> OutOfFuel).
  { apply (mapM_total (fun st' => remaining st' <= m)); [|exact Hm].
    intros item st' Hitem Hst'.
    pose proof (depth_item _ _ Hitem) as Hlt.
    pose proof (IHd (d - 1) ltac:(lia) fuel item field st' ltac:(lia) Hin Hst'
                  ltac:(lia)) as Hends.
    pose proof (proj2 (write_pass_written_grows fuel) context item field st')
      as Hgrows.
    destruct (processFieldValue fuel context item field st') as [v st''|e st''|];
      [|done|done].
    simpl in Hgrows.
    etransitivity; [apply pending_grows, Hgrows | exact Hst']. }
  destruct (mapM _ items st) as [items' st'|e st'|]; [discriminate|discriminate|done].
Qed.

(** A write of a selection set ends: with [write_fuel] the model
    returns or throws. *)
Lemma processSelectionSet_total fuel dataId result selectionSet typename st :
  (forall s, s ∈ selections selectionSet -> s ∈ known) ->
  write_fuel known result <= fuel ->
  processSelectionSet fuel context dataId result selectionSet typename st
    <> OutOfFuel.
Proof.
  unfold write_fuel. intros Hsel Hfuel. destruct fuel as [|fuel]; [lia|].
  pose proof (pending_le (fragmentMap context) known) as Hle.
  fold remaining in Hle.
  apply (processSelectionSet_total_with fuel (length heap * length known));
    [|exact Hsel|apply Hle|lia].
  intros selection kid st' Hin Hfield Hget Hst'.
  apply (result_get_own known) in Hget; [|assumption..].
  pose proof (own_get_height _ _ _ Hget) as Hdepth.
  apply (processFieldValue_total (length heap * length known) (height result - 1));
    [lia | exact Hin | exact Hst' | lia].
Qed.
End Termination.

(** A write of a selection set ends, whatever the fragments of the
    document refer to and whatever cycles the result has, when its
    fields are own properties and the objects of the heap have ids. *)
Lemma processSelectionSet_terminates context dataId result selectionSet typename st fuel :
  reads_own_properties (universe (fragmentMap context) selectionSet) ->
  heap_identified (fragmentMap context) (universe (fragmentMap context) selectionSet) ->
  write_fuel (universe (fragmentMap context) selectionSet) result <= fuel ->
  processSelectionSet fuel context dataId result selectionSet typename st <> OutOfFuel.
Proof.
  intros Hown Hidentified Hfuel.
  apply (processSelectionSet_total context _ (universe_closed _ selectionSet)
           Hown Hidentified); [|exact Hfuel].
  intros s Hs. by apply universe_contains.
Qed.

(** *** The loop visits every selection *)

Lemma processSelection_prefix pfv context result typename selection
    mergedFields workSet st mergedFields' workSet' st' :
  processSelection pfv context result typename selection mergedFields workSet st
    = Done (mergedFields', workSet') st' ->
  workSet `prefix_of` workSet'.
Proof.
  unfold processSelection.
  destruct (negb (shouldInclude _ _)); [by intros [= _ <- _]|].
  destruct (isField selection).
  - destruct (result_get result _) as [[value|]|e]; [| |discriminate].
    + unfold bind. destruct (pfv value selection st) as [incoming st1|e st1|];
        [|discriminate|discriminate].
      destruct (hasMergeFunction _ _); by intros [= _ <- _].
    + destruct (usingPossibleTypes && _); [discriminate | by intros [= _ <- _]].
  - destruct (getFragmentFromSelection _ _) as [fragment|]; [|discriminate].
    destruct (fragmentMatches _ _); intros [= _ <- _]; [|done].
    apply foldl_workSet_add_prefix.
Qed.

Lemma workSet_forEach_visits fuel body :
  (forall selection mergedFields workSet st mergedFields' workSet' st',
      body selection mergedFields workSet st = Done (mergedFields', workSet') st' ->
      workSet `prefix_of` workSet') ->
  forall visited mergedFields workSet st r st',
    workSet_forEach fuel body visited mergedFields workSet st = Done r st' ->
    forall i selection, visited <= i -> workSet !! i = Some selection ->
      exists mergedFields0 workSet0 st0 out st1,
        body selection mergedFields0 workSet0 st0 = Done out st1.
Proof.
  intros Hprefix. induction fuel as [|fuel IH];
    intros visited mergedFields workSet st r st' Hdone i selection Hi Hsel;
    [discriminate|].
  simpl in Hdone. destruct (workSet !! visited) as [first|] eqn:Hfirst.
  - unfold bind in Hdone.
    destruct (body first mergedFields workSet st) as [[mergedFields1 workSet1] st1|e st1|]
      eqn:Hbody; [|discriminate|discriminate].
    destruct (decide (i = visited)) as [->|Hne].
    + rewrite Hfirst in Hsel. injection Hsel as <-. eauto 10.
    + apply (IH _ _ _ _ _ _ Hdone i selection); [lia|].
      eapply prefix_lookup_Some; [exact Hsel|]. by eapply Hprefix.
  - apply lookup_ge_None in Hfirst. apply lookup_lt_Some in Hsel. lia.
Qed.

(** The pair a call works with has not been processed in this pass. *)
Definition first_time (context : WriteContext) (dataId : option string)
    (result : JsonValue) (selectionSet : SelectionSetNode) (st : WriteState) : Prop :=
  match effective_dataId context dataId result selectionSet with
  | Some id => indexOf_found (written_sets st id) selectionSet = false
  | None => True
  end.

(** *** C8 *)


(** *** C2 *)


(** *** What a write does to the store *)

(** [merged_into c c']: [c'] is [c] after some calls of [store.merge]. *)
Definition merged_into : relation Cache :=
  rtc (fun c c' => exists dataId fields, c' = merge dataId fields c).

Definition only_merges : relation WriteState :=
  fun st st' => merged_into (store st) (store st').

#[local] Instance only_merges_pre : PreOrder only_merges.
Proof.
  split.
  - intros st. apply rtc_refl.
  - intros a b c Hab Hbc. unfold only_merges in *. by etransitivity.
Qed.

Lemma write_pass_only_merges fuel :
  (forall context dataId result selectionSet typename,
      ensures only_merges
        (processSelectionSet fuel context dataId result selectionSet typename)) /\
  (forall context value field,
      ensures only_merges (processFieldValue fuel context value field)).
Proof.
  induction fuel as [|fuel [IHset IHvalue]].
  - split; intros; intros st; exact I.
  - split.
    + intros context dataId result selectionSet typename st. simpl.
      destruct (effective_dataId context dataId result selectionSet) as [id|];
        [destruct (indexOf_found _ _); [simpl; reflexivity|]|].
      all: match goal with
           | |- post _ _ (bind ?m ?k ?st1) =>
               assert (Hloop : ensures only_merges m)
                 by (apply ensures_forEach; [typeclasses eauto|]; intros;
                     apply ensures_processSelection;
                     [typeclasses eauto | intros ?; apply rtc_refl
                     | intros; apply IHvalue]);
               specialize (Hloop st1); unfold bind;
               destruct (m st1) as [mergedFields st2|e st2|]; simpl in *; try exact I
           end.
      * unfold only_merges in *. simpl in *.
        eapply rtc_r; [exact Hloop|]. eauto.
      * exact Hloop.
      * exact Hloop.
      * exact Hloop.
    + intros context value field. simpl.
      destruct (field_selectionSet field) as [selectionSet|];
        [|apply ensures_ret; typeclasses eauto].
      destruct value; try (apply ensures_ret; typeclasses eauto); try apply IHset.
      apply ensures_bind; [typeclasses eauto| |intros; apply ensures_ret; typeclasses eauto].
      apply ensures_mapM; [typeclasses eauto|]. intros item. apply IHvalue.
Qed.

(** X18: [writeQueryToStore] touches the store through [retain] and [merge]
    only: the store it returns, and also the one it leaves behind when
    it throws, is the store it was given, with the root id retained,
    after a sequence of [store.merge] calls.  Nothing is ever deleted or
    replaced by another method. *)
Theorem writeQueryToStore_only_merges fuel query result dataId store0 variables0 :
  match writeQueryToStore fuel query result dataId store0 variables0 with
  | Done c st => c = store st /\ merged_into (retain dataId store0) c
  | Thrown _ st => merged_into (retain dataId store0) (store st)
  | OutOfFuel => True
  end.
Proof.
  unfold writeQueryToStore.
  destruct (operationDefinition query) as [operation|]; [|simpl; apply rtc_refl].
  match goal with
  | |- context [processSelectionSet fuel ?c ?d ?r ?ss ?t ?st] =>
      pose proof (proj1 (write_pass_only_merges fuel) c d r ss t st) as Hpass;
      destruct (processSelectionSet fuel c d r ss t st) as [v st'|e st'|]
  end; simpl in *; [split; [reflexivity|]| |]; exact Hpass.
Qed.

(** *** Field values *)

Lemma mapM_Forall2 {A B} (f : A -> W B) xs st ys st' :
  mapM f xs st = Done ys st' ->
  Forall2 (fun x y => exists st1 st2, f x st1 = Done y st2) xs ys.
Proof.
  revert st ys st'. induction xs as [|x xs IH]; intros st ys st'; simpl.
  - intros [= <- _]. constructor.
  - unfold bind at 1. destruct (f x st) as [y st1|e st1|] eqn:Hx; try discriminate.
    unfold bind. destruct (mapM f xs st1) as [ys' st2|e st2|] eqn:Hxs; try discriminate.
    intros [= <- _]. constructor; [eauto | by eapply IH].
Qed.

(** X19: The value of a field with a selection set, when it is an array, is
    written element by element: the value stored is an array of the
    same length whose elements are what [processFieldValue] returns for
    the elements of the result, with the same field.  Arrays of arrays
    are therefore stored with their nesting. *)
Theorem array_is_written_elementwise fuel context items field selectionSet st v st' :
  field_selectionSet field = Some selectionSet ->
  processFieldValue (S fuel) context (JArray items) field st = Done v st' ->
  exists items',
    v = SVArray items' /\ length items' = length items /\
    Forall2 (fun item item' =>
               exists st1 st2,
                 processFieldValue fuel context item field st1 = Done item' st2)
            items items'.
Proof.
  intros Hss. simpl. rewrite Hss. unfold bind.
  destruct (mapM _ items st) as [items' st1|e st1|] eqn:Hitems; try discriminate.
  intros [= <- _]. exists items'. apply mapM_Forall2 in Hitems.
  split; [reflexivity|]. split; [|exact Hitems].
  symmetry. by eapply Forall2_length.
Qed.

(** X20: The value of a field with a selection set, when it is an object
    (neither null nor an array): if [policies.identify] gives it an id,
    the field stores a reference to that id and the object is recorded
    in [written] as processed with this selection set; if not, the
    field stores the object itself. *)
Theorem nested_object_is_normalised fuel context value field selectionSet st v st' :
  field_selectionSet field = Some selectionSet ->
  value <> JNull -> (forall items, value <> JArray items) ->
  processFieldValue fuel context value field st = Done v st' ->
  match identify value selectionSet (fragmentMap context) with
  | Some id =>
      v = makeReference id /\ indexOf_found (written_sets st' id) selectionSet = true
  | None => exists fields, v = SVObject fields
  end.
Proof.
  intros Hss Hnull Harray. destruct fuel as [|fuel]; [discriminate|].
  simpl. rewrite Hss.
  assert (Hcall : processSelectionSet fuel context None value selectionSet None st
                    = Done v st' ->
                  match identify value selectionSet (fragmentMap context) with
                  | Some id =>
                      v = makeReference id /\
                      indexOf_found (written_sets st' id) selectionSet = true
                  | None => exists fields, v = SVObject fields
                  end).
  { intros Hdone.
    assert (Hid : effective_dataId context None value selectionSet =
                  identify value selectionSet (fragmentMap context)).
    { unfold effective_dataId. simpl. by destruct (identify _ _ _). }
    pose proof (processSelectionSet_records fuel context None value selectionSet None
                  st v st') as Hrecords.
    destruct fuel as [|fuel]; [discriminate|]. simpl in Hdone.
    rewrite Hid in Hdone, Hrecords.
    destruct (identify value selectionSet (fragmentMap context)) as [id|].
    - split; [|by apply Hrecords; [simpl; rewrite Hid|]].
      destruct (indexOf_found _ _); [by injection Hdone as <- _|].
      unfold bind in Hdone.
      match type of Hdone with
      | match ?m ?st1 with _ => _ end = _ => destruct (m st1); try discriminate
      end.
      by injection Hdone as <- _.
    - unfold bind in Hdone.
      match type of Hdone with
      | match ?m ?st1 with _ => _ end = _ =>
          destruct (m st1) as [fields ?| |]; try discriminate
      end.
      injection Hdone as <- _. by eexists. }
  destruct value; try exact Hcall; [done | by destruct (Harray items)].
Qed.

(** *** One step of a call *)

Lemma workSet_forEach_step fuel body visited mergedFields workSet selection st :
  workSet !! visited = Some selection ->
  workSet_forEach (S fuel) body visited mergedFields workSet st =
    match body selection mergedFields workSet st with
    | Done (mergedFields', workSet') st' =>
        workSet_forEach fuel body (S visited) mergedFields' workSet' st'
    | Thrown e st' => Thrown e st'
    | OutOfFuel => OutOfFuel
    end.
Proof.
  intros Hsel. simpl. rewrite Hsel. unfold bind.
  by destruct (body selection mergedFields workSet st) as [[? ?] ?| |].
Qed.

(** The first call for a pair does not return when its loop does
    not. *)
Lemma processSelectionSet_unfinished fuel context dataId result selectionSet typename st :
  first_time context dataId result selectionSet st ->
  (forall mergedFields,
      workSet_forEach fuel
        (processSelection (processFieldValue fuel context) context result
           (js_or typename
              (js_or (getTypenameFromResult result selectionSet (fragmentMap context))
                     (get_typename (store st)
                        (effective_dataId context dataId result selectionSet)))))
        0 mergedFields (new_Set (selections selectionSet))
        (entered context dataId result selectionSet st) = OutOfFuel) ->
  processSelectionSet (S fuel) context dataId result selectionSet typename st = OutOfFuel.
Proof.
  unfold first_time, entered. intros Hfirst Hloop. simpl.
  destruct (effective_dataId context dataId result selectionSet) as [id|].
  - rewrite Hfirst. unfold bind. by rewrite Hloop.
  - unfold bind. by rewrite Hloop.
Qed.

(** A fragment that matches adds its selections to the work set. *)
Lemma processSelection_fragment pfv context result typename selection fragment
    mergedFields workSet st :
  shouldInclude selection (variables context) = true ->
  isField selection = false ->
  getFragmentFromSelection selection (fragmentMap context) = Some fragment ->
  fragmentMatches fragment typename = true ->
  processSelection pfv context result typename selection mergedFields workSet st
    = Done (mergedFields,
            foldl workSet_add workSet (selections (fragment_selectionSet fragment))) st.
Proof.
  intros Hinclude Hfield Hfragment Hmatches. unfold processSelection.
  by rewrite Hinclude, Hfield, Hfragment, Hmatches.
Qed.

(** Nor does the processing of a field whose value is not written in
    the fuel there is. *)
Lemma processSelection_field_unfinished pfv context result typename selection value
    mergedFields workSet st :
  shouldInclude selection (variables context) = true ->
  isField selection = true ->
  result_get result (resultKeyNameFromField selection) = Normal (Some value) ->
  pfv value selection st = OutOfFuel ->
  processSelection pfv context result typename selection mergedFields workSet st
    = OutOfFuel.
Proof.
  intros Hinclude Hfield Hget Hvalue. unfold processSelection.
  rewrite Hinclude, Hfield, Hget. simpl. unfold bind. by rewrite Hvalue.
Qed.

(** The value of a field with a selection set, an object: it is written
    by [processSelectionSet], without dataId or typename. *)
Lemma processFieldValue_object fuel context value field selectionSet st :
  field_selectionSet field = Some selectionSet ->
  value <> JNull -> (forall items, value <> JArray items) ->
  processFieldValue (S fuel) context value field st =
    processSelectionSet fuel context None value selectionSet None st.
Proof.
  intros Hss Hnull Harray. simpl. rewrite Hss.
  destruct value; try reflexivity; [done | by destruct (Harray items)].
Qed.

End Facts.

(** *** Runs of the small instance *)
Section Runs.
#[local] Existing Instances Toy.cache Toy.runtime Toy.strict Toy.utilities.

Definition author_selection : SelectionSetNode :=
  SelectionSet 22 [FragmentSpread 23 "Friends" []].
Definition friend_selection : SelectionSetNode :=
  SelectionSet 35 [FragmentSpread 36 "Friends" []].
Definition Friends_universe : list SelectionNode :=
  Eval vm_compute in universe Toy.Friends Toy.author_and_friends.

Lemma Friends_universe_eq :
  universe (fragmentMap Toy.context_Friends) Toy.author_and_friends = Friends_universe.
Proof. vm_compute. reflexivity. Qed.

Lemma Friends_reads_own_properties :
  reads_own_properties (universe (fragmentMap Toy.context_Friends) Toy.author_and_friends).
Proof.
  rewrite Friends_universe_eq. intros value selection Hin Hfield.
  unfold Friends_universe in Hin.
  repeat (apply elem_of_cons in Hin as [-> | Hin];
          [try discriminate Hfield; by destruct value|]).
  by apply elem_of_nil in Hin.
Qed.

Lemma Friends_heap_identified :
  heap_identified (fragmentMap Toy.context_Friends)
    (universe (fragmentMap Toy.context_Friends) Toy.author_and_friends).
Proof.
  intros address selectionSet Haddress _.
  destruct address as [|[|address]]; [by eexists | by eexists | simpl in Haddress; lia].
Qed.


(** Ada and Grace, each other's friend, written through the fragment
    that refers to itself: Grace is entered once, Ada once with the
    selection set of [author] and once with that of [friend]; the
    second time round the walk meets pairs it has recorded and stops. *)
Example friends_run :
  match processSelectionSet 13 Toy.context_Friends (Some "ROOT_QUERY")
          (JObject [("author", JRef 0)]) Toy.author_and_friends (Some "Query")
          Toy.start with
  | Done v st =>
      v = SVReference "ROOT_QUERY" /\
      store st !! "ROOT_QUERY" =
        Some [("__typename", SVJson (JString "Query"));
              ("author", SVReference "Author:5")] /\
      List.map selectionSet_id (written_sets st "Author:5") = [22; 35] /\
      List.map selectionSet_id (written_sets st "Author:7") = [35]
  | _ => False
  end.
Proof. vm_compute. repeat split; reflexivity. Qed.

(** Ada is both author and coauthor: she is written once, the second
    field only gets the reference. *)
Example ada_twice_run :
  match processSelectionSet 10 Toy.context0 (Some "ROOT_QUERY") Toy.ada_twice Toy.authors
          (Some "Query") Toy.start with
  | Done v st =>
      v = SVReference "ROOT_QUERY" /\
      store st !! "ROOT_QUERY" =
        Some [("__typename", SVJson (JString "Query"));
              ("author", SVReference "Author:5"); ("coauthor", SVReference "Author:5")] /\
      length <$> written st !! "Author:5" = Some 1
  | _ => False
  end.
Proof. vm_compute. repeat split; reflexivity. Qed.


Example missing_field_run :
  processSelectionSet 10 Toy.context0 None Toy.nameless Toy.person None Toy.start
    = Thrown (InvariantError "Missing field 'name' in {...}")
        (set_written "Author:5" [Toy.person] Toy.start).
Proof. reflexivity. Qed.


(** A document without operation: the id is retained, then reading
    [operationDefinition.selectionSet] throws. *)
Example no_operation_run :
  writeQueryToStore 10 {| operationDefinition := None; fragmentDefinitions := ∅ |}
    Toy.nameless "ROOT_QUERY" (∅ : gmap string StoreObject) ∅
    = Thrown (TypeError "Cannot read property 'selectionSet' of undefined") Toy.start.
Proof. reflexivity. Qed.

(** A falsy result is written as an object without properties; under
    strict typing every selected field is then missing. *)
Example falsy_result_run :
  writeQueryToStore 10
    {| operationDefinition :=
         Some {| operation_selectionSet := Toy.person; defaultValues := ∅ |};
       fragmentDefinitions := ∅ |}
    (JNumber 0) "ROOT_QUERY" (∅ : gmap string StoreObject) ∅
    = Thrown (InvariantError "Missing field '__typename' in {...}")
        (set_written "ROOT_QUERY" [Toy.person] Toy.start).
Proof. reflexivity. Qed.

Lemma array_is_written_elementwise_witness :
  let author := Field 2 None "author" [] [] (Some Toy.person) in
  exists items',
    SVArray [SVReference "Author:5"; SVReference "Author:5"] = SVArray items' /\
    length items' = length [Toy.ada; Toy.ada] /\
    Forall2 (fun item item' =>
               exists st1 st2,
                 processFieldValue 10 Toy.context0 item author st1 = Done item' st2)
            [Toy.ada; Toy.ada] items'.
Proof.
  intros author.
  apply (array_is_written_elementwise 10 Toy.context0 [Toy.ada; Toy.ada] author
           Toy.person Toy.start _ Toy.after_ada); reflexivity.
Defined.

Lemma nested_object_is_normalised_witness :
  SVReference "Author:5" = makeReference "Author:5" /\
  indexOf_found (written_sets Toy.after_ada "Author:5") Toy.person = true.
Proof.
  refine (nested_object_is_normalised 11 Toy.context0 Toy.ada
            (Field 2 None "author" [] [] (Some Toy.person)) Toy.person Toy.start
            (SVReference "Author:5") Toy.after_ada _ _ _ _);
    [reflexivity | discriminate | intros items; discriminate | reflexivity].
Defined.

End Runs.

(** *** An object without id on a cycle *)
Section AnonymousRuns.
#[local] Existing Instances Toy.cache Toy.anonymous_loop Toy.anonymous_strict
  Toy.anonymous_utilities.

Definition chain_selection : SelectionSetNode :=
  SelectionSet 42 [FragmentSpread 43 "Chain" []].
Definition node_selection : SelectionSetNode :=
  SelectionSet 46 [FragmentSpread 47 "Chain" []].
Definition next_field : SelectionNode :=
  Field 41 None "next" [] [] (Some chain_selection).
Definition node_field : SelectionNode :=
  Field 45 None "node" [] [] (Some node_selection).

(** The object that is its own [next], written with the selection set
    of [node] or of [next]: the fragment matches, its field [next] is
    the object again, and the call for it is for the selection set of
    [next] again. *)
Lemma chain_never_ends fuel :
  forall selectionSet st,
    selectionSet = chain_selection \/ selectionSet = node_selection ->
    processSelectionSet fuel Toy.context_Chain None (JRef 0) selectionSet None st
      = OutOfFuel.
Proof.
  induction fuel as [fuel IH] using lt_wf_ind. intros selectionSet st Hset.
  destruct fuel as [|fuel]; [reflexivity|].
  apply processSelectionSet_unfinished; [by destruct Hset as [-> | ->]|].
  intros mergedFields.
  replace (entered Toy.context_Chain None (JRef 0) selectionSet st) with st
    by (by destruct Hset as [-> | ->]).
  replace (js_or None _) with (Some "Node") by (by destruct Hset as [-> | ->]).
  destruct fuel as [|fuel]; [reflexivity|].
  assert (Hloop : forall spread,
             isField spread = false ->
             getFragmentFromSelection spread Toy.Chain
               = Some {| fragment_typeCondition := Some "Node";
                         fragment_selectionSet := Toy.chain |} ->
             selection_id spread <> 41 ->
             workSet_forEach (S fuel)
               (processSelection (processFieldValue (S fuel) Toy.context_Chain)
                  Toy.context_Chain (JRef 0) (Some "Node"))
               0 mergedFields [spread] st = OutOfFuel).
  { intros spread Hfield Hfragment Hnode.
    rewrite (workSet_forEach_step _ _ _ _ _ spread) by reflexivity.
    erewrite processSelection_fragment;
      [|reflexivity|exact Hfield|exact Hfragment|reflexivity].
    assert (Hwork : foldl workSet_add [spread] (selections Toy.chain)
                    = [spread; next_field]).
    { simpl. unfold workSet_add, workSet_has. simpl.
      destruct (Nat.eqb_spec (selection_id spread) 41); [done|reflexivity]. }
    simpl fragment_selectionSet. rewrite Hwork.
    destruct fuel as [|fuel]; [reflexivity|].
    rewrite (workSet_forEach_step _ _ _ _ _ next_field) by reflexivity.
    rewrite (processSelection_field_unfinished _ _ _ _ _ (JRef 0)); try reflexivity.
    rewrite (processFieldValue_object _ _ _ _ chain_selection);
      [|reflexivity|discriminate|intros items; discriminate].
    apply IH; [lia | by left]. }
  destruct Hset as [-> | ->]; apply Hloop; done.
Qed.


End AnonymousRuns.
End WriterFacts.
